(** * BSpline: a shallow embedding of [bspline/lib/BSpline.cpp]

    The file follows the source top to bottom: the banded LU factorisation
    ([LU_factor_banded]), the domain object ([BSplineBase]: [Setup], [Ratio],
    [Beta], [Basis], [qDelta], [calculateQ], [addP], [factor], [setDomain])
    and the fitted spline ([BSpline]: constructor, [evaluate], [curve]).

    Numbers.  The source computes in C++ [float].  Every definition below is
    written once, over an arbitrary carrier [F] with the operations the
    source uses ([Arith F]); the order of the operations is the order of the
    source.  Statements that depend only on the control flow are proved for
    every such carrier.  Statements that need the laws of arithmetic are
    proved on the instance [Qc_Arith] (exact rationals): rounding, infinities
    and NaN are outside that instance, and so is a quotient by zero, which
    [Qc] evaluates to [0].

    C++ [int] is modelled by [Z]; the values the source computes with are
    node counts and indices, far from the overflow range. *)

From Stdlib Require Import ZArith QArith Qcanon Qround List Lia Lqa Bool.
Import ListNotations.

Set Implicit Arguments.
Local Open Scope Z_scope.

(* ================================================================== *)
(** * 1. Arithmetic carrier *)
(* ================================================================== *)

(** The operations of C++ [float] that the source uses. *)
Class Arith (F : Type) : Type := {
  fzero  : F;                 (* 0.0 *)
  flit   : QArith_base.Q -> F;(* a decimal literal, e.g. 0.25 or 0.11250f *)
  fofZ   : Z -> F;            (* conversion int -> float *)
  fadd   : F -> F -> F;
  fsub   : F -> F -> F;
  fmul   : F -> F -> F;
  fdiv   : F -> F -> F;
  fopp   : F -> F;
  fltb   : F -> F -> bool;    (* a < b *)
  fleb   : F -> F -> bool;    (* a <= b *)
  feqb   : F -> F -> bool;    (* a == b *)
  ftrunc : F -> Z             (* conversion float -> int: toward zero *)
}.

Declare Scope arith_scope.
Delimit Scope arith_scope with F.
Infix "+" := fadd : arith_scope.
Infix "-" := fsub : arith_scope.
Infix "*" := fmul : arith_scope.
Infix "/" := fdiv : arith_scope.
Notation "- x" := (fopp x) : arith_scope.
Infix "<?" := fltb : arith_scope.
Infix "<=?" := fleb : arith_scope.
Infix "=?" := feqb : arith_scope.
Notation "a >? b" := (fltb b a) : arith_scope.
Notation "a >=? b" := (fleb b a) : arith_scope.

(** Exact rational arithmetic. *)
Definition Qc_ltb (a b : Qc) : bool :=
  match (a ?= b)%Qc with Lt => true | _ => false end.

Definition Qc_leb (a b : Qc) : bool :=
  match (a ?= b)%Qc with Gt => false | _ => true end.

Definition Qc_trunc (a : Qc) : Z :=
  Z.quot (Qnum (this a)) (Zpos (Qden (this a))).

#[export] Instance Qc_Arith : Arith Qc := {|
  fzero  := Q2Qc 0;
  flit   := Q2Qc;
  fofZ   := fun z => Q2Qc (inject_Z z);
  fadd   := Qcplus;
  fsub   := Qcminus;
  fmul   := Qcmult;
  fdiv   := Qcdiv;
  fopp   := Qcopp;
  fltb   := Qc_ltb;
  fleb   := Qc_leb;
  feqb   := Qc_eq_bool;
  ftrunc := Qc_trunc
|}.

(* ================================================================== *)
(** * 2. Outcomes of a call, and loops *)
(* ================================================================== *)

(** What a call of the source can end in, besides returning a value. *)
Inductive error : Set :=
| OutOfRange      (* an index outside its array *)
| AssertFailed    (* a failed [assert] *)
| Exited          (* [exit (1)] *)
| OutOfFuel.      (* the recursion or loop has not ended within the fuel *)

Inductive result (A : Type) : Type :=
| Ok  (a : A)
| Err (e : error).

Arguments Ok {A} a.
Arguments Err {A} e.

Definition bind {A B : Type} (c : result A) (k : A -> result B) : result B :=
  match c with
  | Ok a => k a
  | Err e => Err e
  end.

Declare Scope result_scope.
Delimit Scope result_scope with result.
Notation "x <- c ;; k" := (bind c (fun x => k))
  (at level 61, c at next level, right associativity) : result_scope.
Notation "' p <- c ;; k" := (bind c (fun x => let p := x in k))
  (at level 61, p pattern, c at next level, right associativity) : result_scope.
Local Open Scope result_scope.

(** [for (i = lo; i <= hi; ++i) body] on a state [St]. *)
Fixpoint iter_up {St : Type} (n : nat) (i : Z) (body : Z -> St -> St) (s : St)
  : St :=
  match n with
  | O => s
  | S n' => iter_up n' (i + 1) body (body i s)
  end.

Definition for_Z {St : Type} (lo hi : Z) (body : Z -> St -> St) (s : St) : St :=
  iter_up (Z.to_nat (hi + 1 - lo)) lo body s.

(** The same loop with a body that can fail. *)
Fixpoint iter_upM {St : Type} (n : nat) (i : Z)
  (body : Z -> St -> result St) (s : St) : result St :=
  match n with
  | O => Ok s
  | S n' => s' <- body i s ;; iter_upM n' (i + 1) body s'
  end.

Definition for_ZM {St : Type} (lo hi : Z) (body : Z -> St -> result St)
  (s : St) : result St :=
  iter_upM (Z.to_nat (hi + 1 - lo)) lo body s.

(** [for (i = hi; i >= lo; i--) body]. *)
Fixpoint iter_down {St : Type} (n : nat) (i : Z) (body : Z -> St -> St) (s : St)
  : St :=
  match n with
  | O => s
  | S n' => iter_down n' (i - 1) body (body i s)
  end.

Definition for_Z_down {St : Type} (hi lo : Z) (body : Z -> St -> St) (s : St)
  : St :=
  iter_down (Z.to_nat (hi + 1 - lo)) hi body s.

(* ================================================================== *)
(** * 3. The arrays of the Template Numerical Toolkit *)
(* ================================================================== *)

(** [tnt.h], [cmat.h] and [lu.h] are not part of the repository.  Their
    array types are modelled by a dimension and a total cell function on
    0-based positions: [v[i]] and [A[i][j]] read position [i] and [(i, j)],
    the 1-offset accessors [v(i)] and [A(i,j)] read [i - 1] and
    [(i - 1, j - 1)]. *)
Record Vector (T : Type) : Type := mkVector {
  dim : Z;
  elt : Z -> T
}.

Record C_matrix (T : Type) : Type := mkMatrix {
  num_rows : Z;
  num_cols : Z;
  cell     : Z -> Z -> T
}.

Section TNT.
Context {T : Type}.

(** [v(i)] *)
Definition vat1 (v : Vector T) (i : Z) : T := elt v (i - 1).

(** [v(i) = x] *)
Definition vset1 (v : Vector T) (i : Z) (x : T) : Vector T :=
  mkVector (dim v) (fun k => if k =? i - 1 then x else elt v k).

(** [v.newsize(n)]: a fresh array; the old cells are kept as the
    unspecified content of the new one. *)
Definition vnewsize (v : Vector T) (n : Z) : Vector T := mkVector n (elt v).

(** [A(i,j)] *)
Definition at1 (A : C_matrix T) (i j : Z) : T := cell A (i - 1) (j - 1).

(** [A(i,j) = x] *)
Definition set1 (A : C_matrix T) (i j : Z) (x : T) : C_matrix T :=
  mkMatrix (num_rows A) (num_cols A)
    (fun r c => if (r =? i - 1) && (c =? j - 1) then x else cell A r c).

(** [A[i][j]], checked against the bounds. *)
Definition in_bounds (A : C_matrix T) (i j : Z) : bool :=
  (0 <=? i) && (i <? num_rows A) && (0 <=? j) && (j <? num_cols A).

Definition mget (A : C_matrix T) (i j : Z) : result T :=
  if in_bounds A i j then Ok (cell A i j) else Err OutOfRange.

(** [A[i][j] = x], checked against the bounds. *)
Definition mset (A : C_matrix T) (i j : Z) (x : T) : result (C_matrix T) :=
  if in_bounds A i j
  then Ok (mkMatrix (num_rows A) (num_cols A)
             (fun r c => if (r =? i) && (c =? j) then x else cell A r c))
  else Err OutOfRange.

(** [A.newsize (m, n); A = x;] and the constructor [C_matrix<T> A(m, n, x)] *)
Definition mconst (m n : Z) (x : T) : C_matrix T :=
  mkMatrix m n (fun _ _ => x).
End TNT.

(** Shapes of matrices, for the statements below. *)
Definition same_dims {T : Type} (A B : C_matrix T) : Prop :=
  num_rows B = num_rows A /\ num_cols B = num_cols A.

Definition square_of {T : Type} (A : C_matrix T) (n : Z) : Prop :=
  num_rows A = n /\ num_cols A = n.

Definition symmetric {T : Type} (A : C_matrix T) : Prop :=
  forall i j, cell A i j = cell A j i.

(** Every cell more than [w] places off the diagonal holds [zero]. *)
Definition banded {T : Type} (zero : T) (A : C_matrix T) (w : Z) : Prop :=
  forall i j, w < Z.abs (i - j) -> cell A i j = zero.

(** A square matrix of order [n] that is symmetric and has bandwidth 3. *)
Definition symmetric_band {T : Type} (zero : T) (n : Z) (A : C_matrix T)
  : Prop :=
  square_of A n /\ symmetric A /\ banded zero A 3.

(* ================================================================== *)
(** * 4. [LU_factor_banded] (lines 40-120) *)
(* ================================================================== *)

Section LU.
Context {F : Type} {AF : Arith F}.
Local Open Scope arith_scope.

(** [abs]: [(t < 0) ? -t : t] *)
Definition fabs (t : F) : F := if t <? fzero then - t else t.

(** Lines 65-72: the pivot search in column [j].  The loop state is
    [(jp, t)]. *)
Definition pivot_step (A : C_matrix F) (j : Z) (i : Z) (st : Z * F) : Z * F :=
  let '(jp, t) := st in
  if fabs (at1 A i j) >? t then (i, fabs (at1 A i j)) else (jp, t).

Definition find_pivot (A : C_matrix F) (j bands : Z) : Z :=
  fst (for_Z (j + 1)%Z (Z.min (j + bands) (num_rows A)) (pivot_step A j)
         (j, fabs (at1 A j j))).

(** Lines 83-89: swap rows [j] and [jp], for [k = 1 .. N]. *)
Definition swap_step (j jp : Z) (k : Z) (A : C_matrix F) : C_matrix F :=
  let t := at1 A j k in
  let A := set1 A j k (at1 A jp k) in
  set1 A jp k t.

Definition swap_rows (A : C_matrix F) (j jp : Z) : C_matrix F :=
  for_Z 1 (num_cols A) (swap_step j jp) A.

(** Lines 96-99: [recp = 1.0 / A(j,j)], then [A(k,j) *= recp] for
    [k = j+1 .. M]. *)
Definition scale_column (A : C_matrix F) (j : Z) : C_matrix F :=
  let recp := flit 1 / at1 A j j in
  for_Z (j + 1)%Z (num_rows A)
    (fun k A => set1 A k j (at1 A k j * recp)) A.

(** Lines 113-115: [A(ii,jj) -= A(ii,j)*A(j,jj)] on the trailing block. *)
Definition rank1_update (A : C_matrix F) (j : Z) : C_matrix F :=
  for_Z (j + 1)%Z (num_rows A)
    (fun ii A =>
       for_Z (j + 1)%Z (num_cols A)
         (fun jj A => set1 A ii jj (at1 A ii jj - at1 A ii j * at1 A j jj)) A)
    A.

(** Lines 83-116: what one column does to the matrix once its pivot row
    [jp] is known to hold a nonzero pivot. *)
Definition eliminate (A : C_matrix F) (j jp : Z) : C_matrix F :=
  let M := num_rows A in
  let N := num_cols A in
  let A := if (jp =? j)%Z then A else swap_rows A j jp in
  let A := if (j <? M)%Z then scale_column A j else A in
  if (j <? Z.min M N)%Z then rank1_update A j else A.

(** The body of the loop over [j] (lines 60-117), [n] columns from [j]
    on.  The result is the return value with the final [A] and [indx]. *)
Fixpoint LU_columns (n : nat) (j bands : Z) (A : C_matrix F)
  (indx : Vector Z) : Z * C_matrix F * Vector Z :=
  match n with
  | O => (0, A, indx)
  | S n' =>
      let jp := find_pivot A j bands in
      let indx := vset1 indx j jp in
      if at1 A jp j =? fzero
      then (1, A, indx)
      else LU_columns n' (j + 1)%Z bands (eliminate A j jp) indx
  end.

Definition LU_factor_banded (A : C_matrix F) (indx : Vector Z) (bands : Z)
  : Z * C_matrix F * Vector Z :=
  let M := num_rows A in
  let N := num_cols A in
  if (M =? 0)%Z || (N =? 0)%Z then (0, A, indx)
  else
    let indx := if (dim indx =? M)%Z then indx else vnewsize indx M in
    LU_columns (Z.to_nat (Z.min M N)) 1 bands A indx.

End LU.

(* ================================================================== *)
(** * 5. [BSplineBase]: the domain object *)
(* ================================================================== *)

(** [std::vector] is a list; [v[i]] outside the list is [OutOfRange]. *)
Definition vec_at {T : Type} (v : list T) (i : Z) : result T :=
  if i <? 0 then Err OutOfRange
  else match nth_error v (Z.to_nat i) with
       | Some x => Ok x
       | None => Err OutOfRange
       end.

Section Domain.
Context {F : Type} {AF : Arith F}.
Local Open Scope arith_scope.

(** [struct BSplineBaseP] (lines 130-137) *)
Record BSplineBaseP : Type := mkBaseP {
  Q     : C_matrix F;      (* holds P+Q *)
  LU    : C_matrix F;      (* LU factorization of PQ *)
  index : Vector Z;
  X     : list F;
  Nodes : list F
}.

(** The data members of [class BSplineBase].  [BSpline.h] is not part of
    the repository; the members are those the methods read and write. *)
Record BSplineBase : Type := mkBase {
  K          : Z;
  BC         : Z;
  NX         : Z;
  xmin       : F;
  xmax       : F;
  waveLength : F;
  alpha      : F;
  DX         : F;
  M          : Z;
  base       : BSplineBaseP
}.

Definition with_X (s : BSplineBase) (v : list F) : BSplineBase :=
  mkBase (K s) (BC s) (NX s) (xmin s) (xmax s) (waveLength s) (alpha s)
    (DX s) (M s)
    (mkBaseP (Q (base s)) (LU (base s)) (index (base s)) v (Nodes (base s))).

Definition with_Q (s : BSplineBase) (q : C_matrix F) : BSplineBase :=
  mkBase (K s) (BC s) (NX s) (xmin s) (xmax s) (waveLength s) (alpha s)
    (DX s) (M s)
    (mkBaseP q (LU (base s)) (index (base s)) (X (base s)) (Nodes (base s))).

Definition with_LU (s : BSplineBase) (lu : C_matrix F) (ix : Vector Z)
  : BSplineBase :=
  mkBase (K s) (BC s) (NX s) (xmin s) (xmax s) (waveLength s) (alpha s)
    (DX s) (M s)
    (mkBaseP (Q (base s)) lu ix (X (base s)) (Nodes (base s))).

Definition with_NX (s : BSplineBase) (n : Z) : BSplineBase :=
  mkBase (K s) (BC s) n (xmin s) (xmax s) (waveLength s) (alpha s)
    (DX s) (M s) (base s).

Definition with_waveLength (s : BSplineBase) (wl : F) : BSplineBase :=
  mkBase (K s) (BC s) (NX s) (xmin s) (xmax s) wl (alpha s)
    (DX s) (M s) (base s).

Definition with_alpha (s : BSplineBase) (a : F) : BSplineBase :=
  mkBase (K s) (BC s) (NX s) (xmin s) (xmax s) (waveLength s) a
    (DX s) (M s) (base s).

Definition with_bounds (s : BSplineBase) (lo hi : F) : BSplineBase :=
  mkBase (K s) (BC s) (NX s) lo hi (waveLength s) (alpha s)
    (DX s) (M s) (base s).

Definition with_grid (s : BSplineBase) (m : Z) (dx : F) : BSplineBase :=
  mkBase (K s) (BC s) (NX s) (xmin s) (xmax s) (waveLength s) (alpha s)
    dx m (base s).

(** [BoundaryConditions[3][4]] (lines 142-148) *)
Definition BoundaryConditions_table : list (list Z) :=
  [ [ -4; -1; -1; -4 ];
    [  0;  1;  1;  0 ];
    [  2; -1; -1;  2 ] ].

Definition BoundaryConditions (bc m : Z) : result F :=
  row <- vec_at BoundaryConditions_table bc ;;
  v <- vec_at row m ;;
  Ok (fofZ v).

(** [PI] (line 192) *)
Definition PI : F := flit (31415927 # 10000000).

(** [Reset] (lines 198-204) *)
Definition Reset (s : BSplineBase) : BSplineBase :=
  with_waveLength (with_X s []) fzero.

(** [Copy] (lines 208-219).  The caller's array [x] is a list; copying
    [nx] cells out of a shorter array is [OutOfRange]. *)
Definition Copy (x : list F) (nx : Z) (wl : F) (s : BSplineBase)
  : result BSplineBase :=
  s <- (if (nx =? 0)%Z then Ok s
        else if (0 <? nx)%Z && (nx <=? Z.of_nat (length x))%Z
             then Ok (with_NX (with_X s (firstn (Z.to_nat nx) x)) nx)
             else Err OutOfRange) ;;
  Ok (with_waveLength s wl).

(** [Alpha] (lines 260-271).  The source tests a lower-case [k]; the
    class member that its comment names is [K]. *)
Definition Alpha (s : BSplineBase) (wl : F) : F :=
  let a := wl / (fofZ 2 * PI) in
  let a := a * a in
  if (K s =? 2)%Z then a * a
  else if (K s =? 3)%Z then a * (a * a)
  else a.

(** [Beta] (lines 278-288) *)
Definition Beta (s : BSplineBase) (m : Z) : result F :=
  if (m >? 1)%Z && (m <? M s - 1)%Z then Ok fzero
  else
    let m := if (m >=? M s - 1)%Z then (m - (M s - 3))%Z else m in
    if negb ((0 <=? BC s)%Z && (BC s <=? 2)%Z) then Err AssertFailed
    else if negb ((0 <=? m)%Z && (m <=? 3)%Z) then Err AssertFailed
    else BoundaryConditions (BC s) m.

(** Lines 313-323 of [Basis]: the kernel centred at node [m], before the
    boundary addend. *)
Definition Basis_kernel (s : BSplineBase) (m : Z) (x : F) : F :=
  let y := fzero in
  let xm := xmin s + (fofZ m * DX s) in
  let z := fabs ((x - xm) / DX s) in
  if z <? flit 2
  then
    let z := fofZ 2 - z in
    let y := flit (1 # 4) * (z * z * z) in
    let z := z - flit 1 in
    if z >? fzero then y - (z * z * z) else y
  else y.

(** [Basis] (lines 310-332).  The source recurses; [fuel] bounds the
    depth of the recursion. *)
Fixpoint Basis (fuel : nat) (s : BSplineBase) (m : Z) (x : F) : result F :=
  match fuel with
  | O => Err OutOfFuel
  | S fuel' =>
      let y := Basis_kernel s m x in
      if (m =? 0)%Z || (m =? 1)%Z
      then b <- Beta s m ;;
           r <- Basis fuel' s (-1)%Z x ;;
           Ok (y + b * r)
      else if (m =? M s - 1)%Z || (m =? M s)%Z
      then b <- Beta s m ;;
           r <- Basis fuel' s (M s + 1)%Z x ;;
           Ok (y + b * r)
      else Ok y
  end.

(** The abscissa of node [m], [xmin + (m * DX)]. *)
Definition node (s : BSplineBase) (m : Z) : F := xmin s + (fofZ m * DX s).

(** The value of [Basis] as a total function: the recursion of [Basis]
    is at most two calls deep on a grid of at least one interval. *)
Definition Basis_val (s : BSplineBase) (m : Z) (x : F) : F :=
  match Basis 2 s m x with
  | Ok y => y
  | Err _ => fzero
  end.

(** [Ratio] (lines 592-602): the return value, [deltax], [ratiof] and the
    value stored through [ratiod]. *)
Definition Ratio (s : BSplineBase) (ni : Z) : bool * F * F * F :=
  let deltax := (xmax s - xmin s) / fofZ ni in
  let ratiof := deltax / waveLength s in
  let rd := fofZ (NX s) / fofZ (ni + 1)%Z in
  (rd >=? flit 1, deltax, ratiof, rd).

(** Lines 613-622 of [Setup]: the bounds of the samples. *)
Definition Setup_bounds (s : BSplineBase) : result (F * F) :=
  x0 <- vec_at (X (base s)) 0 ;;
  for_ZM 1 (NX s - 1)
    (fun i '(lo, hi) =>
       xi <- vec_at (X (base s)) i ;;
       Ok (if xi <? lo then (xi, hi)
           else if xi >? hi then (lo, xi)
           else (lo, hi)))
    (x0, x0).

(** [fmin] (line 630) *)
Definition fmin : F := flit 2.

(** Lines 637-641: the first [do ... while].  [ni] is the count before
    [++ni]; [None] is [return 0]. *)
Fixpoint Setup_grow (fuel : nat) (s : BSplineBase) (ni : Z)
  : result (option (Z * F * F)) :=
  match fuel with
  | O => Err OutOfFuel
  | S fuel' =>
      let ni := (ni + 1)%Z in
      let '(ok, deltax, ratiof, _) := Ratio s ni in
      if negb ok then Ok None
      else if ratiof >? fmin then Setup_grow fuel' s ni
      else Ok (Some (ni, deltax, ratiof))
  end.

(** Lines 644-652: the second [do ... while]. *)
Fixpoint Setup_tweak (fuel : nat) (s : BSplineBase) (ni : Z)
  : result (Z * F * F) :=
  match fuel with
  | O => Err OutOfFuel
  | S fuel' =>
      let ni := (ni + 1)%Z in
      let '(ok, deltax, ratiof, ratiod) := Ratio s ni in
      if negb ok || (ratiof >? flit 15)
      then
        let ni := (ni - 1)%Z in
        let '(_, deltax, ratiof, _) := Ratio s ni in
        Ok (ni, deltax, ratiof)
      else if (ratiof <? fofZ 4) || (ratiod >? flit 2)
      then Setup_tweak fuel' s ni
      else Ok (ni, deltax, ratiof)
  end.

(** [Setup] (lines 608-660): the return value and the object after the
    call. *)
Definition Setup (fuel : nat) (s : BSplineBase) : result (Z * BSplineBase) :=
  '(lo, hi) <- Setup_bounds s ;;
  let s := with_bounds s lo hi in
  if waveLength s >? xmax s - xmin s then Ok (0%Z, s)
  else
    g <- Setup_grow fuel s 9 ;;
    match g with
    | None => Ok (0%Z, s)
    | Some (ni, _, _) =>
        '(ni, deltax, _) <- Setup_tweak fuel s ni ;;
        Ok (1%Z, with_grid s ni deltax)
    end.

(** ** The step sequence of [Setup], stated on the candidates

    The four results of [Ratio] for the candidate [ni]. *)
Definition Ratio_ok (s : BSplineBase) (ni : Z) : bool :=
  fst (fst (fst (Ratio s ni))).
Definition Ratio_deltax (s : BSplineBase) (ni : Z) : F :=
  snd (fst (fst (Ratio s ni))).
Definition Ratio_ratiof (s : BSplineBase) (ni : Z) : F :=
  snd (fst (Ratio s ni)).
Definition Ratio_ratiod (s : BSplineBase) (ni : Z) : F :=
  snd (Ratio s ni).

(** The first loop, entered with the count [n0], leaves with [n1]: every
    candidate from [n0 + 1] up to [n1] passes [Ratio], the candidates
    before [n1] have [ratiof > fmin], and [n1] has not. *)
Definition grows_to (s : BSplineBase) (n0 n1 : Z) : Prop :=
  (n0 < n1)%Z /\
  (forall k, (n0 < k < n1)%Z ->
             Ratio_ok s k = true /\ (Ratio_ratiof s k >? fmin) = true) /\
  Ratio_ok s n1 = true /\ (Ratio_ratiof s n1 >? fmin) = false.

(** The first loop returns 0: a candidate fails [Ratio] before any
    candidate has [ratiof <= fmin]. *)
Definition grow_fails (s : BSplineBase) (n0 : Z) : Prop :=
  exists n1, (n0 < n1)%Z /\
    (forall k, (n0 < k < n1)%Z ->
               Ratio_ok s k = true /\ (Ratio_ratiof s k >? fmin) = true) /\
    Ratio_ok s n1 = false.

(** The condition of the second [while]. *)
Definition tweak_goes_on (s : BSplineBase) (k : Z) : bool :=
  (Ratio_ratiof s k <? fofZ 4) || (Ratio_ratiod s k >? flit 2).

(** The test that makes the second loop back off. *)
Definition tweak_backs_off (s : BSplineBase) (k : Z) : bool :=
  negb (Ratio_ok s k) || (Ratio_ratiof s k >? flit 15).

(** The second loop, entered with the count [n1], leaves with [m]: the
    candidates after [n1] are taken one by one while none backs off and
    the condition holds; the first candidate [n2] that backs off gives
    [m = n2 - 1], the first one that ends the condition gives
    [m = n2]. *)
Definition tweaks_to (s : BSplineBase) (n1 m : Z) : Prop :=
  exists n2, (n1 < n2)%Z /\
    (forall k, (n1 < k < n2)%Z ->
               tweak_backs_off s k = false /\ tweak_goes_on s k = true) /\
    (tweak_backs_off s n2 = true /\ m = (n2 - 1)%Z \/
     tweak_backs_off s n2 = false /\ tweak_goes_on s n2 = false /\ m = n2).

(** Two objects with the same samples and wavelength. *)
Definition same_input (s1 s2 : BSplineBase) : Prop :=
  X (base s1) = X (base s2) /\ NX s1 = NX s2 /\
  waveLength s1 = waveLength s2.

(** ** The step sequence as the spec words it

    Spec 4.2: "start from a small candidate interval count (9), grow it
    one step at a time while the wavelength is resolved by fewer than a
    minimum number of node-intervals-per-cutoff (2.0), then refine upward
    while the ratio of data points to node intervals exceeds 2.0 and the
    node-to-wavelength ratio is below a floor (4) up to a ceiling (15);
    stop refining and back off one step the moment either bound is
    crossed."  The definitions keep the control flow of [Setup] and take
    the quantities and the conditions from these words: node intervals
    per cutoff wavelength is [waveLength / deltax], data points per node
    interval is [NX / ni], and the refinement goes on while both
    conditions hold. *)
Definition Ratio_as_claimed (s : BSplineBase) (ni : Z) : bool * F * F * F :=
  let deltax := (xmax s - xmin s) / fofZ ni in
  let nodes_per_cutoff := waveLength s / deltax in
  let points_per_interval := fofZ (NX s) / fofZ ni in
  (fofZ (NX s) / fofZ (ni + 1)%Z >=? flit 1,
   deltax, nodes_per_cutoff, points_per_interval).

Fixpoint Setup_grow_as_claimed (fuel : nat) (s : BSplineBase) (ni : Z)
  : result (option (Z * F * F)) :=
  match fuel with
  | O => Err OutOfFuel
  | S fuel' =>
      let ni := (ni + 1)%Z in
      let '(ok, deltax, ratio, _) := Ratio_as_claimed s ni in
      if negb ok then Ok None
      else if ratio <? flit 2 then Setup_grow_as_claimed fuel' s ni
      else Ok (Some (ni, deltax, ratio))
  end.

Fixpoint Setup_tweak_as_claimed (fuel : nat) (s : BSplineBase) (ni : Z)
  : result (Z * F * F) :=
  match fuel with
  | O => Err OutOfFuel
  | S fuel' =>
      let ni := (ni + 1)%Z in
      let '(ok, deltax, ratio, points) := Ratio_as_claimed s ni in
      if negb ok || (ratio >? flit 15)
      then
        let ni := (ni - 1)%Z in
        let '(_, deltax, ratio, _) := Ratio_as_claimed s ni in
        Ok (ni, deltax, ratio)
      else if (points >? flit 2) && (ratio <? fofZ 4)
      then Setup_tweak_as_claimed fuel' s ni
      else Ok (ni, deltax, ratio)
  end.

Definition Setup_as_claimed (fuel : nat) (s : BSplineBase)
  : result (Z * BSplineBase) :=
  '(lo, hi) <- Setup_bounds s ;;
  let s := with_bounds s lo hi in
  if waveLength s >? xmax s - xmin s then Ok (0%Z, s)
  else
    g <- Setup_grow_as_claimed fuel s 9 ;;
    match g with
    | None => Ok (0%Z, s)
    | Some (ni, _, _) =>
        '(ni, deltax, _) <- Setup_tweak_as_claimed fuel s ni ;;
        Ok (1%Z, with_grid s ni deltax)
    end.
End Domain.

Arguments BSplineBaseP : clear implicits.
Arguments BSplineBase : clear implicits.

(* ================================================================== *)
(** * 6. Matrix assembly: [qDelta], [calculateQ], [addP], [factor] *)
(* ================================================================== *)

Section Assembly.
Context {F : Type} {AF : Arith F}.
Local Open Scope arith_scope.

(** [calculateQ] reads [qdelta[...]] (lines 490-512) and subscripts
    [Beta[...]] (lines 503 and 506).  The only declaration of [qdelta] is
    inside [#ifdef notdef], and [Beta] is declared as a method: the
    source does not say what the two subscripted names are.  They are
    parameters of the model. *)
Variable qdelta : Z -> F.
Variable Beta_sub : Z -> F.

(** [qparts[4][4]] of [qDelta] (lines 384-390) *)
Definition qparts_table : list (list QArith_base.Q) :=
  [ [ 11250 # 100000;  63750 # 100000;   63750 # 100000;   11250 # 100000 ];
    [ 0;               13125 # 100000; - (54375 # 100000); 13125 # 100000 ];
    [ 0;               0;              - (22500 # 100000); - (22500 # 100000) ];
    [ 0;               0;                0;                - (1875 # 100000) ] ]%Q.

Definition qparts (a b : Z) : result F :=
  row <- vec_at qparts_table a ;;
  v <- vec_at row b ;;
  Ok (flit v).

(** [qDelta] (lines 370-409) *)
Definition qDelta (s : BSplineBase F) (m1 m2 : Z) : result F :=
  let '(m1, m2) := if (m1 >? m2)%Z then (m2, m1) else (m1, m2) in
  if (m2 - m1 >? 3)%Z then Ok fzero
  else
    q <- for_ZM (Z.max (m1 - 2) 0) (Z.min (m1 + 2) (M s) - 1)
           (fun m q => p <- qparts (m2 - m1) (m - m1 + 2) ;; Ok (q + p))
           fzero ;;
    Ok (q * DX s * alpha s).

(** Lines 463-471 of [calculateQ]: the band without the boundary
    constraints.  [j < 4 && i+j <= M] bounds [j] by [min (3, M - i)]. *)
Definition calculateQ_band (s : BSplineBase F) (Q0 : C_matrix F)
  : result (C_matrix F) :=
  for_ZM 0 (M s)
    (fun i Qm =>
       d <- qDelta s i i ;;
       Qm <- mset Qm i i d ;;
       for_ZM 1 (Z.min 3 (M s - i))
         (fun j Qm =>
            v <- qDelta s i (i + j) ;;
            Qm <- mset Qm (i + j) i v ;;
            mset Qm i (i + j) v)
         Qm)
    Q0.

(** Lines 482-498: the upper left corner.  [q = 0.0; qdelta[j-i];]
    leaves [q] at zero. *)
Definition calculateQ_upper (s : BSplineBase F) (Q0 : C_matrix F)
  : result (C_matrix F) :=
  for_ZM 0 1
    (fun i Qm =>
       b1 <- Beta s i ;;
       for_ZM i (i + 3)
         (fun j Qm =>
            b2 <- Beta s j ;;
            if negb ((j - i >=? 0)%Z && (j - i <? 4)%Z) then Err AssertFailed
            else
              let q := fzero in
              let q := if (i + 1 <? 4)%Z then q + b2 * qdelta (i + 1) else q in
              let q := if (j + 1 <? 4)%Z then q + b1 * qdelta (j + 1) else q in
              let q := q + b1 * b2 * qdelta 0 in
              Qm <- mset Qm i j q ;;
              mset Qm j i q)
         Qm)
    Q0.

(** Lines 501-515: the lower right corner. *)
Definition calculateQ_lower (s : BSplineBase F) (Q0 : C_matrix F)
  : result (C_matrix F) :=
  let M := M s in
  for_ZM (M - 1) M
    (fun i Qm =>
       let b1 := Beta_sub (i - (M - 1)) in
       for_ZM (i - 3) i
         (fun j Qm =>
            let b2 := if (j >=? M - 1)%Z then Beta_sub (j - (M - 1))
                      else fzero in
            let q := qdelta (i - j) in
            let q := if (M + 1 - i <? 4)%Z then q + b2 * qdelta (M + 1 - i)
                     else q in
            let q := if (M + 1 - j <? 4)%Z then q + b1 * qdelta (M + 1 - j)
                     else q in
            let q := q + b1 * b2 * qdelta 0 in
            Qm <- mset Qm i j q ;;
            mset Qm j i q)
         Qm)
    Q0.

(** [calculateQ] (lines 413-516) *)
Definition calculateQ (s : BSplineBase F) : result (BSplineBase F) :=
  let Q0 := mconst (M s + 1) (M s + 1) fzero in
  Q1 <- calculateQ_band s Q0 ;;
  Q2 <- calculateQ_upper s Q1 ;;
  Q3 <- calculateQ_lower s Q2 ;;
  Ok (with_Q s Q3).

(** [P[i][j] += v] *)
Definition madd_at (P : C_matrix F) (i j : Z) (v : F) : result (C_matrix F) :=
  p <- mget P i j ;;
  mset P i j (p + v).

(** Lines 553-567 of [addP]: what one sample [x] adds at row [m]. *)
Definition addP_row (fuel : nat) (s : BSplineBase F) (x : F) (m : Z)
  (P : C_matrix F) : result (C_matrix F) :=
  pm <- Basis fuel s m x ;;
  let sum := pm * pm * DX s in
  P <- madd_at P m m sum ;;
  for_ZM (m + 1) (Z.min (M s) (m + 3))
    (fun n P =>
       pm <- Basis fuel s m x ;;
       pn <- Basis fuel s n x ;;
       let sum := pm * pn * DX s in
       P <- madd_at P m n sum ;;
       madd_at P n m sum)
    P.

(** Line 553: [for (m = ...; m <= my::min(M, m+2); ++m)].  The bound is
    read from the running [m]; [n] counts the iterations that are left,
    and a loop that would go on after them is [OutOfFuel]. *)
Fixpoint addP_rows (n : nat) (fuel : nat) (s : BSplineBase F) (x : F) (m : Z)
  (P : C_matrix F) : result (C_matrix F) :=
  if (m <=? Z.min (M s) (m + 2))%Z
  then match n with
       | O => Err OutOfFuel
       | S n' =>
           P <- addP_row fuel s x m P ;;
           addP_rows n' fuel s x (m + 1)%Z P
       end
  else Ok P.

(** Lines 545-568: one sample. *)
Definition addP_sample (fuel : nat) (s : BSplineBase F) (i : Z)
  (P : C_matrix F) : result (C_matrix F) :=
  x <- vec_at (X (base s)) i ;;
  let m := ftrunc ((x - xmin s) / DX s) in
  let m := Z.max 0 (m - 2) in
  addP_rows (Z.to_nat (M s + 1 - m)) fuel s x m P.

(** The rows and columns that the loops of lines 553-567 visit for a
    sample whose first row is [m0]: the pair [(a, b)] is visited when its
    smaller index is at least [m0], its larger index at most [M], and the
    two are at most 3 apart. *)
Definition in_window (s : BSplineBase F) (m0 a b : Z) : bool :=
  (m0 <=? Z.min a b)%Z && (Z.max a b <=? M s)%Z
  && (Z.max a b - Z.min a b <=? 3)%Z.

(** The addend [pm * pn * DX] of the pair [(a, b)], [pm] being the basis
    function of the smaller index. *)
Definition pair_product (s : BSplineBase F) (x : F) (a b : Z) : F :=
  Basis_val s (Z.min a b) x * Basis_val s (Z.max a b) x * DX s.

(** Line 549 and the start of line 553: the first row of a sample. *)
Definition first_row (s : BSplineBase F) (x : F) : Z :=
  Z.max 0 (ftrunc ((x - xmin s) / DX s) - 2).

(** Lines 524-568: the matrix [P] of [addP]. *)
Definition addP_P (fuel : nat) (s : BSplineBase F) : result (C_matrix F) :=
  for_ZM 0 (NX s - 1) (addP_sample fuel s)
    (mconst (M s + 1) (M s + 1) fzero).


(** [operator +=] on matrices (lines 351-366) *)
Definition matrix_add_assign (A B : C_matrix F) : result (C_matrix F) :=
  if negb ((num_rows A =? num_rows B)%Z && (num_cols A =? num_cols B)%Z)
  then Err AssertFailed
  else
    for_ZM 0 (num_rows A - 1)
      (fun i A =>
         for_ZM 0 (num_cols A - 1)
           (fun j A => b <- mget B i j ;; madd_at A i j b)
           A)
      A.

(** [addP] (lines 521-573) *)
Definition addP (fuel : nat) (s : BSplineBase F) : result (BSplineBase F) :=
  P <- addP_P fuel s ;;
  Qm <- matrix_add_assign (Q (base s)) P ;;
  Ok (with_Q s Qm).

(** [factor] (lines 577-588) *)
Definition factor (s : BSplineBase F) : result (BSplineBase F) :=
  let ix := vnewsize (index (base s)) (M s + 1) in
  let '(ret, lu, ix) := LU_factor_banded (Q (base s)) ix 3 in
  if (ret =? 0)%Z then Ok (with_LU s lu ix) else Err Exited.

(** [setDomain] (lines 222-253).  The value [Setup] returns is not
    read. *)
Definition setDomain (fuel : nat) (x : list F) (nx : Z) (wl : F)
  (s : BSplineBase F) : result (BSplineBase F) :=
  let s := Reset s in
  s <- Copy x nx wl s ;;
  '(_, s) <- Setup fuel s ;;
  let s := with_alpha s (Alpha s (waveLength s)) in
  s <- calculateQ s ;;
  s <- addP fuel s ;;
  factor s.
End Assembly.

(* ================================================================== *)
(** * 7. [LU_solve] *)
(* ================================================================== *)

Section Solve.
Context {F : Type} {AF : Arith F}.
Local Open Scope arith_scope.

(** Modelled from the spec: [LU_solve] is declared in [lu.h] of the
    Template Numerical Toolkit, which is not part of the repository.  The
    spec (4.1) gives it as the paired solve routine: it "applies the same
    row permutation to a right-hand-side vector, performs forward
    substitution using the unit-lower factor, then back substitution
    using the upper factor, returning the solution vector in place", and
    (7) a zero pivot met during the solve is a failure. *)

(** The row permutation of the factorisation: rows [i] and [indx(i)]
    exchanged, for [i = 1 .. n] in that order. *)
Definition LU_solve_permute (indx : Vector Z) (b : Vector F) : Vector F :=
  for_Z 1 (dim b)
    (fun i b =>
       let ip := vat1 indx i in
       let t := vat1 b i in
       let b := vset1 b i (vat1 b ip) in
       vset1 b ip t)
    b.

(** Forward substitution with the unit lower factor. *)
Definition LU_solve_forward (A : C_matrix F) (b : Vector F) : Vector F :=
  for_Z 1 (dim b)
    (fun i b =>
       let sum := for_Z 1 (i - 1)
                    (fun j sum => sum - at1 A i j * vat1 b j) (vat1 b i) in
       vset1 b i sum)
    b.

(** Back substitution with the upper factor, rows [i], [i - 1], ..., for
    [n] rows; a zero pivot returns 1. *)
Fixpoint LU_solve_back (n : nat) (i : Z) (A : C_matrix F) (b : Vector F)
  : Z * Vector F :=
  match n with
  | O => (0%Z, b)
  | S n' =>
      let sum := for_Z (i + 1)%Z (dim b)
                   (fun j sum => sum - at1 A i j * vat1 b j) (vat1 b i) in
      if at1 A i i =? fzero then (1%Z, b)
      else LU_solve_back n' (i - 1)%Z A (vset1 b i (sum / at1 A i i))
  end.

Definition LU_solve (A : C_matrix F) (indx : Vector Z) (b : Vector F)
  : Z * Vector F :=
  let b := LU_solve_permute indx b in
  let b := LU_solve_forward A b in
  LU_solve_back (Z.to_nat (dim b)) (dim b) A b.
End Solve.

(* ================================================================== *)
(** * 8. [BSpline]: the fitted spline *)
(* ================================================================== *)

Section Spline.
Context {F : Type} {AF : Arith F}.
Local Open Scope arith_scope.

(** [struct BSplineP] (lines 688-692) *)
Record BSplineP : Type := mkSplineP {
  spline : list F;
  A      : Vector F
}.

(** [class BSpline]: the [BSplineBase] it derives from, and [s]. *)
Record BSpline : Type := mkSpline {
  domain : BSplineBase F;
  s      : BSplineP
}.

(** The copy constructor of [BSplineBase] (lines 170-182).  [Copy] stores
    [NX] only when [bb.NX] is not zero; otherwise the member stays
    uninitialised, and the model keeps [bb.NX]. *)
Definition BSplineBase_copy (bb : BSplineBase F) : result (BSplineBase F) :=
  let fresh := mkBase 1 2 (NX bb) (xmin bb) (xmax bb) (waveLength bb)
                 (alpha bb) (DX bb) (M bb) (base bb) in
  d <- Copy (X (base bb)) (NX bb) (waveLength bb) (Reset fresh) ;;
  Ok (mkBase (K d) (BC d) (NX d) (xmin bb) (xmax bb) (waveLength d)
        (alpha bb) (DX bb) (M bb) (base bb)).

(** Lines 705-716 of the constructor: the vector [B]. *)
Definition BSpline_B (fuel : nat) (d : BSplineBase F) (y : list F)
  : result (Vector F) :=
  for_ZM 0 (M d)
    (fun m B =>
       sum <- for_ZM 0 (NX d - 1)
                (fun j sum =>
                   yj <- vec_at y j ;;
                   xj <- vec_at (X (base d)) j ;;
                   b <- Basis fuel d m xj ;;
                   Ok (sum + yj * b))
                fzero ;;
       Ok (mkVector (dim B)
             (fun k => if (k =? m)%Z then sum * DX d else elt B k)))
    (mkVector (M d + 1) (fun _ => fzero)).

(** [BSpline::BSpline] (lines 699-734) *)
Definition BSpline_new (fuel : nat) (bb : BSplineBase F) (y : list F)
  : result BSpline :=
  d <- BSplineBase_copy bb ;;
  B <- BSpline_B fuel d y ;;
  let '(ret, a) := LU_solve (LU (base d)) (index (base d)) B in
  if (ret =? 0)%Z then Ok (mkSpline d (mkSplineP [] a)) else Err Exited.

(** [BSplineBase::apply] (lines 297-303) *)
Definition apply (fuel : nat) (bb : BSplineBase F) (y : list F)
  : result BSpline :=
  BSpline_new fuel bb y.

(** [A[i]], checked against the dimension. *)
Definition vget (v : Vector F) (i : Z) : result F :=
  if (0 <=? i)%Z && (i <? dim v)%Z then Ok (elt v i) else Err OutOfRange.

(** [BSpline::coefficient] (lines 743-748) *)
Definition coefficient (sp : BSpline) (n : Z) : result F :=
  if (0 <=? n)%Z && (n <=? M (domain sp))%Z then vget (A (s sp)) n
  else Ok fzero.

(** [BSpline::evaluate] (lines 751-759) *)
Definition evaluate (fuel : nat) (sp : BSpline) (x : F) : result F :=
  for_ZM 0 (M (domain sp))
    (fun i y =>
       a <- vget (A (s sp)) i ;;
       b <- Basis fuel (domain sp) i x ;;
       Ok (y + a * b))
    fzero.

(** The weighted sum [A[0] * basis (0, x) + ... + A[M] * basis (M, x)],
    added from [i = 0] upward. *)
Definition weighted_sum (sp : BSpline) (x : F) : F :=
  fold_left
    (fun y i => y + elt (A (s sp)) i * Basis_val (domain sp) i x)
    (map Z.of_nat (seq 0 (Z.to_nat (M (domain sp) + 1)))) fzero.

(** [BSpline::curve] (lines 762-780): the array returned, the count
    stored through [nx], and the object after the call. *)
Definition curve (fuel : nat) (sp : BSpline) : result (list F * Z * BSpline) :=
  let d := domain sp in
  sp <- (if (Z.of_nat (length (spline (s sp))) =? 0)%Z
         then
           v <- for_ZM 0 (M d)
                  (fun n v =>
                     let x := xmin d + (fofZ n * DX d) in
                     e <- evaluate fuel sp x ;;
                     Ok (v ++ [e]))
                  (spline (s sp)) ;;
           Ok (mkSpline d (mkSplineP v (A (s sp))))
         else Ok sp) ;;
  Ok (spline (s sp), Z.of_nat (length (spline (s sp))), sp).
End Spline.

Arguments BSplineP : clear implicits.
Arguments BSpline : clear implicits.

(* ================================================================== *)
(** * 9. Concrete data for the instance [Qc_Arith] *)
(* ================================================================== *)


(** The sum of [f t] for [t] from [lo] to [hi], added in increasing
    [t]. *)
Definition sumZ (lo hi : Z) (f : Z -> Qc) : Qc :=
  for_Z lo hi (fun t acc => (acc + f t)%Qc) (Q2Qc 0).

(** The exchange of [a] and [b]. *)
Definition transpose (a b i : Z) : Z :=
  if i =? a then b else if i =? b then a else i.

(** The row of the original matrix that row [i] holds after the row
    exchanges of the first [k] columns, as [indx] records them. *)
Fixpoint row_source (indx : Vector Z) (k : nat) (i : Z) : Z :=
  match k with
  | O => i
  | S k' =>
      row_source indx k'
        (transpose (Z.of_nat k) (vat1 indx (Z.of_nat k)) i)
  end.

(** The factorisation after the first [k] columns.  [A0] is the matrix
    the factorisation started from, of order [n]; [A] is the matrix in
    place and [src] the row of [A0] that each row of [A] came from.  Row
    [i] of [A] holds the multipliers [L(i,t)], [t <= min (k, i - 1)], then
    the row [U(i,c)], [c >= i], when [i <= k], or else what is left of the
    row to eliminate, [c > k].  The product of the two factors, with the
    unit diagonal of [L], gives back the rows of [A0] in the order
    [src]. *)
Definition LU_partial (A0 : C_matrix Qc) (n k : Z) (A : C_matrix Qc)
  (src : Z -> Z) : Prop :=
  square_of A n /\
  (forall i, 1 <= i <= n -> 1 <= src i <= n) /\
  (forall r, 1 <= r <= n -> exists i, 1 <= i <= n /\ src i = r) /\
  (forall t, 1 <= t <= k -> at1 A t t <> Q2Qc 0) /\
  forall i c, 1 <= i <= n -> 1 <= c <= n ->
    at1 A0 (src i) c
    = (sumZ 1 (Z.min k (Z.min (i - 1) c)) (fun t => at1 A i t * at1 A t c)
       + (if Z.min i (k + 1) <=? c then at1 A i c else Q2Qc 0))%Qc.

(** A domain as [Setup] leaves it, on exact arithmetic: the boundary
    condition is one of the three of the table, the grid has at least
    four intervals ([Setup] chooses at least ten) of positive length, and
    the [NX] samples lie on the grid, between [xmin] and
    [xmin + M * DX]. *)
Definition valid_domain (s : BSplineBase Qc) : Prop :=
  0 <= BC s <= 2 /\
  4 <= M s /\
  0 <= NX s <= Z.of_nat (length (X (base s))) /\
  (Q2Qc 0 < DX s)%Qc /\
  forall x, In x (firstn (Z.to_nat (NX s)) (X (base s))) ->
            (xmin s <= x)%Qc /\ (x <= node s (M s))%Qc.



(** A matrix given by its rows. *)
Definition matrix_of_rows (m n : Z) (rows : list (list QArith_base.Q))
  : C_matrix Qc :=
  mkMatrix m n
    (fun r c => Q2Qc (nth (Z.to_nat c) (nth (Z.to_nat r) rows []) 0%Q)).

Definition example_matrix : C_matrix Qc :=
  matrix_of_rows 3 3 [ [ 0; 2; 1 ]; [ 4; 1; 0 ]; [ 0; 3; 5 ] ]%Q.

Definition example_index : Vector Z := mkVector 3 (fun _ => 0).

(** An object whose members are all zero, with [K] and [BC] as the
    constructors set them. *)
Definition zero_matrix : C_matrix Qc := mconst 0 0 (Q2Qc 0).

Definition blank : BSplineBase Qc :=
  mkBase 1 2 0 (Q2Qc 0) (Q2Qc 0) (Q2Qc 0) (Q2Qc 0) (Q2Qc 0) 0
    (mkBaseP zero_matrix zero_matrix (mkVector 0 (fun _ => 0)) [] []).

(** The samples [0, 1, ..., n - 1]. *)
Definition samples (n : nat) : list Qc :=
  map (fun k => Q2Qc (inject_Z (Z.of_nat k))) (seq 0 n).

(** [qinterior] of the disabled block (lines 434-437), for a concrete
    [qdelta]; and a concrete table for the subscripted [Beta]. *)
Definition example_qdelta (k : Z) : Qc :=
  Q2Qc (nth (Z.to_nat k)
          [ 15 # 10; - (28125 # 100000); - (450 # 1000); - (1875 # 100000) ]%Q
          0%Q).

Definition example_Beta_sub (k : Z) : Qc :=
  Q2Qc (nth (Z.to_nat k) [ 2; - (1) ]%Q 0%Q).

(** The object that [Setup] finds in [setDomain (x, nx, wl)]: [Reset],
    then [Copy]. *)
Definition loaded (x : list Qc) (wl : QArith_base.Q) (s : BSplineBase Qc)
  : BSplineBase Qc :=
  match Copy x (Z.of_nat (length x)) (Q2Qc wl) (Reset s) with
  | Ok s' => s'
  | Err _ => s
  end.

(** The domain that [Setup] leaves for the eleven samples 0, 1, ..., 10
    and the wavelength 4: ten intervals of length 1. *)
Definition example_domain : BSplineBase Qc :=
  match Setup 2 (loaded (samples 11) 4 blank) with
  | Ok (_, s) => s
  | Err _ => blank
  end.

(** The example domain after [Alpha], [calculateQ] and [addP], and after
    [factor]. *)
Definition example_assembled : BSplineBase Qc :=
  let s := with_alpha example_domain
             (Alpha example_domain (waveLength example_domain)) in
  match (s1 <- calculateQ example_qdelta example_Beta_sub s ;; addP 2 s1) with
  | Ok s2 => s2
  | Err _ => blank
  end.

Definition example_factored : BSplineBase Qc :=
  match factor example_assembled with
  | Ok s => s
  | Err _ => blank
  end.

(** Data for the example domain: the squares of the samples, and zeros. *)
Definition example_data : list Qc :=
  map (fun k => Q2Qc (inject_Z (Z.of_nat (k * k)))) (seq 0 11).

Definition zero_data (n : nat) : list Qc := repeat (Q2Qc 0) n.

(** A fitted spline on the example domain with the coefficients
    [A[i] = i]. *)
Definition example_spline : BSpline Qc :=
  mkSpline example_factored
    (mkSplineP [] (mkVector 11 (fun i => Q2Qc (inject_Z i)))).

(** [setDomain] called again on the factored example, with the two
    samples 0, 1 and the wavelength 5. *)
Definition example_refit : result (BSplineBase Qc) :=
  setDomain example_qdelta example_Beta_sub 2 [Q2Qc 0; Q2Qc 1] 2 (Q2Qc 5)
    example_factored.

(* ================================================================== *)
(** * 10. [nodes] *)
(* ================================================================== *)

Section Nodes.
Context {F : Type} {AF : Arith F}.
Local Open Scope arith_scope.

Definition with_Nodes (s : BSplineBase F) (v : list F) : BSplineBase F :=
  mkBase (K s) (BC s) (NX s) (xmin s) (xmax s) (waveLength s) (alpha s)
    (DX s) (M s)
    (mkBaseP (Q (base s)) (LU (base s)) (index (base s)) (X (base s)) v).

(** [BSplineBase::nodes] (lines 663-680): the array returned, the count
    stored through [nn], and the object after the call.  For [M < -1] the
    source calls [reserve] with a negative count before the loop; the
    model goes on to the assertion, which fails. *)
Definition nodes (s : BSplineBase F) : result (list F * Z * BSplineBase F) :=
  let s :=
    if (Z.of_nat (length (Nodes (base s))) =? 0)%Z
    then with_Nodes s
           (for_Z 0 (M s)
              (fun i v => v ++ [xmin s + (fofZ i * DX s)])
              (Nodes (base s)))
    else s in
  let nn := Z.of_nat (length (Nodes (base s))) in
  if (nn =? M s + 1)%Z then Ok (Nodes (base s), nn, s)
  else Err AssertFailed.
End Nodes.

(** An object that holds a node array from an earlier grid: one node
    stored, [M = 4], [DX = 1]; and [setDomain] called on it with the two
    samples 0, 1 and the wavelength 5. *)
Definition stale_domain : BSplineBase Qc :=
  mkBase 1 2 0 (Q2Qc 0) (Q2Qc 0) (Q2Qc 0) (Q2Qc 0) (Q2Qc 1) 4
    (mkBaseP zero_matrix zero_matrix (mkVector 0 (fun _ => 0)) []
       [Q2Qc 7]).

Definition stale_refit : result (BSplineBase Qc) :=
  setDomain example_qdelta example_Beta_sub 2 [Q2Qc 0; Q2Qc 1] 2 (Q2Qc 5)
    stale_domain.

(** The example domain with the coefficients [A[i] = i]. *)
Definition example_curve : BSpline Qc :=
  mkSpline example_domain
    (mkSplineP [] (mkVector 11 (fun i => Q2Qc (inject_Z i)))).

(* ================================================================== *)
(** * 9. Loops and arrays: basic facts *)
(* ================================================================== *)

Section LoopFacts.
Context {St : Type}.

Lemma iter_up_inv (P : Z -> St -> Prop) (body : Z -> St -> St) :
  forall (n : nat) (i : Z) (s : St),
    P i s ->
    (forall k t, i <= k < i + Z.of_nat n -> P k t -> P (k + 1) (body k t)) ->
    P (i + Z.of_nat n) (iter_up n i body s).
Proof.
  induction n as [|n IH]; intros i s H0 Hstep.
  - simpl. now replace (i + 0) with i by lia.
  - cbn [iter_up].
    replace (i + Z.of_nat (S n)) with ((i + 1) + Z.of_nat n) by lia.
    apply IH.
    + apply Hstep; [lia | exact H0].
    + intros k t Hk. apply Hstep. lia.
Qed.

Lemma for_Z_inv (P : Z -> St -> Prop) (lo hi : Z) (body : Z -> St -> St)
  (s : St) :
  lo <= hi + 1 ->
  P lo s ->
  (forall k t, lo <= k <= hi -> P k t -> P (k + 1) (body k t)) ->
  P (hi + 1) (for_Z lo hi body s).
Proof.
  intros Hle H0 Hstep. unfold for_Z.
  replace (hi + 1) with (lo + Z.of_nat (Z.to_nat (hi + 1 - lo))) at 1 by lia.
  apply iter_up_inv; [exact H0 |].
  intros k t Hk. apply Hstep. lia.
Qed.

Lemma for_Z_empty (lo hi : Z) (body : Z -> St -> St) (s : St) :
  hi < lo -> for_Z lo hi body s = s.
Proof.
  intros H. unfold for_Z.
  replace (Z.to_nat (hi + 1 - lo)) with O by lia. reflexivity.
Qed.

Lemma for_Z_first (lo hi : Z) (body : Z -> St -> St) (s : St) :
  lo <= hi -> for_Z lo hi body s = for_Z (lo + 1) hi body (body lo s).
Proof.
  intros H. unfold for_Z.
  replace (Z.to_nat (hi + 1 - lo)) with (S (Z.to_nat (hi + 1 - (lo + 1))))
    by lia.
  reflexivity.
Qed.

Lemma iter_up_last (body : Z -> St -> St) :
  forall (n : nat) (i : Z) (s : St),
    iter_up (S n) i body s
    = body (i + Z.of_nat n) (iter_up n i body s).
Proof.
  induction n as [|n IH]; intros i s.
  - simpl. now replace (i + 0) with i by lia.
  - change (iter_up (S (S n)) i body s)
      with (iter_up (S n) (i + 1) body (body i s)).
    rewrite IH. cbn [iter_up]. f_equal. lia.
Qed.

Lemma for_Z_last (lo hi : Z) (body : Z -> St -> St) (s : St) :
  lo <= hi -> for_Z lo hi body s = body hi (for_Z lo (hi - 1) body s).
Proof.
  intros H. unfold for_Z.
  replace (Z.to_nat (hi + 1 - lo)) with (S (Z.to_nat (hi - 1 + 1 - lo)))
    by lia.
  rewrite iter_up_last. f_equal. lia.
Qed.

Lemma iter_upM_inv (P : Z -> St -> Prop) (body : Z -> St -> result St) :
  forall (n : nat) (i : Z) (s : St),
    P i s ->
    (forall k t, i <= k < i + Z.of_nat n -> P k t ->
                 exists t', body k t = Ok t' /\ P (k + 1) t') ->
    exists s', iter_upM n i body s = Ok s' /\ P (i + Z.of_nat n) s'.
Proof.
  induction n as [|n IH]; intros i s H0 Hstep.
  - exists s. split; [reflexivity |]. now replace (i + Z.of_nat 0) with i by lia.
  - cbn [iter_upM].
    destruct (Hstep i s ltac:(lia) H0) as (t' & Hb & Ht').
    rewrite Hb. cbn [bind].
    replace (i + Z.of_nat (S n)) with ((i + 1) + Z.of_nat n) by lia.
    apply IH; [exact Ht' |].
    intros k t Hk. apply Hstep. lia.
Qed.

Lemma for_ZM_inv (P : Z -> St -> Prop) (lo hi : Z)
  (body : Z -> St -> result St) (s : St) :
  P lo s ->
  (forall k t, lo <= k <= hi -> P k t ->
               exists t', body k t = Ok t' /\ P (k + 1) t') ->
  exists s', for_ZM lo hi body s = Ok s' /\ P (Z.max lo (hi + 1)) s'.
Proof.
  intros H0 Hstep. unfold for_ZM.
  replace (Z.max lo (hi + 1)) with (lo + Z.of_nat (Z.to_nat (hi + 1 - lo)))
    by lia.
  apply iter_upM_inv; [exact H0 |].
  intros k t Hk. apply Hstep. lia.
Qed.

(** The invariant of a loop that is known to have returned. *)
Lemma iter_upM_Ok_inv (P : Z -> St -> Prop) (body : Z -> St -> result St) :
  forall (n : nat) (i : Z) (s s' : St),
    iter_upM n i body s = Ok s' ->
    P i s ->
    (forall k t t', i <= k < i + Z.of_nat n -> P k t -> body k t = Ok t' ->
                    P (k + 1) t') ->
    P (i + Z.of_nat n) s'.
Proof.
  induction n as [|n IH]; intros i s s' H H0 Hstep.
  - injection H as <-. now replace (i + Z.of_nat 0) with i by lia.
  - cbn [iter_upM] in H.
    destruct (body i s) as [t | e] eqn:Hb; cbn [bind] in H; [| discriminate].
    replace (i + Z.of_nat (S n)) with ((i + 1) + Z.of_nat n) by lia.
    apply (IH (i + 1) t s' H).
    + apply (Hstep i s t); [lia | exact H0 | exact Hb].
    + intros k u u' Hk. apply Hstep. lia.
Qed.

Lemma for_ZM_Ok_inv (P : Z -> St -> Prop) (lo hi : Z)
  (body : Z -> St -> result St) (s s' : St) :
  for_ZM lo hi body s = Ok s' ->
  P lo s ->
  (forall k t t', lo <= k <= hi -> P k t -> body k t = Ok t' -> P (k + 1) t') ->
  P (Z.max lo (hi + 1)) s'.
Proof.
  intros H H0 Hstep. unfold for_ZM in H.
  replace (Z.max lo (hi + 1)) with (lo + Z.of_nat (Z.to_nat (hi + 1 - lo)))
    by lia.
  apply (@iter_upM_Ok_inv P body _ lo s s' H H0).
  intros k t t' Hk. apply Hstep. lia.
Qed.

Lemma for_ZM_pres (P : St -> Prop) (lo hi : Z)
  (body : Z -> St -> result St) (s : St) :
  P s ->
  (forall k t, lo <= k <= hi -> P t -> exists t', body k t = Ok t' /\ P t') ->
  exists s', for_ZM lo hi body s = Ok s' /\ P s'.
Proof.
  intros H0 Hstep.
  destruct (@for_ZM_inv (fun _ t => P t) lo hi body s H0) as (s' & Hs' & HP).
  - intros k t Hk Ht. now apply Hstep.
  - now exists s'.
Qed.

Lemma for_ZM_empty (lo hi : Z) (body : Z -> St -> result St) (s : St) :
  hi < lo -> for_ZM lo hi body s = Ok s.
Proof.
  intros H. unfold for_ZM.
  replace (Z.to_nat (hi + 1 - lo)) with O by lia. reflexivity.
Qed.

Lemma iter_upM_ext (f g : Z -> St -> result St) :
  forall (n : nat) (i : Z) (s : St),
    (forall k t, i <= k < i + Z.of_nat n -> f k t = g k t) ->
    iter_upM n i f s = iter_upM n i g s.
Proof.
  induction n as [|n IH]; intros i s H; [reflexivity |].
  cbn [iter_upM]. rewrite (H i s) by lia.
  destruct (g i s) as [t|e]; cbn [bind]; [| reflexivity].
  apply IH. intros k u Hk. apply H. lia.
Qed.

Lemma for_ZM_ext (lo hi : Z) (f g : Z -> St -> result St) (s : St) :
  (forall k t, lo <= k <= hi -> f k t = g k t) ->
  for_ZM lo hi f s = for_ZM lo hi g s.
Proof.
  intros H. unfold for_ZM. apply iter_upM_ext.
  intros k t Hk. apply H. lia.
Qed.
End LoopFacts.

Lemma bind_Ok_inv {A B : Type} (c : result A) (k : A -> result B) (b : B) :
  bind c k = Ok b -> exists a, c = Ok a /\ k a = Ok b.
Proof.
  destruct c as [a|e]; cbn [bind]; intros H; [| discriminate].
  now exists a.
Qed.

Section ArrayFacts.
Context {T : Type}.

Lemma cell_set1 (A : C_matrix T) (i j : Z) (x : T) (r c : Z) :
  cell (set1 A i j x) r c
  = if (r =? i - 1) && (c =? j - 1) then x else cell A r c.
Proof. reflexivity. Qed.

Lemma at1_set1 (A : C_matrix T) (i j : Z) (x : T) (r c : Z) :
  at1 (set1 A i j x) r c
  = if (r =? i) && (c =? j) then x else at1 A r c.
Proof.
  unfold at1. rewrite cell_set1.
  destruct (Z.eqb_spec (r - 1) (i - 1)), (Z.eqb_spec r i); try lia;
    destruct (Z.eqb_spec (c - 1) (j - 1)), (Z.eqb_spec c j); try lia;
    reflexivity.
Qed.

Lemma vat1_vset1 (v : Vector T) (i : Z) (x : T) (k : Z) :
  vat1 (vset1 v i x) k = if k =? i then x else vat1 v k.
Proof.
  unfold vat1, vset1. cbn [elt].
  destruct (Z.eqb_spec (k - 1) (i - 1)), (Z.eqb_spec k i); try lia;
    reflexivity.
Qed.

Lemma mset_Ok (A : C_matrix T) (i j : Z) (x : T) :
  0 <= i < num_rows A -> 0 <= j < num_cols A ->
  mset A i j x
  = Ok (mkMatrix (num_rows A) (num_cols A)
          (fun r c => if (r =? i) && (c =? j) then x else cell A r c)).
Proof.
  intros Hi Hj. unfold mset, in_bounds.
  replace (0 <=? i) with true by (symmetry; apply Z.leb_le; lia).
  replace (i <? num_rows A) with true by (symmetry; apply Z.ltb_lt; lia).
  replace (0 <=? j) with true by (symmetry; apply Z.leb_le; lia).
  replace (j <? num_cols A) with true by (symmetry; apply Z.ltb_lt; lia).
  reflexivity.
Qed.

Lemma mget_Ok (A : C_matrix T) (i j : Z) :
  0 <= i < num_rows A -> 0 <= j < num_cols A ->
  mget A i j = Ok (cell A i j).
Proof.
  intros Hi Hj. unfold mget, in_bounds.
  replace (0 <=? i) with true by (symmetry; apply Z.leb_le; lia).
  replace (i <? num_rows A) with true by (symmetry; apply Z.ltb_lt; lia).
  replace (0 <=? j) with true by (symmetry; apply Z.leb_le; lia).
  replace (j <? num_cols A) with true by (symmetry; apply Z.ltb_lt; lia).
  reflexivity.
Qed.
End ArrayFacts.

(* ================================================================== *)
(** * 10. [LU_factor_banded]: pivot search, row exchange, failure *)
(* ================================================================== *)

Section LoopPreserve.
Context {St : Type}.

Lemma iter_up_pres (P : St -> Prop) (body : Z -> St -> St) :
  (forall k t, P t -> P (body k t)) ->
  forall (n : nat) (i : Z) (s : St), P s -> P (iter_up n i body s).
Proof.
  intros Hb. induction n as [|n IH]; intros i s Hs; [exact Hs |].
  cbn [iter_up]. apply IH, Hb, Hs.
Qed.

Lemma for_Z_pres (P : St -> Prop) (lo hi : Z) (body : Z -> St -> St)
  (s : St) :
  (forall k t, P t -> P (body k t)) -> P s -> P (for_Z lo hi body s).
Proof. intros Hb Hs. unfold for_Z. now apply iter_up_pres. Qed.
End LoopPreserve.

Ltac bool_cases :=
  repeat match goal with
    | |- context [Z.eqb ?a ?b] => destruct (Z.eqb_spec a b)
    | |- context [Z.ltb ?a ?b] => destruct (Z.ltb_spec a b)
    | |- context [Z.leb ?a ?b] => destruct (Z.leb_spec a b)
    end;
  cbn [andb orb negb].

Section LUFacts.
Context {F : Type} {AF : Arith F}.

Lemma swap_rows_dims (A : C_matrix F) (j jp : Z) :
  same_dims A (swap_rows A j jp).
Proof.
  unfold swap_rows. apply for_Z_pres; [| split; reflexivity].
  intros k t [Hr Hc]. split; assumption.
Qed.

Lemma scale_column_dims (A : C_matrix F) (j : Z) :
  same_dims A (scale_column A j).
Proof.
  unfold scale_column. apply for_Z_pres; [| split; reflexivity].
  intros k t [Hr Hc]. split; assumption.
Qed.

Lemma rank1_update_dims (A : C_matrix F) (j : Z) :
  same_dims A (rank1_update A j).
Proof.
  unfold rank1_update. apply for_Z_pres; [| split; reflexivity].
  intros k t Ht. apply for_Z_pres; [| exact Ht].
  intros k' t' [Hr Hc]. split; assumption.
Qed.

Lemma eliminate_dims (A : C_matrix F) (j jp : Z) :
  same_dims A (eliminate A j jp).
Proof.
  unfold eliminate, same_dims.
  destruct (swap_rows_dims A j jp) as [Hr1 Hc1].
  set (A1 := if jp =? j then A else swap_rows A j jp).
  assert (H1 : same_dims A A1)
    by (subst A1; destruct (jp =? j); [split; reflexivity | now split]).
  set (A2 := if j <? num_rows A then scale_column A1 j else A1).
  assert (H2 : same_dims A A2).
  { subst A2. destruct (j <? num_rows A); [| exact H1].
    destruct (scale_column_dims A1 j), H1. split; congruence. }
  destruct (j <? Z.min (num_rows A) (num_cols A)); [| exact H2].
  destruct (rank1_update_dims A2 j), H2. split; congruence.
Qed.

(** The row exchange of lines 83-89, cell by cell. *)
Lemma swap_rows_cell (A : C_matrix F) (j jp : Z) (r c : Z) :
  cell (swap_rows A j jp) r c
  = if (0 <=? c) && (c <? num_cols A)
    then if r =? j - 1 then cell A (jp - 1) c
         else if r =? jp - 1 then cell A (j - 1) c
         else cell A r c
    else cell A r c.
Proof.
  destruct (Z_lt_le_dec (num_cols A) 0) as [Hneg | Hpos].
  { unfold swap_rows. rewrite for_Z_empty by lia.
    bool_cases; try reflexivity; lia. }
  revert r c.
  pose (P := fun (k : Z) (B : C_matrix F) =>
    forall r c,
      cell B r c
      = if (0 <=? c) && (c <? k - 1)
        then if r =? j - 1 then cell A (jp - 1) c
             else if r =? jp - 1 then cell A (j - 1) c
             else cell A r c
        else cell A r c).
  assert (H : P (num_cols A + 1) (swap_rows A j jp)).
  { unfold swap_rows. apply for_Z_inv; [lia | |].
    - intros r c. bool_cases; try reflexivity; lia.
    - intros k B Hk HB r c. unfold swap_step.
      rewrite !cell_set1. unfold at1. rewrite !HB.
      bool_cases; try reflexivity; try lia; congruence. }
  intros r c. rewrite (H r c).
  replace (num_cols A + 1 - 1) with (num_cols A) by lia. reflexivity.
Qed.

Lemma swap_rows_at1 (A : C_matrix F) (j jp : Z) (r k : Z) :
  1 <= k <= num_cols A ->
  at1 (swap_rows A j jp) r k
  = if r =? j then at1 A jp k
    else if r =? jp then at1 A j k
    else at1 A r k.
Proof.
  intros Hk. unfold at1. rewrite swap_rows_cell.
  bool_cases; try reflexivity; lia.
Qed.

Section Ordered.
(** The two laws of [<] that the pivot search relies on; they hold for
    an order without unordered values. *)
Hypothesis fltb_irrefl : forall a : F, fltb a a = false.
Hypothesis fltb_le_lt :
  forall a b c : F, fltb b a = false -> fltb b c = true -> fltb c a = false.

End Ordered.





End LUFacts.

Lemma Qc_ltb_lt (a b : Qc) : Qc_ltb a b = true <-> (a < b)%Qc.
Proof.
  unfold Qc_ltb. rewrite Qclt_alt.
  destruct (a ?= b)%Qc; split; intro H; try reflexivity; discriminate.
Qed.

Lemma Qc_ltb_ge (a b : Qc) : Qc_ltb a b = false <-> (b <= a)%Qc.
Proof.
  rewrite <- Bool.not_true_iff_false, Qc_ltb_lt. split.
  - apply Qcnot_lt_le.
  - apply Qcle_not_lt.
Qed.

Lemma Qc_leb_le (a b : Qc) : Qc_leb a b = true <-> (a <= b)%Qc.
Proof.
  unfold Qc_leb. rewrite Qcle_alt.
  destruct (a ?= b)%Qc; split; intro H; try reflexivity; try discriminate.
  now elim H.
Qed.



Section PivotingClaim.
Context {F : Type} {AF : Arith F}.
Hypothesis fltb_irrefl : forall a : F, fltb a a = false.
Hypothesis fltb_le_lt :
  forall a b c : F, fltb b a = false -> fltb b c = true -> fltb c a = false.

End PivotingClaim.


(* ================================================================== *)
(** * 11. [Setup]: the grid search *)
(* ================================================================== *)

Section SetupFacts.
Context {F : Type} {AF : Arith F}.
Implicit Types s : BSplineBase F.

Lemma Ratio_parts s ni :
  Ratio s ni
  = (Ratio_ok s ni, Ratio_deltax s ni, Ratio_ratiof s ni, Ratio_ratiod s ni).
Proof. reflexivity. Qed.

(** One turn of the first loop. *)
Lemma Setup_grow_unfold fuel s n0 :
  Setup_grow (S fuel) s n0
  = if negb (Ratio_ok s (n0 + 1)) then Ok None
    else if fltb fmin (Ratio_ratiof s (n0 + 1))
         then Setup_grow fuel s (n0 + 1)
         else Ok (Some (n0 + 1, Ratio_deltax s (n0 + 1),
                        Ratio_ratiof s (n0 + 1))).
Proof. reflexivity. Qed.

(** One turn of the second loop. *)
Lemma Setup_tweak_unfold fuel s n0 :
  Setup_tweak (S fuel) s n0
  = if tweak_backs_off s (n0 + 1)
    then Ok (n0 + 1 - 1, Ratio_deltax s (n0 + 1 - 1),
             Ratio_ratiof s (n0 + 1 - 1))
    else if tweak_goes_on s (n0 + 1)
         then Setup_tweak fuel s (n0 + 1)
         else Ok (n0 + 1, Ratio_deltax s (n0 + 1), Ratio_ratiof s (n0 + 1)).
Proof. reflexivity. Qed.

Lemma Setup_grow_sound :
  forall fuel s n0 n1 dx rf,
    Setup_grow fuel s n0 = Ok (Some (n1, dx, rf)) ->
    grows_to s n0 n1 /\ dx = Ratio_deltax s n1 /\ rf = Ratio_ratiof s n1.
Proof.
  induction fuel as [|fuel IH]; intros s n0 n1 dx rf H; [discriminate |].
  rewrite Setup_grow_unfold in H.
  destruct (Ratio_ok s (n0 + 1)) eqn:Hok; cbn [negb] in H; [| discriminate].
  destruct (fltb fmin (Ratio_ratiof s (n0 + 1))) eqn:Hrf.
  - destruct (IH _ _ _ _ _ H) as ((Hlt & Hbefore & Hlast) & Hdx & Hr).
    split; [| now split].
    split; [lia |]. split; [| exact Hlast].
    intros k Hk. destruct (Z.eq_dec k (n0 + 1)) as [-> | Hne].
    + now split.
    + apply Hbefore. lia.
  - injection H as <- <- <-.
    split; [| now split].
    split; [lia |]. split; [intros k Hk; lia | now split].
Qed.

Lemma Setup_grow_sound_fail :
  forall fuel s n0,
    Setup_grow fuel s n0 = Ok None -> grow_fails s n0.
Proof.
  induction fuel as [|fuel IH]; intros s n0 H; [discriminate |].
  rewrite Setup_grow_unfold in H.
  destruct (Ratio_ok s (n0 + 1)) eqn:Hok; cbn [negb] in H.
  - destruct (fltb fmin (Ratio_ratiof s (n0 + 1))) eqn:Hrf; [| discriminate].
    destruct (IH _ _ H) as (n1 & Hlt & Hbefore & Hlast).
    exists n1. split; [lia |]. split; [| exact Hlast].
    intros k Hk. destruct (Z.eq_dec k (n0 + 1)) as [-> | Hne].
    + now split.
    + apply Hbefore. lia.
  - exists (n0 + 1). split; [lia |]. split; [intros k Hk; lia | exact Hok].
Qed.

Lemma Setup_grow_complete s :
  forall (d : nat) n0 n1,
    n1 = n0 + 1 + Z.of_nat d ->
    grows_to s n0 n1 ->
    forall fuel, (d < fuel)%nat ->
      Setup_grow fuel s n0
      = Ok (Some (n1, Ratio_deltax s n1, Ratio_ratiof s n1)).
Proof.
  induction d as [|d IH]; intros n0 n1 Hn1 (Hlt & Hbefore & Hok & Hrf)
    fuel Hfuel;
    (destruct fuel as [|fuel]; [lia |]); rewrite Setup_grow_unfold.
  - replace (n0 + 1) with n1 by lia. now rewrite Hok, Hrf.
  - destruct (Hbefore (n0 + 1) ltac:(lia)) as [Hok1 Hrf1].
    rewrite Hok1, Hrf1. cbn [negb].
    apply IH; [lia | | lia].
    split; [lia |]. split; [| now split].
    intros k Hk. apply Hbefore. lia.
Qed.

Lemma Setup_grow_complete_fail s :
  forall (d : nat) n0 n1,
    n1 = n0 + 1 + Z.of_nat d ->
    (forall k, n0 < k < n1 ->
               Ratio_ok s k = true /\ fltb fmin (Ratio_ratiof s k) = true) ->
    Ratio_ok s n1 = false ->
    forall fuel, (d < fuel)%nat -> Setup_grow fuel s n0 = Ok None.
Proof.
  induction d as [|d IH]; intros n0 n1 Hn1 Hbefore Hok fuel Hfuel;
    (destruct fuel as [|fuel]; [lia |]); rewrite Setup_grow_unfold.
  - replace (n0 + 1) with n1 by lia. now rewrite Hok.
  - destruct (Hbefore (n0 + 1) ltac:(lia)) as [Hok1 Hrf1].
    rewrite Hok1, Hrf1. cbn [negb].
    apply (IH (n0 + 1) n1); [lia | | exact Hok | lia].
    intros k Hk. apply Hbefore. lia.
Qed.

Lemma Setup_tweak_sound :
  forall fuel s n1 m dx rf,
    Setup_tweak fuel s n1 = Ok (m, dx, rf) ->
    tweaks_to s n1 m /\ dx = Ratio_deltax s m /\ rf = Ratio_ratiof s m.
Proof.
  induction fuel as [|fuel IH]; intros s n1 m dx rf H; [discriminate |].
  rewrite Setup_tweak_unfold in H.
  destruct (tweak_backs_off s (n1 + 1)) eqn:Hoff.
  - injection H as <- <- <-. split; [| now split].
    exists (n1 + 1). split; [lia |]. split; [intros k Hk; lia |].
    left. now split.
  - destruct (tweak_goes_on s (n1 + 1)) eqn:Hon.
    + destruct (IH _ _ _ _ _ H) as ((n2 & Hlt & Hbefore & Hlast) & Hdx & Hr).
      split; [| now split].
      exists n2. split; [lia |]. split; [| exact Hlast].
      intros k Hk. destruct (Z.eq_dec k (n1 + 1)) as [-> | Hne].
      * now split.
      * apply Hbefore. lia.
    + injection H as <- <- <-. split; [| now split].
      exists (n1 + 1). split; [lia |]. split; [intros k Hk; lia |].
      right. now repeat split.
Qed.

Lemma Setup_tweak_complete s :
  forall (d : nat) n1 n2 m,
    n2 = n1 + 1 + Z.of_nat d ->
    (forall k, n1 < k < n2 ->
               tweak_backs_off s k = false /\ tweak_goes_on s k = true) ->
    (tweak_backs_off s n2 = true /\ m = n2 - 1 \/
     tweak_backs_off s n2 = false /\ tweak_goes_on s n2 = false /\ m = n2) ->
    forall fuel, (d < fuel)%nat ->
      Setup_tweak fuel s n1
      = Ok (m, Ratio_deltax s m, Ratio_ratiof s m).
Proof.
  induction d as [|d IH]; intros n1 n2 m Hn2 Hbefore Hlast fuel Hfuel;
    (destruct fuel as [|fuel]; [lia |]); rewrite Setup_tweak_unfold.
  - replace (n1 + 1) with n2 by lia.
    destruct Hlast as [[Hoff ->] | (Hoff & Hon & ->)].
    + now rewrite Hoff.
    + now rewrite Hoff, Hon.
  - destruct (Hbefore (n1 + 1) ltac:(lia)) as [Hoff Hon].
    rewrite Hoff, Hon.
    apply (IH (n1 + 1) n2); [lia | | exact Hlast | lia].
    intros k Hk. apply Hbefore. lia.
Qed.

Lemma tweaks_to_lower s n1 m : tweaks_to s n1 m -> n1 <= m.
Proof. intros (n2 & Hlt & _ & [[_ ->] | (_ & _ & ->)]); lia. Qed.

(** [Setup], once the bounds are known. *)
Lemma Setup_unfold fuel s lo hi :
  Setup_bounds s = Ok (lo, hi) ->
  Setup fuel s
  = let s0 := with_bounds s lo hi in
    if fltb (fsub hi lo) (waveLength s) then Ok (0, s0)
    else
      g <- Setup_grow fuel s0 9 ;;
      match g with
      | None => Ok (0, s0)
      | Some (ni, _, _) =>
          '(ni, deltax, _) <- Setup_tweak fuel s0 ni ;;
          Ok (1, with_grid s0 ni deltax)
      end.
Proof. intros H. unfold Setup. rewrite H. reflexivity. Qed.

(** What a call of [Setup] that returns has done. *)
Lemma Setup_inv fuel s ret s' :
  Setup fuel s = Ok (ret, s') ->
  exists lo hi,
    Setup_bounds s = Ok (lo, hi) /\
    let s0 := with_bounds s lo hi in
    (ret = 0 /\ s' = s0 /\
     (fltb (fsub hi lo) (waveLength s) = true \/
      fltb (fsub hi lo) (waveLength s) = false /\ grow_fails s0 9))
    \/
    (ret = 1 /\ fltb (fsub hi lo) (waveLength s) = false /\
     exists n1 m, grows_to s0 9 n1 /\ tweaks_to s0 n1 m /\
                  s' = with_grid s0 m (Ratio_deltax s0 m)).
Proof.
  intros H. destruct (Setup_bounds s) as [[lo hi] | e] eqn:Hb.
  2:{ unfold Setup in H. rewrite Hb in H. discriminate. }
  exists lo, hi. split; [reflexivity |].
  rewrite (Setup_unfold fuel s Hb) in H. cbn zeta in *.
  destruct (fltb (fsub hi lo) (waveLength s)) eqn:Hwl.
  - injection H as <- <-. left.
    split; [reflexivity |]. split; [reflexivity |]. now left.
  - destruct (Setup_grow fuel (with_bounds s lo hi) 9)
      as [[[[n1 dx] rf] |] | e] eqn:Hg; cbn [bind] in H; try discriminate.
    + destruct (Setup_tweak fuel (with_bounds s lo hi) n1)
        as [[[m dx'] rf'] | e] eqn:Ht; cbn [bind] in H; try discriminate.
      injection H as <- <-. right.
      destruct (Setup_grow_sound _ _ _ Hg) as (Hgrow & _ & _).
      destruct (Setup_tweak_sound _ _ _ Ht) as (Htw & -> & _).
      split; [reflexivity |]. split; [reflexivity |].
      exists n1, m. split; [exact Hgrow |]. split; [exact Htw | reflexivity].
    + injection H as <- <-. left.
      split; [reflexivity |]. split; [reflexivity |]. right.
      split; [reflexivity |]. eapply Setup_grow_sound_fail; eassumption.
Qed.
End SetupFacts.

Section GridSizeClaim.
Context {F : Type} {AF : Arith F}.

(** C10.  When [Setup] returns nonzero, the number of node intervals it
    has stored is at least 10: the first loop leaves with a count [n1]
    of at least 10, since it starts from 9 and increments before it
    calls [Ratio], and the second loop leaves with a count that is not
    below [n1]. *)
Theorem Setup_success_at_least_10
  (fuel : nat) (s : BSplineBase F) (ret : Z) (s' : BSplineBase F) :
  Setup fuel s = Ok (ret, s') ->
  ret <> 0 ->
  10 <= M s' /\
  exists lo hi n1,
    Setup_bounds s = Ok (lo, hi) /\
    grows_to (with_bounds s lo hi) 9 n1 /\
    tweaks_to (with_bounds s lo hi) n1 (M s') /\
    10 <= n1 <= M s'.
Proof.
  intros H Hret.
  destruct (Setup_inv _ _ H) as (lo & hi & Hb & [(H0 & _) | (_ & _ & Hrun)]);
    [contradiction |].
  destruct Hrun as (n1 & m & Hgrow & Htw & ->). cbn [M with_grid].
  pose proof (tweaks_to_lower Htw) as Hm.
  assert (Hn1 : 9 < n1) by apply Hgrow.
  split; [lia |].
  exists lo, hi, n1.
  split; [exact Hb |]. split; [exact Hgrow |]. split; [exact Htw | lia].
Qed.
End GridSizeClaim.

Lemma Setup_success_at_least_10_witness :
  exists s', Setup 2 (loaded (samples 11) 4 blank) = Ok (1, s') /\
             1 <> 0 /\ 10 <= M s'.
Proof.
  eexists. split; [lazy; reflexivity |].
  split; [discriminate |].
  eapply (@Setup_success_at_least_10 Qc Qc_Arith 2
            (loaded (samples 11) 4 blank) 1);
    [lazy; reflexivity | discriminate].
Defined.

Section SetupDeterminism.
Context {F : Type} {AF : Arith F}.
Implicit Types s : BSplineBase F.

Lemma Setup_grow_fuel :
  forall fuel s n0 r,
    Setup_grow fuel s n0 = Ok r ->
    forall fuel', (fuel <= fuel')%nat -> Setup_grow fuel' s n0 = Ok r.
Proof.
  induction fuel as [|fuel IH]; intros s n0 r H fuel' Hle; [discriminate |].
  destruct fuel' as [|fuel']; [lia |].
  rewrite Setup_grow_unfold in *.
  destruct (negb (Ratio_ok s (n0 + 1))); [exact H |].
  destruct (fltb fmin (Ratio_ratiof s (n0 + 1))); [| exact H].
  apply IH with (fuel' := fuel') in H; [exact H | lia].
Qed.

Lemma Setup_tweak_fuel :
  forall fuel s n0 r,
    Setup_tweak fuel s n0 = Ok r ->
    forall fuel', (fuel <= fuel')%nat -> Setup_tweak fuel' s n0 = Ok r.
Proof.
  induction fuel as [|fuel IH]; intros s n0 r H fuel' Hle; [discriminate |].
  destruct fuel' as [|fuel']; [lia |].
  rewrite Setup_tweak_unfold in *.
  destruct (tweak_backs_off s (n0 + 1)); [exact H |].
  destruct (tweak_goes_on s (n0 + 1)); [| exact H].
  apply IH with (fuel' := fuel') in H; [exact H | lia].
Qed.

(** More fuel does not change what [Setup] returns. *)
Lemma Setup_fuel fuel s r :
  Setup fuel s = Ok r ->
  forall fuel', (fuel <= fuel')%nat -> Setup fuel' s = Ok r.
Proof.
  intros H fuel' Hle. unfold Setup in *.
  destruct (Setup_bounds s) as [[lo hi] | e]; cbn [bind] in *; [| discriminate].
  destruct (fltb _ _); [exact H |].
  destruct (Setup_grow fuel (with_bounds s lo hi) 9) as [g | e] eqn:Hg;
    cbn [bind] in H; [| discriminate].
  rewrite (Setup_grow_fuel _ _ Hg Hle). cbn [bind].
  destruct g as [[[n1 dx] rf] |]; [| exact H].
  destruct (Setup_tweak fuel (with_bounds s lo hi) n1) as [t | e] eqn:Ht;
    cbn [bind] in H; [| discriminate].
  rewrite (Setup_tweak_fuel _ _ Ht Hle). exact H.
Qed.

Lemma Setup_grow_ext s1 s2 :
  (forall k, Ratio s1 k = Ratio s2 k) ->
  forall fuel n0, Setup_grow fuel s1 n0 = Setup_grow fuel s2 n0.
Proof.
  intros HR. induction fuel as [|fuel IH]; intros n0; [reflexivity |].
  cbn [Setup_grow]. rewrite HR, IH. reflexivity.
Qed.

Lemma Setup_tweak_ext s1 s2 :
  (forall k, Ratio s1 k = Ratio s2 k) ->
  forall fuel n0, Setup_tweak fuel s1 n0 = Setup_tweak fuel s2 n0.
Proof.
  intros HR. induction fuel as [|fuel IH]; intros n0; [reflexivity |].
  cbn [Setup_tweak]. rewrite !HR, IH. reflexivity.
Qed.

Lemma Setup_bounds_ext s1 s2 :
  same_input s1 s2 -> Setup_bounds s1 = Setup_bounds s2.
Proof.
  intros (HX & HN & _). unfold Setup_bounds. now rewrite HX, HN.
Qed.

Lemma Ratio_ext s1 s2 lo hi :
  same_input s1 s2 ->
  forall k, Ratio (with_bounds s1 lo hi) k = Ratio (with_bounds s2 lo hi) k.
Proof.
  intros (_ & HN & Hwl) k. unfold Ratio. cbn [with_bounds xmax xmin NX waveLength].
  now rewrite HN, Hwl.
Qed.

(** [Setup] reads the samples and the wavelength only: on two objects that
    agree on them it returns the same value and, when nonzero, stores the
    same grid. *)
Lemma Setup_same_input fuel s1 s2 r1 s1' r2 s2' :
  same_input s1 s2 ->
  Setup fuel s1 = Ok (r1, s1') ->
  Setup fuel s2 = Ok (r2, s2') ->
  r1 = r2 /\ xmin s1' = xmin s2' /\ xmax s1' = xmax s2' /\
  (r1 <> 0 -> M s1' = M s2' /\ DX s1' = DX s2').
Proof.
  intros Hin H1 H2. unfold Setup in H1, H2.
  rewrite <- (Setup_bounds_ext Hin) in H2.
  destruct (Setup_bounds s1) as [[lo hi] | e]; cbn [bind] in *; [| discriminate].
  cbn [with_bounds waveLength xmax xmin] in H1, H2.
  assert (Hwl : waveLength s1 = waveLength s2) by apply Hin.
  rewrite <- Hwl in H2.
  destruct (fltb (fsub hi lo) (waveLength s1)).
  { injection H1 as <- <-. injection H2 as <- <-.
    do 3 (split; [reflexivity |]). intros Hne; contradiction. }
  rewrite <- (Setup_grow_ext (Ratio_ext lo hi Hin)) in H2.
  destruct (Setup_grow fuel (with_bounds s1 lo hi) 9) as [g | e];
    cbn [bind] in *; [| discriminate].
  destruct g as [[[n1 dx] rf] |].
  2:{ injection H1 as <- <-. injection H2 as <- <-.
      do 3 (split; [reflexivity |]). intros Hne; contradiction. }
  rewrite <- (Setup_tweak_ext (Ratio_ext lo hi Hin)) in H2.
  destruct (Setup_tweak fuel (with_bounds s1 lo hi) n1) as [[[m dx'] rf'] | e];
    cbn [bind] in *; [| discriminate].
  injection H1 as <- <-. injection H2 as <- <-.
  do 3 (split; [reflexivity |]). intros _. split; reflexivity.
Qed.
End SetupDeterminism.

Section StepSequenceClaim.
Context {F : Type} {AF : Arith F}.

(** The step sequence of [Setup], as the code runs it.  With the bounds
    [lo], [hi] of the samples stored, it returns 0 when the wavelength
    exceeds [hi - lo]; otherwise the candidate count starts from 9 and is
    incremented before each call of [Ratio]; the first loop goes on while
    [ratiof > fmin] and returns 0 at the first candidate that fails
    [Ratio]; the second loop goes on while [ratiof < 4] or [ratiod > 2.0]
    holds and backs off one step at the first candidate that fails
    [Ratio] or has [ratiof > 15.0].  These are all the ways in which
    [Setup] returns.  What it returns depends on the samples and the
    wavelength only: two runs on objects that agree on them return the
    same value and, when it is nonzero, store the same [M] and [DX]. *)
Theorem Setup_step_sequence (s : BSplineBase F) (lo hi : F) :
  Setup_bounds s = Ok (lo, hi) ->
  let s0 := with_bounds s lo hi in
  (forall ret s',
      (exists fuel, Setup fuel s = Ok (ret, s')) <->
      (ret = 0 /\ s' = s0 /\
       (fltb (fsub hi lo) (waveLength s) = true \/
        fltb (fsub hi lo) (waveLength s) = false /\ grow_fails s0 9))
      \/
      (ret = 1 /\ fltb (fsub hi lo) (waveLength s) = false /\
       exists n1 m, grows_to s0 9 n1 /\ tweaks_to s0 n1 m /\
                    s' = with_grid s0 m (Ratio_deltax s0 m))) /\
  (forall s2 fuel fuel2 r1 s1' r2 s2',
      same_input s s2 ->
      Setup fuel s = Ok (r1, s1') ->
      Setup fuel2 s2 = Ok (r2, s2') ->
      r1 = r2 /\ (r1 <> 0 -> M s1' = M s2' /\ DX s1' = DX s2')).
Proof.
  intros Hb s0. split.
  - intros ret s'. split.
    + intros [fuel H]. destruct (Setup_inv _ _ H) as (lo' & hi' & Hb' & Hcases).
      rewrite Hb in Hb'. injection Hb' as <- <-. exact Hcases.
    + intros [(-> & -> & [Hwl | [Hwl Hfail]]) | (-> & Hwl & n1 & m & Hg & Ht & ->)].
      * exists O. rewrite (Setup_unfold O s Hb). cbn zeta. now rewrite Hwl.
      * destruct Hfail as (n1 & Hlt & Hbefore & Hok).
        exists (S (Z.to_nat (n1 - 10))).
        rewrite (Setup_unfold _ s Hb). cbn zeta. rewrite Hwl.
        rewrite (Setup_grow_complete_fail s0 (d := Z.to_nat (n1 - 10))
                   (n0 := 9) (n1 := n1)); [reflexivity | lia | | | lia];
          assumption.
      * pose proof Hg as (Hlt & _).
        destruct Ht as (n2 & Hlt2 & Hbefore2 & Hlast2).
        exists (S (Z.to_nat (n1 - 10) + Z.to_nat (n2 - n1 - 1))).
        rewrite (Setup_unfold _ s Hb). cbn zeta. rewrite Hwl.
        rewrite (Setup_grow_complete (s := s0) (d := Z.to_nat (n1 - 10))
                   (n0 := 9) (n1 := n1)); [| lia | exact Hg | lia].
        cbn [bind].
        rewrite (Setup_tweak_complete s0 (d := Z.to_nat (n2 - n1 - 1))
                   (n1 := n1) (n2 := n2) (m := m));
          [reflexivity | lia | assumption | assumption | lia].
  - intros s2 fuel fuel2 r1 s1' r2 s2' Hin H1 H2.
    apply Setup_fuel with (fuel' := Nat.max fuel fuel2) in H1; [| lia].
    apply Setup_fuel with (fuel' := Nat.max fuel fuel2) in H2; [| lia].
    destruct (Setup_same_input _ Hin H1 H2) as (Hr & _ & _ & Hgrid).
    split; assumption.
Qed.
End StepSequenceClaim.

(** On the 30 samples 0, 1, ..., 29 with wavelength 4 [Setup] stores
    [M = 29], the step sequence as the spec words it [M = 16]. *)
Lemma Setup_differs_from_claimed_sequence :
  exists s1 s2,
    Setup 40 (loaded (samples 30) 4 blank) = Ok (1, s1) /\
    Setup_as_claimed 40 (loaded (samples 30) 4 blank) = Ok (1, s2) /\
    M s1 = 29 /\ M s2 = 16.
Proof.
  eexists. eexists.
  split; [vm_compute; reflexivity |].
  split; [vm_compute; reflexivity |].
  split; reflexivity.
Qed.

Lemma Setup_step_sequence_witness :
  exists s1,
    Setup_bounds (loaded (samples 30) 4 blank) = Ok (Q2Qc 0, Q2Qc 29) /\
    Setup 40 (loaded (samples 30) 4 blank) = Ok (1, s1) /\
    forall fuel r2 s2,
      Setup fuel (loaded (samples 30) 4 blank) = Ok (r2, s2) ->
      r2 = 1 /\ M s2 = M s1.
Proof.
  assert (Hb : Setup_bounds (loaded (samples 30) 4 blank)
               = Ok (Q2Qc 0, Q2Qc 29)) by (vm_compute; reflexivity).
  destruct (@Setup_step_sequence Qc Qc_Arith (loaded (samples 30) 4 blank)
              (Q2Qc 0) (Q2Qc 29) Hb) as [_ Hdet].
  eexists.
  split; [exact Hb |].
  split; [vm_compute; reflexivity |].
  intros fuel r2 s2 H2.
  assert (H1 : exists s1', Setup 40 (loaded (samples 30) 4 blank) = Ok (1, s1')
                           /\ M s1' = 29)
    by (eexists; split; [vm_compute; reflexivity | reflexivity]).
  destruct H1 as (s1' & H1 & HM).
  destruct (Hdet (loaded (samples 30) 4 blank) 40%nat fuel 1 s1' r2 s2
              ltac:(repeat split) H1 H2) as [Hr Hgrid].
  split; [now symmetry |].
  destruct (Hgrid ltac:(discriminate)) as [HM' _].
  rewrite <- HM', HM. reflexivity.
Defined.

(* ================================================================== *)
(** * 12. [Beta] and [Basis] *)
(* ================================================================== *)

Section BasisFacts.
Context {F : Type} {AF : Arith F}.
Implicit Types s : BSplineBase F.

Lemma Beta_interior s m : 1 < m < M s - 1 -> Beta s m = Ok fzero.
Proof.
  intros H. unfold Beta.
  replace (m >? 1) with true by (symmetry; apply Z.gtb_lt; lia).
  replace (m <? M s - 1) with true by (symmetry; apply Z.ltb_lt; lia).
  reflexivity.
Qed.

Lemma vec_at_Ok {T : Type} (v : list T) (i : Z) :
  0 <= i < Z.of_nat (length v) -> exists x, vec_at v i = Ok x.
Proof.
  intros H. unfold vec_at.
  replace (i <? 0) with false by (symmetry; apply Z.ltb_ge; lia).
  destruct (nth_error v (Z.to_nat i)) as [x |] eqn:Hx; [now exists x |].
  apply nth_error_None in Hx. lia.
Qed.

(** On the nodes of the grid the table of [Beta] is read inside its
    bounds. *)
Lemma Beta_Ok s m :
  0 <= BC s <= 2 -> 0 <= m <= M s -> exists b, Beta s m = Ok b.
Proof.
  intros HBC Hm. unfold Beta.
  destruct ((m >? 1) && (m <? M s - 1)) eqn:Hint; [now exists fzero |].
  set (m' := if m >=? M s - 1 then m - (M s - 3) else m).
  assert (Hm' : 0 <= m' <= 3).
  { subst m'. rewrite Z.gtb_ltb in Hint.
    destruct (Z.geb_spec m (M s - 1)); [lia |].
    destruct (Z.ltb_spec 1 m), (Z.ltb_spec m (M s - 1));
      cbn [andb] in Hint; try discriminate; lia. }
  replace ((0 <=? BC s) && (BC s <=? 2)) with true
    by (symmetry; apply andb_true_iff; split; apply Z.leb_le; lia).
  replace ((0 <=? m') && (m' <=? 3)) with true
    by (symmetry; apply andb_true_iff; split; apply Z.leb_le; lia).
  cbn [negb]. unfold BoundaryConditions.
  destruct (vec_at_Ok BoundaryConditions_table (i := BC s)) as [row Hrow];
    [cbn; lia |].
  rewrite Hrow. cbn [bind].
  assert (Hlen : length row = 4%nat).
  { unfold vec_at in Hrow.
    replace (BC s <? 0) with false in Hrow by (symmetry; apply Z.ltb_ge; lia).
    assert (Hc : (Z.to_nat (BC s) = 0 \/ Z.to_nat (BC s) = 1
                  \/ Z.to_nat (BC s) = 2)%nat) by lia.
    destruct Hc as [Hc | [Hc | Hc]]; rewrite Hc in Hrow;
      injection Hrow as <-; reflexivity. }
  destruct (vec_at_Ok row (i := m')) as [v Hv]; [lia |].
  rewrite Hv. cbn [bind]. now eexists.
Qed.

(** The two exterior nodes carry the bare kernel. *)
Lemma Basis_exterior_low s fuel x :
  1 <= M s ->
  Basis (S fuel) s (-1) x = Ok (Basis_kernel s (-1) x).
Proof.
  intros HM. cbn [Basis]. bool_cases; try lia. reflexivity.
Qed.

Lemma Basis_exterior_high s fuel x :
  1 <= M s ->
  Basis (S fuel) s (M s + 1) x = Ok (Basis_kernel s (M s + 1) x).
Proof.
  intros HM. cbn [Basis]. bool_cases; try lia. reflexivity.
Qed.

Lemma Basis_interior s fuel m x :
  1 < m < M s - 1 ->
  Basis (S fuel) s m x = Ok (Basis_kernel s m x).
Proof.
  intros Hm. cbn [Basis]. bool_cases; try lia. reflexivity.
Qed.

Lemma Basis_low s fuel m x b :
  1 <= M s -> m = 0 \/ m = 1 -> Beta s m = Ok b ->
  Basis (S (S fuel)) s m x
  = Ok (fadd (Basis_kernel s m x) (fmul b (Basis_kernel s (-1) x))).
Proof.
  intros HM Hm Hb. cbn [Basis].
  replace ((m =? 0) || (m =? 1)) with true
    by (symmetry; apply orb_true_iff; destruct Hm as [-> | ->]; auto).
  rewrite Hb. cbn [bind].
  replace ((-1 =? 0) || (-1 =? 1)) with false by reflexivity.
  bool_cases; try lia. reflexivity.
Qed.

Lemma Basis_high s fuel m x b :
  3 <= M s -> m = M s - 1 \/ m = M s -> Beta s m = Ok b ->
  Basis (S (S fuel)) s m x
  = Ok (fadd (Basis_kernel s m x) (fmul b (Basis_kernel s (M s + 1) x))).
Proof.
  intros HM Hm Hb. cbn [Basis].
  replace ((m =? 0) || (m =? 1)) with false
    by (symmetry; apply orb_false_iff; split; apply Z.eqb_neq; lia).
  replace ((m =? M s - 1) || (m =? M s)) with true
    by (symmetry; apply orb_true_iff; destruct Hm as [-> | ->];
        rewrite Z.eqb_refl; auto).
  rewrite Hb. cbn [bind].
  bool_cases; try lia. reflexivity.
Qed.

(** With a fuel of two or more, [Basis] returns [Basis_val] on every node
    and on the two exterior nodes. *)
Lemma Basis_Ok s fuel m x :
  0 <= BC s <= 2 -> 3 <= M s -> -1 <= m <= M s + 1 ->
  Basis (S (S fuel)) s m x = Ok (Basis_val s m x).
Proof.
  intros HBC HM Hm. unfold Basis_val.
  destruct (Z.eq_dec m (-1)) as [-> | Hn1].
  { now rewrite !Basis_exterior_low by lia. }
  destruct (Z.eq_dec m (M s + 1)) as [-> | Hn2].
  { now rewrite !Basis_exterior_high by lia. }
  destruct (Beta_Ok s (m := m) HBC ltac:(lia)) as [b Hb].
  destruct (Z_le_gt_dec m 1) as [Hlow | Hhi].
  { now rewrite !Basis_low with (b := b) by (try assumption; lia). }
  destruct (Z_lt_le_dec m (M s - 1)) as [Hint | Hhigh].
  { now rewrite !Basis_interior by lia. }
  now rewrite !Basis_high with (b := b) by (try assumption; lia).
Qed.
End BasisFacts.

(* ================================================================== *)
(** * 13. Exact arithmetic: from [Qc] to [Q] *)
(* ================================================================== *)

Lemma this_plus (a b : Qc) : (this (a + b)%Qc == this a + this b)%Q.
Proof. unfold Qcplus, Q2Qc. cbn [this]. apply Qred_correct. Qed.

Lemma this_mult (a b : Qc) : (this (a * b)%Qc == this a * this b)%Q.
Proof. unfold Qcmult, Q2Qc. cbn [this]. apply Qred_correct. Qed.

Lemma this_opp (a : Qc) : (this (- a)%Qc == - this a)%Q.
Proof. unfold Qcopp, Q2Qc. cbn [this]. apply Qred_correct. Qed.

Lemma this_minus (a b : Qc) : (this (a - b)%Qc == this a - this b)%Q.
Proof. unfold Qcminus. rewrite this_plus, this_opp. reflexivity. Qed.

Lemma this_inv (a : Qc) : (this (/ a)%Qc == / this a)%Q.
Proof. unfold Qcinv, Q2Qc. cbn [this]. apply Qred_correct. Qed.

Lemma this_div (a b : Qc) : (this (a / b)%Qc == this a / this b)%Q.
Proof. unfold Qcdiv. rewrite this_mult, this_inv. reflexivity. Qed.

Lemma this_Q2Qc (q : QArith_base.Q) : (this (Q2Qc q) == q)%Q.
Proof. apply Qred_correct. Qed.

Lemma Qc_eq_this (a b : Qc) : a = b <-> (this a == this b)%Q.
Proof. split; [intros ->; reflexivity | apply Qc_is_canon]. Qed.

Lemma Qc_eq_bool_true (a b : Qc) : Qc_eq_bool a b = true <-> a = b.
Proof.
  split; [apply Qc_eq_bool_correct |].
  intros ->. unfold Qc_eq_bool. destruct (Qc_eq_dec b b); congruence.
Qed.

Lemma Qc_eq_bool_false (a b : Qc) : Qc_eq_bool a b = false <-> a <> b.
Proof.
  rewrite <- Qc_eq_bool_true. destruct (Qc_eq_bool a b); split; congruence.
Qed.

(** The operations of [Qc_Arith], unfolded. *)
Ltac qc_ops :=
  cbn [fzero flit fofZ fadd fsub fmul fdiv fopp fltb fleb feqb ftrunc
       Qc_Arith] in *.

(** Turns the tests of [Qc_Arith] that are hypotheses into order facts. *)
Ltac qc_tests :=
  repeat match goal with
    | H : Qc_ltb _ _ = true |- _ => apply Qc_ltb_lt in H
    | H : Qc_ltb _ _ = false |- _ => apply Qc_ltb_ge in H
    | H : Qc_leb _ _ = true |- _ => apply Qc_leb_le in H
    | H : Qc_eq_bool _ _ = true |- _ => apply Qc_eq_bool_true in H
    | H : Qc_eq_bool _ _ = false |- _ => apply Qc_eq_bool_false in H
    end.

(** Moves a goal on [Qc] and its hypotheses to [Q], where [lra], [nra]
    and [field] work. *)
Ltac qc_all :=
  unfold Qclt, Qcle in *;
  repeat match goal with
    | H : @eq Qc _ _ |- _ => apply Qc_eq_this in H
    | |- @eq Qc _ _ => apply Qc_is_canon
    end;
  repeat first
    [ rewrite this_plus in * | rewrite this_minus in * | rewrite this_mult in *
    | rewrite this_opp in * | rewrite this_div in * | rewrite this_inv in *
    | rewrite this_Q2Qc in * ].

Lemma fabs_Qc (z : Qc) :
  (Q2Qc 0 <= fabs z)%Qc /\ (fabs z = z \/ fabs z = (- z)%Qc).
Proof.
  unfold fabs. qc_ops. destruct (Qc_ltb z (Q2Qc 0)) eqn:Hz; qc_tests.
  - split; [| now right]. qc_all. lra.
  - split; [assumption | now left].
Qed.

Lemma fabs_Qc_ge (z c : Qc) :
  (c <= fabs z)%Qc <-> (c <= z)%Qc \/ (c <= - z)%Qc.
Proof.
  unfold fabs. qc_ops. destruct (Qc_ltb z (Q2Qc 0)) eqn:Hz; qc_tests;
    split; intros H; try (destruct H as [H | H]); qc_all;
    first [lra | (left; lra) | (right; lra)].
Qed.

(** The quotient by a positive spacing. *)
Lemma Qc_div_ge (a d c : Qc) :
  (Q2Qc 0 < d)%Qc -> ((c <= a / d)%Qc <-> (c * d <= a)%Qc).
Proof.
  intros Hd. qc_all. split; intros H.
  - apply Qmult_le_r with (z := Qinv (this d)); [apply Qinv_lt_0_compat; exact Hd |].
    rewrite <- Qmult_assoc, Qmult_inv_r by lra. rewrite Qmult_1_r. exact H.
  - apply Qle_shift_div_l; assumption.
Qed.

Lemma Qc_div_le (a d c : Qc) :
  (Q2Qc 0 < d)%Qc -> ((a / d <= c)%Qc <-> (a <= c * d)%Qc).
Proof.
  intros Hd. qc_all. split; intros H.
  - apply Qmult_le_r with (z := Qinv (this d)); [apply Qinv_lt_0_compat; exact Hd |].
    rewrite <- (Qmult_assoc (this c)), Qmult_inv_r by lra.
    rewrite Qmult_1_r. exact H.
  - apply Qle_shift_div_r; assumption.
Qed.

(* ================================================================== *)
(** * 14. The kernel of [Basis] on exact arithmetic *)
(* ================================================================== *)

(** Lines 313-323, with the operations of [Qc]. *)
Lemma Basis_kernel_Qc (s : BSplineBase Qc) (m : Z) (x : Qc) :
  Basis_kernel s m x
  = let z := fabs ((x - node s m) / DX s)%Qc in
    if Qc_ltb z (Q2Qc 2)
    then if Qc_ltb (Q2Qc 0) (Q2Qc 2 - z - Q2Qc 1)%Qc
         then (Q2Qc (1 # 4) * ((Q2Qc 2 - z) * (Q2Qc 2 - z) * (Q2Qc 2 - z))
               - (Q2Qc 2 - z - Q2Qc 1) * (Q2Qc 2 - z - Q2Qc 1)
                 * (Q2Qc 2 - z - Q2Qc 1))%Qc
         else (Q2Qc (1 # 4) * ((Q2Qc 2 - z) * (Q2Qc 2 - z) * (Q2Qc 2 - z)))%Qc
    else Q2Qc 0.
Proof. reflexivity. Qed.


(** Outside two node intervals around the node the kernel vanishes. *)
Lemma Basis_kernel_support (s : BSplineBase Qc) (m : Z) (x : Qc) :
  (Q2Qc 0 < DX s)%Qc ->
  (Q2Qc 2 * DX s <= fabs (x - node s m))%Qc ->
  Basis_kernel s m x = Q2Qc 0.
Proof.
  intros HDX Hfar. rewrite Basis_kernel_Qc. cbn zeta.
  replace (Qc_ltb (fabs ((x - node s m) / DX s)%Qc) (Q2Qc 2)) with false;
    [reflexivity |].
  symmetry. apply Qc_ltb_ge. apply fabs_Qc_ge.
  apply fabs_Qc_ge in Hfar. destruct Hfar as [H | H]; [left | right].
  - apply Qc_div_ge; assumption.
  - replace (- ((x - node s m) / DX s))%Qc with ((- (x - node s m)) / DX s)%Qc
      by (qc_all; field; lra).
    apply Qc_div_ge; assumption.
Qed.


(* ================================================================== *)
(** * 15. Matrix assembly: [calculateQ] *)
(* ================================================================== *)

Section MatrixWrites.
Context {T : Type} (zero : T).

Lemma mconst_symmetric_band (n : Z) : symmetric_band zero n (mconst n n zero).
Proof. repeat split. Qed.

(** A write on the diagonal. *)
Lemma mset_diag_band (n : Z) (A : C_matrix T) (i : Z) (v : T) :
  symmetric_band zero n A -> 0 <= i < n ->
  exists A', mset A i i v = Ok A' /\ symmetric_band zero n A'.
Proof.
  intros ([Hr Hc] & Hsym & Hband) Hi.
  rewrite mset_Ok by lia. eexists. split; [reflexivity |].
  split; [now split |]. split.
  - intros r c. cbn [cell]. rewrite (Hsym r c).
    bool_cases; try reflexivity; lia.
  - intros r c Hrc. cbn [cell]. rewrite <- (Hband r c Hrc).
    bool_cases; try reflexivity; lia.
Qed.

(** The two writes [A[i][j] = A[j][i] = v] inside the band. *)
Lemma mset_pair_band (n : Z) (A : C_matrix T) (i j : Z) (v : T) :
  symmetric_band zero n A -> 0 <= i < n -> 0 <= j < n -> Z.abs (i - j) <= 3 ->
  exists A', (B <- mset A i j v ;; mset B j i v) = Ok A' /\
             symmetric_band zero n A'.
Proof.
  intros ([Hr Hc] & Hsym & Hband) Hi Hj Hij.
  rewrite mset_Ok by lia. cbn [bind].
  rewrite mset_Ok by (cbn [num_rows num_cols]; lia).
  eexists. split; [reflexivity |].
  split; [now split |]. split.
  - intros r c. cbn [cell]. rewrite (Hsym r c).
    bool_cases; try reflexivity; lia.
  - intros r c Hrc. cbn [cell]. rewrite <- (Hband r c Hrc).
    bool_cases; try reflexivity; lia.
Qed.
End MatrixWrites.

Section CalculateQFacts.
Context {F : Type} {AF : Arith F}.
Variables qdelta Beta_sub : Z -> F.
Implicit Types s : BSplineBase F.

Lemma qparts_Ok (a b : Z) :
  0 <= a <= 3 -> 0 <= b <= 3 -> exists v : F, qparts a b = Ok v.
Proof.
  intros Ha Hb. unfold qparts.
  destruct (vec_at_Ok qparts_table (i := a)) as [row Hrow]; [cbn; lia |].
  rewrite Hrow. cbn [bind].
  assert (Hlen : length row = 4%nat).
  { unfold vec_at in Hrow.
    replace (a <? 0) with false in Hrow by (symmetry; apply Z.ltb_ge; lia).
    assert (Hc : (Z.to_nat a = 0 \/ Z.to_nat a = 1 \/ Z.to_nat a = 2
                  \/ Z.to_nat a = 3)%nat) by lia.
    destruct Hc as [Hc | [Hc | [Hc | Hc]]]; rewrite Hc in Hrow;
      injection Hrow as <-; reflexivity. }
  destruct (vec_at_Ok row (i := b)) as [v Hv]; [lia |].
  rewrite Hv. cbn [bind]. now eexists.
Qed.

Lemma qDelta_Ok s (m1 m2 : Z) : exists v, qDelta s m1 m2 = Ok v.
Proof.
  unfold qDelta.
  set (p := if m1 >? m2 then (m2, m1) else (m1, m2)).
  assert (Hp : fst p <= snd p)
    by (subst p; destruct (Z.gtb_spec m1 m2); cbn [fst snd]; lia).
  destruct p as [a b]. cbn [fst snd] in Hp.
  destruct (Z.gtb_spec (b - a) 3) as [Hfar | Hnear]; [now eexists |].
  match goal with
  | |- exists v, bind (for_ZM ?lo ?hi ?body ?q0) _ = _ =>
      destruct (@for_ZM_pres F (fun _ : F => True) lo hi body q0 I)
        as (q & Hq & _)
  end.
  { intros k t Hk _.
    destruct (qparts_Ok (a := b - a) (b := k - a + 2)) as [v Hv]; [lia | lia |].
    rewrite Hv. cbn [bind]. now eexists. }
  rewrite Hq. cbn [bind]. now eexists.
Qed.

Lemma calculateQ_band_Ok s (A : C_matrix F) :
  symmetric_band fzero (M s + 1) A ->
  exists A', calculateQ_band s A = Ok A' /\ symmetric_band fzero (M s + 1) A'.
Proof.
  intros HA. unfold calculateQ_band.
  apply for_ZM_pres with (P := symmetric_band fzero (M s + 1)); [exact HA |].
  intros i B Hi HB.
  destruct (qDelta_Ok s i i) as [d Hd]. rewrite Hd. cbn [bind].
  destruct (mset_diag_band (i := i) d HB ltac:(lia)) as (B1 & HB1 & Hinv1).
  rewrite HB1. cbn [bind].
  apply for_ZM_pres with (P := symmetric_band fzero (M s + 1)); [exact Hinv1 |].
  intros j C Hj HC.
  destruct (qDelta_Ok s i (i + j)) as [v Hv]. rewrite Hv. cbn [bind].
  apply mset_pair_band; [exact HC | lia | lia | lia].
Qed.

Lemma calculateQ_upper_Ok s (A : C_matrix F) :
  0 <= BC s <= 2 -> 4 <= M s ->
  symmetric_band fzero (M s + 1) A ->
  exists A', calculateQ_upper qdelta s A = Ok A' /\
             symmetric_band fzero (M s + 1) A'.
Proof.
  intros HBC HM HA. unfold calculateQ_upper.
  apply for_ZM_pres with (P := symmetric_band fzero (M s + 1)); [exact HA |].
  intros i B Hi HB.
  destruct (Beta_Ok s (m := i) HBC ltac:(lia)) as [b1 Hb1].
  rewrite Hb1. cbn [bind].
  apply for_ZM_pres with (P := symmetric_band fzero (M s + 1)); [exact HB |].
  intros j C Hj HC.
  destruct (Beta_Ok s (m := j) HBC ltac:(lia)) as [b2 Hb2].
  rewrite Hb2. cbn [bind].
  replace ((j - i >=? 0) && (j - i <? 4)) with true
    by (symmetry; apply andb_true_iff; split;
        [apply Z.geb_le | apply Z.ltb_lt]; lia).
  cbn [negb].
  apply mset_pair_band; [exact HC | lia | lia | lia].
Qed.

Lemma calculateQ_lower_Ok s (A : C_matrix F) :
  4 <= M s ->
  symmetric_band fzero (M s + 1) A ->
  exists A', calculateQ_lower qdelta Beta_sub s A = Ok A' /\
             symmetric_band fzero (M s + 1) A'.
Proof.
  intros HM HA. unfold calculateQ_lower. cbn zeta.
  apply for_ZM_pres with (P := symmetric_band fzero (M s + 1)); [exact HA |].
  intros i B Hi HB.
  apply for_ZM_pres with (P := symmetric_band fzero (M s + 1)); [exact HB |].
  intros j C Hj HC.
  apply mset_pair_band; [exact HC | lia | lia | lia].
Qed.

(** [calculateQ] returns on a grid of at least four intervals, with a
    symmetric matrix of order [M + 1] and bandwidth 3 in [Q]. *)
Lemma calculateQ_Ok s :
  0 <= BC s <= 2 -> 4 <= M s ->
  exists Q3, calculateQ qdelta Beta_sub s = Ok (with_Q s Q3) /\
             symmetric_band fzero (M s + 1) Q3.
Proof.
  intros HBC HM. unfold calculateQ.
  destruct (calculateQ_band_Ok s (mconst_symmetric_band fzero (M s + 1)))
    as (Q1 & H1 & Hinv1).
  rewrite H1. cbn [bind].
  destruct (calculateQ_upper_Ok s HBC HM Hinv1) as (Q2 & H2 & Hinv2).
  rewrite H2. cbn [bind].
  destruct (calculateQ_lower_Ok s HM Hinv2) as (Q3 & H3 & Hinv3).
  rewrite H3. cbn [bind]. now exists Q3.
Qed.
End CalculateQFacts.

(* ================================================================== *)
(** * 16. Matrix assembly: [addP] *)
(* ================================================================== *)

Section AddPFacts.
Context {F : Type} {AF : Arith F}.
Implicit Types s : BSplineBase F.

Lemma madd_at_Ok (P : C_matrix F) (i j : Z) (v : F) :
  0 <= i < num_rows P -> 0 <= j < num_cols P ->
  madd_at P i j v
  = Ok (mkMatrix (num_rows P) (num_cols P)
          (fun r c => if (r =? i) && (c =? j) then fadd (cell P i j) v
                      else cell P r c)).
Proof.
  intros Hi Hj. unfold madd_at. rewrite mget_Ok by assumption. cbn [bind].
  now rewrite mset_Ok by assumption.
Qed.

(** Lines 555-567: what row [m] adds for the sample [x]. *)
Lemma addP_row_cells s fuel (x : F) (m : Z) (P : C_matrix F) :
  0 <= BC s <= 2 -> 3 <= M s -> 0 <= m <= M s ->
  square_of P (M s + 1) ->
  exists P',
    addP_row (S (S fuel)) s x m P = Ok P' /\
    square_of P' (M s + 1) /\
    forall r c,
      cell P' r c
      = if (Z.min r c =? m) && (Z.max r c <=? Z.min (M s) (m + 3))
        then fadd (cell P r c) (pair_product s x r c)
        else cell P r c.
Proof.
  intros HBC HM Hm [Hr Hc]. unfold addP_row.
  rewrite (Basis_Ok s fuel x HBC HM (m := m)) by lia. cbn [bind].
  rewrite madd_at_Ok by lia. cbn [bind].
  match goal with
  | |- exists P', for_ZM ?lo ?hi ?body ?P1 = _ /\ _ =>
      destruct (@for_ZM_inv _
                  (fun n Bn =>
                     square_of Bn (M s + 1) /\
                     forall r c,
                       cell Bn r c
                       = if (Z.min r c =? m) && (Z.max r c <? n)
                         then fadd (cell P r c) (pair_product s x r c)
                         else cell P r c)
                  lo hi body P1) as (P' & HP' & Hsq & Hcells)
  end.
  - split; [split; cbn [num_rows num_cols]; assumption |].
    intros r c. cbn [cell]. unfold pair_product.
    destruct (Z.eqb_spec r m) as [-> | Hrm];
      destruct (Z.eqb_spec c m) as [-> | Hcm]; cbn [andb].
    + rewrite Z.min_id, Z.max_id, Z.eqb_refl.
      replace (m <? m + 1) with true by (symmetry; apply Z.ltb_lt; lia).
      reflexivity.
    + bool_cases; try reflexivity; lia.
    + bool_cases; try reflexivity; lia.
    + bool_cases; try reflexivity; lia.
  - intros n B Hn ([HrB HcB] & HB). cbn [bind].
    rewrite (Basis_Ok s fuel x HBC HM (m := n)) by lia. cbn [bind].
    rewrite madd_at_Ok by lia. cbn [bind].
    rewrite madd_at_Ok by (cbn [num_rows num_cols]; lia).
    eexists. split; [reflexivity |].
    split; [split; cbn [num_rows num_cols]; assumption |].
    intros r c. cbn [cell]. rewrite !HB. unfold pair_product.
    destruct (Z.eqb_spec r n) as [-> | Hrn];
      destruct (Z.eqb_spec c m) as [-> | Hcm]; cbn [andb].
    + replace (Z.min n m) with m by lia. replace (Z.max n m) with n by lia.
      bool_cases; try reflexivity; lia.
    + bool_cases; try reflexivity; lia.
    + destruct (Z.eqb_spec r m) as [-> | Hrm]; cbn [andb].
      * bool_cases; try reflexivity; lia.
      * bool_cases; try reflexivity; lia.
    + destruct (Z.eqb_spec r m) as [-> | Hrm];
        destruct (Z.eqb_spec c n) as [-> | Hcn]; cbn [andb].
      * replace (Z.min m n) with m by lia. replace (Z.max m n) with n by lia.
        bool_cases; try reflexivity; lia.
      * bool_cases; try reflexivity; lia.
      * bool_cases; try reflexivity; lia.
      * bool_cases; try reflexivity; lia.
  - exists P'. split; [exact HP' |]. split; [exact Hsq |].
    intros r c. rewrite Hcells.
    replace (Z.max (m + 1) (Z.min (M s) (m + 3) + 1))
      with (Z.min (M s) (m + 3) + 1) by lia.
    bool_cases; try reflexivity; lia.
Qed.

(** Line 553: the rows from [m0] on.  The loop runs up to row [M]. *)
Lemma addP_rows_from s fuel (x : F) (m0 : Z) (P : C_matrix F) :
  0 <= BC s <= 2 -> 3 <= M s -> 0 <= m0 ->
  forall (n : nat) (m : Z) (B : C_matrix F),
    m0 <= m -> Z.of_nat n = M s + 1 - m ->
    square_of B (M s + 1) ->
    (forall r c,
        cell B r c
        = if in_window s m0 r c && (Z.min r c <? m)
          then fadd (cell P r c) (pair_product s x r c)
          else cell P r c) ->
    exists P',
      addP_rows n (S (S fuel)) s x m B = Ok P' /\
      square_of P' (M s + 1) /\
      forall r c,
        cell P' r c
        = if in_window s m0 r c
          then fadd (cell P r c) (pair_product s x r c)
          else cell P r c.
Proof.
  intros HBC HM Hm0.
  induction n as [|n IH]; intros m B Hm Hn Hsq HB.
  - cbn [addP_rows].
    replace (m <=? Z.min (M s) (m + 2)) with false
      by (symmetry; apply Z.leb_gt; lia).
    exists B. split; [reflexivity |]. split; [exact Hsq |].
    intros r c. rewrite HB. unfold in_window.
    bool_cases; try reflexivity; lia.
  - cbn [addP_rows].
    replace (m <=? Z.min (M s) (m + 2)) with true
      by (symmetry; apply Z.leb_le; lia).
    destruct (@addP_row_cells s fuel x m B HBC HM ltac:(lia) Hsq)
      as (B' & HB' & Hsq' & Hcells).
    rewrite HB'. cbn [bind].
    apply IH; [lia | lia | exact Hsq' |].
    intros r c. rewrite Hcells, HB. unfold in_window.
    bool_cases; try reflexivity; lia.
Qed.

(** Lines 545-568: what one sample adds to [P]. *)
Lemma addP_sample_cells s fuel (i : Z) (x : F) (P : C_matrix F) :
  0 <= BC s <= 2 -> 3 <= M s ->
  vec_at (X (base s)) i = Ok x ->
  square_of P (M s + 1) ->
  exists P',
    addP_sample (S (S fuel)) s i P = Ok P' /\
    square_of P' (M s + 1) /\
    forall r c,
      cell P' r c
      = if in_window s (first_row s x) r c
        then fadd (cell P r c) (pair_product s x r c)
        else cell P r c.
Proof.
  intros HBC HM Hx Hsq. unfold addP_sample. rewrite Hx. cbn [bind].
  fold (first_row s x).
  assert (H0 : 0 <= first_row s x) by (unfold first_row; lia).
  destruct (Z_le_gt_dec (first_row s x) (M s + 1)) as [Hle | Hgt].
  - apply addP_rows_from with (m0 := first_row s x) (P := P);
      try assumption; try lia.
    intros r c. unfold in_window. bool_cases; try reflexivity; lia.
  - replace (Z.to_nat (M s + 1 - first_row s x)) with O by lia.
    cbn [addP_rows].
    replace (first_row s x <=? Z.min (M s) (first_row s x + 2)) with false
      by (symmetry; apply Z.leb_gt; lia).
    exists P. split; [reflexivity |]. split; [exact Hsq |].
    intros r c. unfold in_window. bool_cases; try reflexivity; lia.
Qed.

Lemma in_window_sym s (m0 r c : Z) : in_window s m0 r c = in_window s m0 c r.
Proof. unfold in_window. now rewrite (Z.min_comm r c), (Z.max_comm r c). Qed.

Lemma pair_product_sym s (x : F) (r c : Z) :
  pair_product s x r c = pair_product s x c r.
Proof. unfold pair_product. now rewrite (Z.min_comm r c), (Z.max_comm r c). Qed.

(** Lines 524-568: the loops return, with a symmetric matrix of bandwidth
    3. *)
Lemma addP_P_band s fuel :
  0 <= BC s <= 2 -> 3 <= M s ->
  NX s <= Z.of_nat (length (X (base s))) ->
  exists P,
    addP_P (S (S fuel)) s = Ok P /\ symmetric_band fzero (M s + 1) P.
Proof.
  intros HBC HM HNX. unfold addP_P.
  apply for_ZM_pres with (P := symmetric_band fzero (M s + 1));
    [apply mconst_symmetric_band |].
  intros i B Hi (Hsq & Hsym & Hband).
  destruct (vec_at_Ok (X (base s)) (i := i)) as [x Hx]; [lia |].
  destruct (@addP_sample_cells s fuel i x B HBC HM Hx Hsq) as (B' & HB' & Hsq' & Hcells).
  exists B'. split; [exact HB' |]. split; [exact Hsq' |]. split.
  - intros r c. rewrite !Hcells, in_window_sym, pair_product_sym, (Hsym r c).
    reflexivity.
  - intros r c Hrc. rewrite Hcells.
    replace (in_window s (first_row s x) r c) with false;
      [apply Hband; exact Hrc |].
    unfold in_window. bool_cases; try reflexivity; lia.
Qed.
End AddPFacts.

Section AssembledMatrix.
Context {F : Type} {AF : Arith F}.
Implicit Types s : BSplineBase F.

(** [operator +=], cell by cell. *)
Lemma matrix_add_assign_cells (A B : C_matrix F) :
  same_dims A B ->
  exists A',
    matrix_add_assign A B = Ok A' /\ same_dims A A' /\
    forall r c,
      cell A' r c
      = if (0 <=? r) && (r <? num_rows A) && (0 <=? c) && (c <? num_cols A)
        then fadd (cell A r c) (cell B r c)
        else cell A r c.
Proof.
  intros [Hr Hc]. unfold matrix_add_assign.
  replace ((num_rows A =? num_rows B) && (num_cols A =? num_cols B)) with true
    by (symmetry; apply andb_true_iff; split; apply Z.eqb_eq; congruence).
  cbn [negb].
  match goal with
  | |- exists A', for_ZM ?lo ?hi ?body ?A0 = _ /\ _ =>
      destruct (@for_ZM_inv _
                  (fun i Ai =>
                     same_dims A Ai /\
                     forall r c,
                       cell Ai r c
                       = if (0 <=? r) && (r <? i) && (0 <=? c)
                            && (c <? num_cols A)
                         then fadd (cell A r c) (cell B r c)
                         else cell A r c)
                  lo hi body A0) as (A' & HA' & Hdims & Hcells)
  end.
  - split; [split; reflexivity |].
    intros r c. bool_cases; try reflexivity; lia.
  - intros i Ai Hi ([HrA HcA] & HAi). cbv beta.
    match goal with
    | |- exists t', for_ZM ?lo ?hi ?body ?A0 = _ /\ _ =>
        destruct (@for_ZM_inv _
                    (fun j Aj =>
                       same_dims A Aj /\
                       forall r c,
                         cell Aj r c
                         = if ((0 <=? r) && (r <? i) && (0 <=? c)
                               && (c <? num_cols A))
                              || ((r =? i) && (0 <=? c) && (c <? j))
                           then fadd (cell A r c) (cell B r c)
                           else cell A r c)
                    lo hi body A0) as (A' & HA' & Hdims & Hcells)
    end.
    + split; [split; assumption |].
      intros r c. rewrite HAi. bool_cases; try reflexivity; lia.
    + intros j Aj Hj ([HrAj HcAj] & HAj). cbv beta.
      rewrite mget_Ok by lia. cbn [bind].
      rewrite madd_at_Ok by lia.
      eexists. split; [reflexivity |].
      split; [split; cbn [num_rows num_cols]; assumption |].
      intros r c. cbn [cell]. rewrite !HAj.
      destruct (Z.eqb_spec r i) as [-> | Hri];
        destruct (Z.eqb_spec c j) as [-> | Hcj]; cbn [andb orb];
        bool_cases; try reflexivity; lia.
    + exists A'. split; [exact HA' |]. split; [exact Hdims |].
      intros r c. rewrite Hcells.
      replace (Z.max 0 (num_cols Ai - 1 + 1)) with (Z.max 0 (num_cols A))
        by (rewrite HcA; lia).
      bool_cases; try reflexivity; lia.
  - exists A'. split; [exact HA' |]. split; [exact Hdims |].
    intros r c. rewrite Hcells. bool_cases; try reflexivity; lia.
Qed.

Hypothesis fadd_zero : fadd fzero fzero = fzero.

Lemma matrix_add_assign_band (n : Z) (A B : C_matrix F) :
  symmetric_band fzero n A -> symmetric_band fzero n B ->
  exists A', matrix_add_assign A B = Ok A' /\ symmetric_band fzero n A'.
Proof.
  intros ([HrA HcA] & HsymA & HbandA) ([HrB HcB] & HsymB & HbandB).
  destruct (@matrix_add_assign_cells A B) as (A' & HA' & [Hr' Hc'] & Hcells).
  { split; congruence. }
  exists A'. split; [exact HA' |].
  split; [split; congruence |]. split.
  - intros r c. rewrite !Hcells, (HsymA r c), (HsymB r c).
    rewrite HrA, HcA. bool_cases; try reflexivity; lia.
  - intros r c Hrc. rewrite Hcells, (HbandA r c Hrc), (HbandB r c Hrc).
    rewrite fadd_zero. now destruct (_ && _).
Qed.

Variables qdelta Beta_sub : Z -> F.

(** C2.  On a grid of at least four intervals (a grid that [Setup] has
    chosen has at least ten), [calculateQ] followed by [addP] returns, and
    the matrix [Q] that they leave has order [M + 1], is symmetric, and
    holds zero in every cell more than 3 places off the diagonal. *)
Theorem assembled_Q_symmetric_banded (fuel : nat) s :
  0 <= BC s <= 2 ->
  4 <= M s ->
  NX s <= Z.of_nat (length (X (base s))) ->
  exists s1 s2,
    calculateQ qdelta Beta_sub s = Ok s1 /\
    addP (S (S fuel)) s1 = Ok s2 /\
    M s2 = M s /\
    square_of (Q (base s2)) (M s + 1) /\
    (forall i j, 0 <= i <= M s -> 0 <= j <= M s ->
                 cell (Q (base s2)) i j = cell (Q (base s2)) j i) /\
    (forall i j, 0 <= i <= M s -> 0 <= j <= M s -> 3 < Z.abs (i - j) ->
                 cell (Q (base s2)) i j = fzero).
Proof.
  intros HBC HM HNX.
  destruct (calculateQ_Ok qdelta Beta_sub s HBC HM) as (Q3 & HQ & HbandQ).
  exists (with_Q s Q3).
  unfold addP.
  destruct (@addP_P_band F AF (with_Q s Q3) fuel HBC ltac:(cbn; lia) HNX)
    as (P & HP & HbandP).
  rewrite HP. cbn [bind with_Q Q base].
  destruct (matrix_add_assign_band HbandQ HbandP) as (Qm & HQm & Hband).
  rewrite HQm. cbn [bind].
  eexists. split; [exact HQ |]. split; [reflexivity |].
  cbn [with_Q Q base M].
  destruct Hband as (Hsq & Hsym & Hzero).
  split; [reflexivity |]. split; [exact Hsq |]. split.
  - intros i j _ _. apply Hsym.
  - intros i j _ _. apply Hzero.
Qed.
End AssembledMatrix.

Section Assemble.
Context {F : Type} {AF : Arith F}.
Implicit Types s : BSplineBase F.
Variables qdelta Beta_sub : Z -> F.

(** [calculateQ] followed by [addP] returns, with a matrix of order
    [M + 1]. *)
Lemma calculateQ_addP_Ok (fuel : nat) s :
  0 <= BC s <= 2 -> 4 <= M s ->
  NX s <= Z.of_nat (length (X (base s))) ->
  exists Qm,
    (s1 <- calculateQ qdelta Beta_sub s ;; addP (S (S fuel)) s1)
    = Ok (with_Q s Qm) /\
    square_of Qm (M s + 1).
Proof.
  intros HBC HM HNX.
  destruct (calculateQ_Ok qdelta Beta_sub s HBC HM)
    as (Q3 & HQ & (HsqQ & _)).
  rewrite HQ. cbn [bind]. unfold addP.
  destruct (@addP_P_band F AF (with_Q s Q3) fuel HBC ltac:(cbn; lia) HNX)
    as (P & HP & (HsqP & _)).
  rewrite HP. cbn [bind with_Q Q base].
  cbn [M with_Q] in HsqP.
  destruct HsqQ as [HrQ HcQ]. destruct HsqP as [HrP HcP].
  destruct (@matrix_add_assign_cells F AF Q3 P) as (Qm & HQm & [Hr Hc] & _).
  { split; congruence. }
  rewrite HQm. cbn [bind]. exists Qm. split; [reflexivity |].
  split; congruence.
Qed.
End Assemble.

(* ================================================================== *)
(** * 17. Supports of the basis functions on a valid domain *)
(* ================================================================== *)

Lemma node_Qc (s : BSplineBase Qc) (m : Z) :
  node s m = (xmin s + Q2Qc (inject_Z m) * DX s)%Qc.
Proof. reflexivity. Qed.

Lemma this_node (s : BSplineBase Qc) (m : Z) :
  (this (node s m) == this (xmin s) + inject_Z m * this (DX s))%Q.
Proof. rewrite node_Qc, this_plus, this_mult, this_Q2Qc. reflexivity. Qed.


Section KernelSupport.
Variable s : BSplineBase Qc.
Hypothesis HDX : (Q2Qc 0 < DX s)%Qc.

(** To the right of [node (a + 2)] the kernel of node [a] vanishes. *)
Lemma Basis_kernel_right (a : Z) (x : Qc) :
  (node s (a + 2) <= x)%Qc -> Basis_kernel s a x = Q2Qc 0.
Proof.
  intros Hx. apply Basis_kernel_support; [exact HDX |].
  apply fabs_Qc_ge. left. unfold Qcle in *.
  rewrite this_node in Hx. rewrite inject_Z_plus in Hx.
  rewrite this_mult, this_minus, this_node, this_Q2Qc.
  change (inject_Z 2) with 2%Q in Hx. lra.
Qed.

(** To the left of [node (b - 2)] the kernel of node [b] vanishes. *)
Lemma Basis_kernel_left (b : Z) (x : Qc) :
  (x <= node s (b - 2))%Qc -> Basis_kernel s b x = Q2Qc 0.
Proof.
  intros Hx. apply Basis_kernel_support; [exact HDX |].
  apply fabs_Qc_ge. right. unfold Qcle in *.
  rewrite this_node in Hx. unfold Z.sub in Hx. rewrite inject_Z_plus in Hx.
  rewrite this_mult, this_opp, this_minus, this_node, this_Q2Qc.
  change (inject_Z (- (2))) with (- (2))%Q in Hx. lra.
Qed.

Lemma node_mono (a b : Z) : a <= b -> (node s a <= node s b)%Qc.
Proof.
  intros Hab. unfold Qcle, Qclt in *. rewrite !this_node.
  rewrite this_Q2Qc in HDX.
  apply Qplus_le_r. apply Qmult_le_r; [exact HDX |].
  now rewrite <- Zle_Qle.
Qed.

Hypothesis HBC : 0 <= BC s <= 2.
Hypothesis HM : 3 <= M s.



End KernelSupport.

(* ================================================================== *)
(** * 18. The windowed and the dense data-fit matrix *)
(* ================================================================== *)

Lemma vec_at_nth_error {T : Type} (v : list T) (i : Z) (x : T) :
  vec_at v i = Ok x -> 0 <= i /\ nth_error v (Z.to_nat i) = Some x.
Proof.
  unfold vec_at. destruct (Z.ltb_spec i 0); [discriminate |].
  destruct (nth_error v (Z.to_nat i)) as [y |]; [| discriminate].
  intros [= ->]. split; [lia | reflexivity].
Qed.

Lemma firstn_snoc {T : Type} (v : list T) :
  forall (n : nat) (x : T),
    nth_error v n = Some x -> firstn (S n) v = firstn n v ++ [x].
Proof.
  induction v as [| a v IH]; intros [| n] x H; try discriminate.
  - injection H as ->. reflexivity.
  - cbn [nth_error] in H. cbn [firstn app]. f_equal. now apply IH.
Qed.

Lemma firstn_vec_at {T : Type} (v : list T) (i : Z) (x : T) :
  vec_at v i = Ok x ->
  firstn (Z.to_nat (i + 1)) v = firstn (Z.to_nat i) v ++ [x].
Proof.
  intros H. destruct (vec_at_nth_error _ _ H) as [Hi Hn].
  replace (Z.to_nat (i + 1)) with (S (Z.to_nat i)) by lia.
  now apply firstn_snoc.
Qed.



Section WindowedDense.
Variable s : BSplineBase Qc.
Hypothesis Hvalid : valid_domain s.




End WindowedDense.


(* ================================================================== *)
(** * 19. [Setup] leaves a valid domain *)
(* ================================================================== *)

(** Lines 613-622 find the least and the greatest sample. *)
Lemma Setup_bounds_Qc (s : BSplineBase Qc) (lo hi : Qc) :
  Setup_bounds s = Ok (lo, hi) ->
  (lo <= hi)%Qc /\
  forall x, In x (firstn (Z.to_nat (NX s)) (X (base s))) ->
            (lo <= x)%Qc /\ (x <= hi)%Qc.
Proof.
  unfold Setup_bounds. intros H.
  destruct (vec_at (X (base s)) 0) as [x0 | e] eqn:Hx0; [| discriminate].
  cbn [bind] in H.
  pose proof (@for_ZM_Ok_inv _
                (fun i (p : Qc * Qc) =>
                   (fst p <= snd p)%Qc /\
                   forall x, In x (firstn (Z.to_nat i) (X (base s))) ->
                             (fst p <= x)%Qc /\ (x <= snd p)%Qc)
                _ _ _ _ _ H) as Hinv.
  cbn [fst snd] in Hinv.
  destruct Hinv as [Hle Hall].
  - split; [apply Qcle_refl |].
    intros x Hx. change (Z.to_nat 1) with (Z.to_nat (0 + 1)) in Hx.
    rewrite (firstn_vec_at _ _ Hx0) in Hx. cbn in Hx.
    destruct Hx as [<- | []]. split; apply Qcle_refl.
  - intros i [l h] p' Hi (Hle & Hall) Hbody. cbn [fst snd] in *.
    destruct (vec_at (X (base s)) i) as [xi | e] eqn:Hxi; [| discriminate].
    cbn [bind] in Hbody. injection Hbody as <-.
    rewrite (firstn_vec_at _ _ Hxi).
    qc_ops.
    destruct (Qc_ltb xi l) eqn:H1; [| destruct (Qc_ltb h xi) eqn:H2];
      cbn [fst snd]; qc_tests.
    + split; [eapply Qcle_trans; [apply Qclt_le_weak; exact H1 | exact Hle] |].
      intros x Hx. apply in_app_or in Hx. destruct Hx as [Hx | [<- | []]].
      * destruct (Hall x Hx) as [Hl Hh]. split; [| exact Hh].
        eapply Qcle_trans; [apply Qclt_le_weak; exact H1 | exact Hl].
      * split; [apply Qcle_refl |].
        eapply Qcle_trans; [apply Qclt_le_weak; exact H1 | exact Hle].
    + split; [eapply Qcle_trans; [exact Hle | apply Qclt_le_weak; exact H2] |].
      intros x Hx. apply in_app_or in Hx. destruct Hx as [Hx | [<- | []]].
      * destruct (Hall x Hx) as [Hl Hh]. split; [exact Hl |].
        eapply Qcle_trans; [exact Hh | apply Qclt_le_weak; exact H2].
      * split; [| apply Qcle_refl].
        eapply Qcle_trans; [exact Hle | apply Qclt_le_weak; exact H2].
    + split; [exact Hle |].
      intros x Hx. apply in_app_or in Hx. destruct Hx as [Hx | [<- | []]].
      * now apply Hall.
      * now split.
  - split; [exact Hle |].
    intros x Hx. apply Hall.
    destruct (Z_le_gt_dec (NX s) 1) as [Hsmall | Hbig].
    + replace (Z.max 1 (NX s - 1 + 1)) with 1 by lia.
      destruct (Z.to_nat (NX s)) as [| [| n]] eqn:Hn; try lia.
      * destruct Hx.
      * exact Hx.
    + now replace (Z.max 1 (NX s - 1 + 1)) with (NX s) by lia.
Qed.

(** A call of [Setup] that returns nonzero for a positive wavelength
    leaves a valid domain. *)
Lemma Setup_valid_domain (fuel : nat) (s : BSplineBase Qc) (ret : Z)
  (s' : BSplineBase Qc) :
  Setup fuel s = Ok (ret, s') -> ret <> 0 ->
  0 <= BC s <= 2 ->
  0 <= NX s <= Z.of_nat (length (X (base s))) ->
  (Q2Qc 0 < waveLength s)%Qc ->
  valid_domain s'.
Proof.
  intros H Hret HBC HNX Hwl.
  destruct (Setup_inv _ _ H) as (lo & hi & Hb & [(H0 & _) | (_ & Hspan & Hrun)]);
    [contradiction |].
  destruct Hrun as (n1 & m & Hgrow & Htw & ->).
  pose proof (tweaks_to_lower Htw) as Hm.
  assert (Hn1 : 9 < n1) by apply Hgrow.
  destruct (Setup_bounds_Qc s Hb) as [Hle Hall].
  qc_ops. qc_tests.
  assert (Hmpos : (0 < inject_Z m)%Q).
  { change 0%Q with (inject_Z 0). rewrite <- Zlt_Qlt. lia. }
  assert (HDX : (Q2Qc 0 < (hi - lo) / Q2Qc (inject_Z m))%Qc).
  { unfold Qclt, Qcle in *. qc_all.
    apply Qlt_shift_div_l; [exact Hmpos | lra]. }
  unfold valid_domain.
  cbn [BC NX M DX X base xmin with_grid with_bounds].
  split; [exact HBC |]. split; [lia |]. split; [exact HNX |].
  split; [exact HDX |].
  intros x Hx. destruct (Hall x Hx) as [Hl Hh]. split; [exact Hl |].
  unfold node. cbn [xmin DX with_grid with_bounds xmax]. qc_ops.
  change (Ratio_deltax (with_bounds s lo hi) m)
    with ((hi - lo) / Q2Qc (inject_Z m))%Qc.
  replace (lo + Q2Qc (inject_Z m) * ((hi - lo) / Q2Qc (inject_Z m)))%Qc
    with hi; [exact Hh |].
  qc_all. field. lra.
Qed.

(* ================================================================== *)
(** * 20. The example domain *)
(* ================================================================== *)

Lemma example_domain_Setup :
  Setup 2 (loaded (samples 11) 4 blank) = Ok (1, example_domain).
Proof. vm_compute. reflexivity. Qed.

Lemma example_domain_valid : valid_domain example_domain.
Proof.
  apply (@Setup_valid_domain _ _ _ _ example_domain_Setup).
  - discriminate.
  - vm_compute. split; discriminate.
  - vm_compute. split; discriminate.
  - vm_compute. reflexivity.
Qed.

Lemma Qc_fadd_zero : fadd (fzero : Qc) fzero = fzero.
Proof. apply Qc_is_canon. reflexivity. Qed.

Lemma assembled_Q_symmetric_banded_witness :
  0 <= BC example_domain <= 2 /\
  4 <= M example_domain /\
  NX example_domain <= Z.of_nat (length (X (base example_domain))) /\
  exists s1 s2,
    calculateQ example_qdelta example_Beta_sub example_domain = Ok s1 /\
    addP 2 s1 = Ok s2 /\
    cell (Q (base s2)) 2 5 = cell (Q (base s2)) 5 2 /\
    cell (Q (base s2)) 1 5 = Q2Qc 0.
Proof.
  assert (HBC : 0 <= BC example_domain <= 2) by (vm_compute; split; discriminate).
  assert (HM : 4 <= M example_domain) by (vm_compute; discriminate).
  assert (HNX : NX example_domain
                <= Z.of_nat (length (X (base example_domain))))
    by (vm_compute; discriminate).
  split; [exact HBC |]. split; [exact HM |]. split; [exact HNX |].
  destruct (@assembled_Q_symmetric_banded Qc Qc_Arith Qc_fadd_zero
              example_qdelta example_Beta_sub 0 example_domain HBC HM HNX)
    as (s1 & s2 & H1 & H2 & _ & _ & Hsym & Hband).
  exists s1, s2. split; [exact H1 |]. split; [exact H2 |]. split.
  - apply Hsym; vm_compute; split; discriminate.
  - apply Hband; vm_compute; try split; try discriminate; reflexivity.
Defined.



(* ================================================================== *)
(** * 21. [evaluate] and [curve] *)
(* ================================================================== *)

Section EvaluateCurve.
Context {F : Type} {AF : Arith F}.
Implicit Types sp : BSpline F.

Lemma seq_map_snoc (n : nat) :
  map Z.of_nat (seq 0 (S n)) = map Z.of_nat (seq 0 n) ++ [Z.of_nat n].
Proof. now rewrite seq_S, map_app. Qed.

(** [evaluate] returns the weighted sum. *)
Lemma evaluate_Ok (fuel : nat) sp (x : F) :
  0 <= BC (domain sp) <= 2 -> 3 <= M (domain sp) ->
  M (domain sp) + 1 <= dim (A (s sp)) ->
  evaluate (S (S fuel)) sp x = Ok (weighted_sum sp x).
Proof.
  intros HBC HM Hdim. unfold evaluate.
  match goal with
  | |- for_ZM ?lo ?hi ?body ?z = _ =>
      destruct (@for_ZM_inv _
                  (fun i y =>
                     y = fold_left
                           (fun y i =>
                              fadd y (fmul (elt (A (s sp)) i)
                                        (Basis_val (domain sp) i x)))
                           (map Z.of_nat (seq 0 (Z.to_nat i))) fzero)
                  lo hi body z) as (v & Hv & Hsum)
  end.
  - reflexivity.
  - intros i y Hi ->. unfold vget.
    replace ((0 <=? i) && (i <? dim (A (s sp)))) with true
      by (symmetry; apply andb_true_iff; split;
          [apply Z.leb_le | apply Z.ltb_lt]; lia).
    cbn [bind].
    rewrite (Basis_Ok (domain sp) fuel x HBC HM (m := i)) by lia.
    cbn [bind]. eexists. split; [reflexivity |].
    replace (Z.to_nat (i + 1)) with (S (Z.to_nat i)) by lia.
    rewrite seq_map_snoc, fold_left_app. cbn [fold_left].
    now rewrite Z2Nat.id by lia.
  - rewrite Hv, Hsum. unfold weighted_sum.
    now replace (Z.max 0 (M (domain sp) + 1)) with (M (domain sp) + 1) by lia.
Qed.

(** C8.  For a fitted spline whose curve has not been computed yet, the
    first call of [curve] returns an array of [M + 1] values whose entry
    [n] is [evaluate (xmin + n * DX)], and [evaluate (x)] is the weighted
    sum of the [A[i] * basis (i, x)], [i] from 0 to [M]; the call stores
    the array, and every later call returns the stored array and leaves
    the object as it is, without calling [evaluate]: it returns even with
    no fuel at all. *)
Theorem curve_samples_evaluate (fuel : nat) sp :
  0 <= BC (domain sp) <= 2 ->
  3 <= M (domain sp) ->
  M (domain sp) + 1 <= dim (A (s sp)) ->
  spline (s sp) = [] ->
  exists data sp1,
    curve (S (S fuel)) sp = Ok (data, M (domain sp) + 1, sp1) /\
    Z.of_nat (length data) = M (domain sp) + 1 /\
    (forall n, 0 <= n <= M (domain sp) ->
       exists e,
         evaluate (S (S fuel)) sp (node (domain sp) n) = Ok e /\
         e = weighted_sum sp (node (domain sp) n) /\
         nth_error data (Z.to_nat n) = Some e) /\
    domain sp1 = domain sp /\ A (s sp1) = A (s sp) /\
    spline (s sp1) = data /\
    forall fuel', curve fuel' sp1 = Ok (data, M (domain sp) + 1, sp1).
Proof.
  intros HBC HM Hdim Hfresh. unfold curve at 1. rewrite Hfresh.
  cbn [length Z.of_nat Z.eqb].
  match goal with
  | |- context [for_ZM ?lo ?hi ?body ?z] =>
      destruct (@for_ZM_inv _
                  (fun n v =>
                     Z.of_nat (length v) = n /\
                     forall k, 0 <= k < n ->
                       nth_error v (Z.to_nat k)
                       = Some (weighted_sum sp (node (domain sp) k)))
                  lo hi body z) as (v & Hv & Hlen & Hnth)
  end.
  - split; [reflexivity |]. intros k Hk. lia.
  - intros n v Hn (Hlen & Hnth). cbv beta.
    change (fadd (xmin (domain sp)) (fmul (fofZ n) (DX (domain sp))))
      with (node (domain sp) n).
    rewrite (evaluate_Ok fuel sp _ HBC HM Hdim). cbn [bind].
    eexists. split; [reflexivity |]. split.
    + rewrite length_app. cbn [length]. lia.
    + intros k Hk. destruct (Z.eq_dec k n) as [-> | Hne].
      * rewrite nth_error_app2 by lia.
        replace (Z.to_nat n - length v)%nat with O by lia. reflexivity.
      * rewrite nth_error_app1 by lia. apply Hnth. lia.
  - rewrite Hv. cbn [bind s spline domain].
    replace (Z.max 0 (M (domain sp) + 1)) with (M (domain sp) + 1) in * by lia.
    rewrite Hlen.
    exists v. eexists. split; [reflexivity |].
    split; [exact Hlen |]. split.
    { intros n Hn. exists (weighted_sum sp (node (domain sp) n)).
      split; [apply evaluate_Ok; assumption |].
      split; [reflexivity | apply Hnth; lia]. }
    split; [reflexivity |]. split; [reflexivity |]. split; [reflexivity |].
    intros fuel'. unfold curve. cbn [s spline domain].
    replace (Z.of_nat (length v) =? 0) with false
      by (symmetry; apply Z.eqb_neq; lia).
    cbn [bind s spline]. now rewrite Hlen.
Qed.
End EvaluateCurve.

(* ================================================================== *)
(** * 22. Finite sums over a range of integers *)
(* ================================================================== *)

Section Sums.
Local Open Scope Qc_scope.

Lemma sumZ_empty (lo hi : Z) (f : Z -> Qc) : (hi < lo)%Z -> sumZ lo hi f = 0.
Proof. intros H. unfold sumZ. now rewrite for_Z_empty. Qed.

Lemma sumZ_last (lo hi : Z) (f : Z -> Qc) :
  (lo <= hi)%Z -> sumZ lo hi f = sumZ lo (hi - 1) f + f hi.
Proof. intros H. unfold sumZ. now rewrite for_Z_last. Qed.

(** Induction on the length of the range. *)
Lemma sumZ_range_ind (P : Z -> Prop) (lo : Z) :
  (forall hi, (hi < lo)%Z -> P hi) ->
  (forall hi, (lo <= hi)%Z -> P (hi - 1)%Z -> P hi) ->
  forall hi, P hi.
Proof.
  intros Hbase Hstep hi.
  destruct (Z_lt_le_dec hi lo) as [Hlt | Hle]; [now apply Hbase |].
  replace hi with (lo + Z.of_nat (Z.to_nat (hi - lo)))%Z by lia.
  induction (Z.to_nat (hi - lo)) as [| n IH].
  - apply Hstep; [lia |]. apply Hbase. lia.
  - apply Hstep; [lia |].
    now replace (lo + Z.of_nat (S n) - 1)%Z with (lo + Z.of_nat n)%Z by lia.
Qed.

Lemma sumZ_ext (lo hi : Z) (f g : Z -> Qc) :
  (forall t, (lo <= t <= hi)%Z -> f t = g t) -> sumZ lo hi f = sumZ lo hi g.
Proof.
  revert hi. apply (@sumZ_range_ind
    (fun hi => (forall t, (lo <= t <= hi)%Z -> f t = g t) ->
               sumZ lo hi f = sumZ lo hi g) lo).
  - intros hi Hlt _. now rewrite !sumZ_empty.
  - intros hi Hle IH H. rewrite !(@sumZ_last lo hi) by assumption.
    rewrite IH, (H hi) by (try intros t Ht; try apply H; lia). reflexivity.
Qed.

Lemma sumZ_zero (lo hi : Z) (f : Z -> Qc) :
  (forall t, (lo <= t <= hi)%Z -> f t = 0) -> sumZ lo hi f = 0.
Proof.
  revert hi. apply (@sumZ_range_ind
    (fun hi => (forall t, (lo <= t <= hi)%Z -> f t = 0) -> sumZ lo hi f = 0) lo).
  - intros hi Hlt _. now rewrite sumZ_empty.
  - intros hi Hle IH H. rewrite (@sumZ_last lo hi) by assumption.
    rewrite IH, (H hi) by (try intros t Ht; try apply H; lia). ring.
Qed.

Lemma sumZ_plus (lo hi : Z) (f g : Z -> Qc) :
  sumZ lo hi (fun t => f t + g t) = sumZ lo hi f + sumZ lo hi g.
Proof.
  revert hi. apply (@sumZ_range_ind
    (fun hi => sumZ lo hi (fun t => f t + g t) = sumZ lo hi f + sumZ lo hi g) lo).
  - intros hi Hlt. rewrite !sumZ_empty by assumption. ring.
  - intros hi Hle IH. rewrite !(@sumZ_last lo hi) by assumption. rewrite IH. ring.
Qed.

Lemma sumZ_scale (lo hi : Z) (c : Qc) (f : Z -> Qc) :
  sumZ lo hi (fun t => c * f t) = c * sumZ lo hi f.
Proof.
  revert hi. apply (@sumZ_range_ind
    (fun hi => sumZ lo hi (fun t => c * f t) = c * sumZ lo hi f) lo).
  - intros hi Hlt. rewrite !sumZ_empty by assumption. ring.
  - intros hi Hle IH. rewrite !(@sumZ_last lo hi) by assumption. rewrite IH. ring.
Qed.

Lemma sumZ_split (lo k hi : Z) (f : Z -> Qc) :
  (lo <= k + 1)%Z -> (k <= hi)%Z ->
  sumZ lo hi f = sumZ lo k f + sumZ (k + 1) hi f.
Proof.
  intros Hlo. revert hi. apply (@sumZ_range_ind
    (fun hi => (k <= hi)%Z -> sumZ lo hi f = sumZ lo k f + sumZ (k + 1) hi f)
    (k + 1)%Z).
  - intros hi Hlt Hk. replace hi with k by lia.
    rewrite (@sumZ_empty (k + 1)%Z k) by lia. ring.
  - intros hi Hle IH Hk. rewrite (@sumZ_last lo hi), (@sumZ_last (k + 1)%Z hi) by lia.
    rewrite IH by lia. ring.
Qed.

Lemma sumZ_first (lo hi : Z) (f : Z -> Qc) :
  (lo <= hi)%Z -> sumZ lo hi f = f lo + sumZ (lo + 1) hi f.
Proof.
  intros H. rewrite (@sumZ_split lo lo hi) by lia.
  rewrite (@sumZ_last lo lo), sumZ_empty by lia. ring.
Qed.

Lemma sumZ_swap (a b c d : Z) (f : Z -> Z -> Qc) :
  sumZ a b (fun i => sumZ c d (fun j => f i j))
  = sumZ c d (fun j => sumZ a b (fun i => f i j)).
Proof.
  revert b. apply (@sumZ_range_ind
    (fun b => sumZ a b (fun i => sumZ c d (fun j => f i j))
              = sumZ c d (fun j => sumZ a b (fun i => f i j))) a).
  - intros b Hlt. rewrite sumZ_empty by assumption.
    symmetry. apply sumZ_zero. intros j _. now apply sumZ_empty.
  - intros b Hle IH. rewrite (@sumZ_last a b) by assumption. rewrite IH.
    rewrite <- sumZ_plus. apply sumZ_ext. intros j _.
    now rewrite (@sumZ_last a b) by assumption.
Qed.

(** The loops [sum -= A(i,j) * b(j)] subtract a sum. *)
Lemma for_Z_minus_sum (lo hi : Z) (f : Z -> Qc) (init : Qc) :
  for_Z lo hi (fun j sum => sum - f j) init = init - sumZ lo hi f.
Proof.
  revert hi. apply (@sumZ_range_ind
    (fun hi => for_Z lo hi (fun j sum => sum - f j) init
               = init - sumZ lo hi f) lo).
  - intros hi Hlt. rewrite for_Z_empty, sumZ_empty by assumption. ring.
  - intros hi Hle IH. rewrite for_Z_last, (@sumZ_last lo hi) by assumption.
    rewrite IH. ring.
Qed.
End Sums.

(* ================================================================== *)
(** * 23. One column of the elimination, cell by cell *)
(* ================================================================== *)

Lemma transpose_same (a i : Z) : transpose a a i = i.
Proof. unfold transpose. now destruct (Z.eqb_spec i a). Qed.

Lemma transpose_involutive (a b i : Z) : transpose a b (transpose a b i) = i.
Proof.
  unfold transpose.
  destruct (Z.eqb_spec i a) as [-> | Ha].
  - rewrite Z.eqb_refl. now destruct (Z.eqb_spec b a).
  - destruct (Z.eqb_spec i b) as [-> | Hb].
    + now rewrite Z.eqb_refl.
    + destruct (Z.eqb_spec i a); [contradiction |].
      now destruct (Z.eqb_spec i b).
Qed.

Lemma transpose_range (a b i lo hi : Z) :
  lo <= a <= hi -> lo <= b <= hi -> lo <= i <= hi ->
  lo <= transpose a b i <= hi.
Proof. unfold transpose. bool_cases; lia. Qed.

Lemma transpose_fix (a b i : Z) : i <> a -> i <> b -> transpose a b i = i.
Proof. unfold transpose. bool_cases; lia. Qed.

Section EliminateCells.
Context {F : Type} {AF : Arith F}.

(** Lines 96-99. *)
Lemma scale_column_at1 (A : C_matrix F) (j i c : Z) :
  at1 (scale_column A j) i c
  = if (j <? i) && (i <=? num_rows A) && (c =? j)
    then fmul (at1 A i j) (fdiv (flit 1) (at1 A j j))
    else at1 A i c.
Proof.
  unfold scale_column.
  destruct (Z_lt_le_dec (num_rows A) (j + 1)) as [Hshort | Hlong].
  { rewrite for_Z_empty by lia. bool_cases; try reflexivity; lia. }
  revert i c.
  match goal with
  | |- forall i c, at1 (for_Z ?lo ?hi ?body ?A0) _ _ = _ =>
      assert (H : forall i c,
                at1 (for_Z lo hi body A0) i c
                = if (j <? i) && (i <? hi + 1) && (c =? j)
                  then fmul (at1 A i j) (fdiv (flit 1) (at1 A j j))
                  else at1 A i c)
  end.
  { apply (@for_Z_inv _
             (fun k B => forall i c,
                at1 B i c
                = if (j <? i) && (i <? k) && (c =? j)
                  then fmul (at1 A i j) (fdiv (flit 1) (at1 A j j))
                  else at1 A i c)); [lia | |].
    - intros i c. bool_cases; try reflexivity; lia.
    - intros k B Hk HB i c. rewrite at1_set1, !HB.
      bool_cases; try reflexivity; try lia; subst; reflexivity. }
  intros i c. rewrite H. bool_cases; try reflexivity; lia.
Qed.

(** Lines 113-115. *)
Lemma rank1_update_at1 (A : C_matrix F) (j i c : Z) :
  at1 (rank1_update A j) i c
  = if (j <? i) && (i <=? num_rows A) && (j <? c) && (c <=? num_cols A)
    then fsub (at1 A i c) (fmul (at1 A i j) (at1 A j c))
    else at1 A i c.
Proof.
  unfold rank1_update.
  destruct (Z_lt_le_dec (num_rows A) (j + 1)) as [Hshort | Hlong].
  { rewrite for_Z_empty by lia. bool_cases; try reflexivity; lia. }
  revert i c.
  match goal with
  | |- forall i c, at1 (for_Z ?lo ?hi ?body ?A0) _ _ = _ =>
      assert (H : num_cols (for_Z lo hi body A0) = num_cols A /\
                forall i c,
                at1 (for_Z lo hi body A0) i c
                = if (j <? i) && (i <? hi + 1) && (j <? c)
                     && (c <=? num_cols A)
                  then fsub (at1 A i c) (fmul (at1 A i j) (at1 A j c))
                  else at1 A i c)
  end.
  { apply (@for_Z_inv _
             (fun ii B =>
                num_cols B = num_cols A /\
                forall i c,
                  at1 B i c
                  = if (j <? i) && (i <? ii) && (j <? c) && (c <=? num_cols A)
                    then fsub (at1 A i c) (fmul (at1 A i j) (at1 A j c))
                    else at1 A i c)); [lia | |].
    - split; [reflexivity |].
      intros i c. bool_cases; try reflexivity; lia.
    - intros ii B Hii [HcB HB].
      destruct (Z_lt_le_dec (num_cols B) (j + 1)) as [Hnarrow | Hwide].
      { rewrite for_Z_empty by lia. split; [exact HcB |].
        intros i c. rewrite HB. bool_cases; try reflexivity; lia. }
      match goal with
      | |- num_cols (for_Z ?lo ?hi ?body ?B0) = _ /\ _ =>
          assert (H : num_cols (for_Z lo hi body B0) = num_cols A /\
                    forall i c,
                    at1 (for_Z lo hi body B0) i c
                    = if ((j <? i) && (i <? ii) && (j <? c)
                          && (c <=? num_cols A))
                         || ((i =? ii) && (j <? c) && (c <? hi + 1))
                      then fsub (at1 A i c) (fmul (at1 A i j) (at1 A j c))
                      else at1 A i c)
      end.
      { apply (@for_Z_inv _
                 (fun jj C =>
                    num_cols C = num_cols A /\
                    forall i c,
                      at1 C i c
                      = if ((j <? i) && (i <? ii) && (j <? c)
                            && (c <=? num_cols A))
                           || ((i =? ii) && (j <? c) && (c <? jj))
                        then fsub (at1 A i c) (fmul (at1 A i j) (at1 A j c))
                        else at1 A i c)); [lia | |].
        - split; [exact HcB |].
          intros i c. rewrite HB. bool_cases; try reflexivity; lia.
        - intros jj C Hjj [HcC HC]. split; [exact HcC |].
          intros i c. rewrite at1_set1, !HC.
          destruct (Z.eqb_spec i ii) as [-> | Hi];
            destruct (Z.eqb_spec c jj) as [-> | Hc]; cbn [andb orb];
            bool_cases; try reflexivity; lia. }
      destruct H as [Hc H]. split; [exact Hc |].
      intros i c. rewrite H, HcB. bool_cases; try reflexivity; lia. }
  destruct H as [_ H].
  intros i c. rewrite H. bool_cases; try reflexivity; lia.
Qed.

(** Lines 83-116 on a square matrix of order [n]: the rows [j] and [jp]
    change places, the rows below [j] are divided by the pivot in column
    [j] and reduced by a multiple of row [j] to the right of it. *)
Lemma eliminate_at1 (A : C_matrix F) (n j jp i c : Z) :
  square_of A n -> 1 <= j <= n -> 1 <= c <= n ->
  at1 (eliminate A j jp) i c
  = let a r k := at1 A (transpose j jp r) k in
    let l := fmul (a i j) (fdiv (flit 1) (a j j)) in
    if (j <? i) && (i <=? n)
    then if c =? j then l
         else if j <? c then fsub (a i c) (fmul l (a j c))
         else a i c
    else a i c.
Proof.
  intros [Hr Hc] Hj Hcn. cbn zeta. unfold eliminate.
  set (A1 := if jp =? j then A else swap_rows A j jp).
  assert (Hdims : same_dims A A1).
  { subst A1. destruct (jp =? j); [split; reflexivity | apply swap_rows_dims]. }
  destruct Hdims as [Hr1 Hc1].
  assert (HA1 : forall r k, 1 <= k <= n ->
                  at1 A1 r k = at1 A (transpose j jp r) k).
  { intros r k Hk. subst A1. destruct (Z.eqb_spec jp j) as [-> | Hne].
    - now rewrite transpose_same.
    - rewrite swap_rows_at1 by lia. unfold transpose.
      bool_cases; try reflexivity; lia. }
  set (A2 := if j <? num_rows A then scale_column A1 j else A1).
  assert (Hdims2 : same_dims A A2).
  { subst A2. destruct (j <? num_rows A); [| now split].
    destruct (scale_column_dims A1 j). split; congruence. }
  destruct Hdims2 as [Hr2 Hc2].
  assert (HA2 : forall r k,
             at1 A2 r k
             = if (j <? r) && (r <=? n) && (k =? j)
               then fmul (at1 A1 r j) (fdiv (flit 1) (at1 A1 j j))
               else at1 A1 r k).
  { intros r k. subst A2. destruct (Z.ltb_spec j (num_rows A)).
    - rewrite scale_column_at1, Hr1, Hr. reflexivity.
    - bool_cases; try reflexivity; lia. }
  assert (HA3 : at1 (if j <? Z.min (num_rows A) (num_cols A)
                     then rank1_update A2 j else A2) i c
                = if (j <? i) && (i <=? n) && (j <? c) && (c <=? n)
                  then fsub (at1 A2 i c) (fmul (at1 A2 i j) (at1 A2 j c))
                  else at1 A2 i c).
  { destruct (Z.ltb_spec j (Z.min (num_rows A) (num_cols A))).
    - rewrite rank1_update_at1, Hr2, Hc2, Hr, Hc. reflexivity.
    - bool_cases; try reflexivity; lia. }
  rewrite HA3, !HA2, !HA1 by lia.
  bool_cases; try reflexivity; lia.
Qed.
End EliminateCells.

(* ================================================================== *)
(** * 24. [LU_factor_banded] factors the matrix *)
(* ================================================================== *)

Section Factorisation.
Local Open Scope Qc_scope.

Variable A0 : C_matrix Qc.
Variable n : Z.

Lemma LU_partial_start : square_of A0 n -> LU_partial A0 n 0 A0 (fun i => i).
Proof.
  intros Hsq. split; [exact Hsq |]. split; [intros i Hi; exact Hi |].
  split; [intros r Hr; now exists r |].
  split; [intros t Ht; lia |].
  intros i c Hi Hc. rewrite sumZ_empty by lia.
  replace (Z.min i (0 + 1) <=? c)%Z with true
    by (symmetry; apply Z.leb_le; lia).
  ring.
Qed.

Lemma LU_partial_ext (k : Z) (A : C_matrix Qc) (src src' : Z -> Z) :
  (forall i, src i = src' i) ->
  LU_partial A0 n k A src -> LU_partial A0 n k A src'.
Proof.
  intros Hext (Hsq & Hrange & Hsurj & Hdiag & Heq).
  split; [exact Hsq |]. split; [| split; [| split; [exact Hdiag |]]].
  - intros i Hi. rewrite <- Hext. now apply Hrange.
  - intros r Hr. destruct (Hsurj r Hr) as (i & Hi & Hs).
    exists i. split; [exact Hi |]. now rewrite <- Hext.
  - intros i c Hi Hc. rewrite <- Hext. now apply Heq.
Qed.

(** One column. *)
Lemma LU_partial_step (j jp : Z) (A : C_matrix Qc) (src : Z -> Z) :
  LU_partial A0 n (j - 1) A src ->
  (1 <= j <= n)%Z -> (j <= jp <= n)%Z ->
  at1 A jp j <> 0 ->
  LU_partial A0 n j (eliminate A j jp) (fun i => src (transpose j jp i)).
Proof.
  intros (Hsq & Hrange & Hsurj & Hdiag & Heq) Hj Hjp Hpivot.
  assert (Htau : forall i, (1 <= i <= n)%Z -> (1 <= transpose j jp i <= n)%Z)
    by (intros i Hi; apply transpose_range; lia).
  pose (a := fun r k => at1 A (transpose j jp r) k).
  assert (Hajj : a j j = at1 A jp j).
  { unfold a, transpose. now rewrite Z.eqb_refl. }
  assert (HE : forall i c, (1 <= c <= n)%Z ->
             at1 (eliminate A j jp) i c
             = if ((j <? i) && (i <=? n))%Z
               then if (c =? j)%Z then a i j * (1 / a j j)
                    else if (j <? c)%Z
                         then a i c - a i j * (1 / a j j) * a j c
                         else a i c
               else a i c).
  { intros i c Hc. now rewrite (eliminate_at1 jp i Hsq Hj Hc). }
  assert (Hlow : forall t c, (1 <= t < j)%Z -> a t c = at1 A t c).
  { intros t c Ht. unfold a. now rewrite transpose_fix by lia. }
  split; [| split; [| split; [| split]]].
  - destruct (eliminate_dims A j jp) as [Hr Hc]. destruct Hsq.
    split; congruence.
  - intros i Hi. apply Hrange. now apply Htau.
  - intros r Hr. destruct (Hsurj r Hr) as (i & Hi & Hs).
    exists (transpose j jp i). split; [now apply Htau |].
    now rewrite transpose_involutive.
  - intros t Ht. rewrite HE by lia.
    replace ((j <? t) && (t <=? n))%Z with false
      by (symmetry; apply andb_false_iff; left; apply Z.ltb_ge; lia).
    destruct (Z.eq_dec t j) as [-> | Hne].
    + now rewrite Hajj.
    + rewrite Hlow by lia. apply Hdiag. lia.
  - intros i c Hi Hc.
    rewrite (Heq (transpose j jp i) c (Htau i Hi) Hc).
    fold (a i c).
    (* the multipliers left of column j and the rows above row j + 1 *)
    assert (Hterm : forall t, (1 <= t < j)%Z ->
              at1 (eliminate A j jp) i t * at1 (eliminate A j jp) t c
              = at1 A (transpose j jp i) t * at1 A t c).
    { intros t Ht. rewrite !HE by lia.
      replace ((j <? t) && (t <=? n))%Z with false
        by (symmetry; apply andb_false_iff; left; apply Z.ltb_ge; lia).
      rewrite (Hlow t c Ht).
      replace (t =? j)%Z with false by (symmetry; apply Z.eqb_neq; lia).
      replace (j <? t)%Z with false by (symmetry; apply Z.ltb_ge; lia).
      now destruct ((j <? i) && (i <=? n))%Z. }
    assert (Hrowj : forall k, (1 <= k <= n)%Z ->
              at1 (eliminate A j jp) j k = a j k).
    { intros k Hk. rewrite HE by lia.
      now replace ((j <? j) && (j <=? n))%Z with false
        by (symmetry; apply andb_false_iff; left; apply Z.ltb_ge; lia). }
    destruct (Z_le_gt_dec i j) as [Hle | Hgt].
    + (* a row that is not below the pivot is not changed *)
      assert (Hrow : at1 (eliminate A j jp) i c = a i c).
      { rewrite HE by lia.
        now replace ((j <? i) && (i <=? n))%Z with false
          by (symmetry; apply andb_false_iff; left; apply Z.ltb_ge; lia). }
      assert (Hti : (i = j /\ j <= transpose j jp i)%Z
                    \/ (i < j)%Z /\ transpose j jp i = i).
      { destruct (Z.eq_dec i j) as [-> | Hne].
        - left. unfold transpose. rewrite Z.eqb_refl. lia.
        - right. split; [lia |]. apply transpose_fix; lia. }
      replace (Z.min j (Z.min (i - 1) c))
        with (Z.min (j - 1) (Z.min (transpose j jp i - 1) c)) by lia.
      replace (Z.min i (j + 1)) with (Z.min (transpose j jp i) (j - 1 + 1))
        by lia.
      rewrite Hrow. f_equal.
      apply sumZ_ext. intros t Ht. symmetry. apply Hterm. lia.
    + (* a row below the pivot *)
      assert (Hti : (j <= transpose j jp i)%Z).
      { unfold transpose. bool_cases; lia. }
      replace (Z.min (j - 1) (Z.min (transpose j jp i - 1) c))
        with (Z.min (j - 1) c) by lia.
      replace (Z.min (transpose j jp i) (j - 1 + 1)) with j by lia.
      replace (Z.min j (Z.min (i - 1) c)) with (Z.min j c) by lia.
      replace (Z.min i (j + 1)) with (j + 1)%Z by lia.
      assert (Hin : ((j <? i) && (i <=? n))%Z = true)
        by (apply andb_true_iff; split; [apply Z.ltb_lt | apply Z.leb_le]; lia).
      destruct (Z_lt_le_dec c j) as [Hcj | Hcj].
      * replace (Z.min (j - 1) c) with c by lia.
        replace (Z.min j c) with c by lia.
        replace (j <=? c)%Z with false by (symmetry; apply Z.leb_gt; lia).
        replace (j + 1 <=? c)%Z with false by (symmetry; apply Z.leb_gt; lia).
        f_equal. apply sumZ_ext. intros t Ht. symmetry. apply Hterm. lia.
      * replace (Z.min (j - 1) c) with (j - 1)%Z by lia.
        replace (Z.min j c) with j by lia.
        replace (j <=? c)%Z with true by (symmetry; apply Z.leb_le; lia).
        rewrite (@sumZ_last 1 j) by lia.
        rewrite (@sumZ_ext 1%Z (j - 1)%Z
                   (fun t => at1 (eliminate A j jp) i t
                             * at1 (eliminate A j jp) t c)
                   (fun t => at1 A (transpose j jp i) t * at1 A t c))
          by (intros t Ht; apply Hterm; lia).
        rewrite (Hrowj c Hc). rewrite !HE by lia. rewrite Hin, Z.eqb_refl.
        destruct (Z.eq_dec c j) as [-> | Hne].
        -- rewrite Z.eqb_refl.
           replace (j + 1 <=? j)%Z with false by (symmetry; apply Z.leb_gt; lia).
           field. now rewrite Hajj.
        -- replace (c =? j)%Z with false by (symmetry; apply Z.eqb_neq; lia).
           replace (j <? c)%Z with true by (symmetry; apply Z.ltb_lt; lia).
           replace (j + 1 <=? c)%Z with true by (symmetry; apply Z.leb_le; lia).
           field. now rewrite Hajj.
Qed.
End Factorisation.

Section PivotRange.
Context {F : Type} {AF : Arith F}.

(** The pivot row is never above [j] and never below the last row. *)
Lemma find_pivot_range (A : C_matrix F) (j bands : Z) :
  j <= num_rows A ->
  j <= find_pivot A j bands <= num_rows A.
Proof.
  intros Hj. unfold find_pivot.
  set (hi := Z.min (j + bands) (num_rows A)).
  destruct (Z_lt_le_dec hi j) as [Hempty | Hsome].
  { rewrite for_Z_empty by lia. cbn [fst]. lia. }
  assert (H : j <= fst (for_Z (j + 1) hi (pivot_step A j)
                          (j, fabs (at1 A j j))) < hi + 1).
  { apply (@for_Z_inv _ (fun i (st : Z * F) => j <= fst st < i)); [lia | |].
    - cbn [fst]. lia.
    - intros k [jp t] Hk Hjp. cbn [fst] in Hjp. unfold pivot_step.
      destruct (fltb t (fabs (at1 A k j))); cbn [fst]; lia. }
  lia.
Qed.
End PivotRange.

Lemma row_source_ext (ix ix' : Vector Z) :
  forall (k : nat),
    (forall t, 1 <= t <= Z.of_nat k -> vat1 ix t = vat1 ix' t) ->
    forall i, row_source ix k i = row_source ix' k i.
Proof.
  induction k as [| k IH]; intros H i; [reflexivity |].
  cbn [row_source]. rewrite (H (Z.of_nat (S k))) by lia.
  apply IH. intros t Ht. apply H. lia.
Qed.

Section FactorisationRun.
Variable A0 : C_matrix Qc.
Variable n : Z.
Variable bands : Z.

(** The loop over the columns, from column [j] on. *)
Lemma LU_columns_partial :
  forall (cnt : nat) (j : Z) (A : C_matrix Qc) (indx : Vector Z)
         (A' : C_matrix Qc) (indx' : Vector Z),
    1 <= j -> j + Z.of_nat cnt = n + 1 ->
    LU_partial A0 n (j - 1) A (row_source indx (Z.to_nat (j - 1))) ->
    LU_columns cnt j bands A indx = (0, A', indx') ->
    LU_partial A0 n n A' (row_source indx' (Z.to_nat n)).
Proof.
  induction cnt as [| cnt IH]; intros j A indx A' indx' Hj Hcnt Hinv Hrun.
  - cbn [LU_columns] in Hrun. injection Hrun as <- <-.
    now replace n with (j - 1) at 2 3 by lia.
  - cbn [LU_columns] in Hrun.
    set (jp := find_pivot A j bands) in *.
    destruct (feqb (at1 A jp j) fzero) eqn:Hp; [discriminate |].
    qc_ops. qc_tests.
    pose proof Hinv as ([HrA HcA] & _).
    assert (Hjp : j <= jp <= n).
    { subst jp. rewrite <- HrA. apply find_pivot_range. lia. }
    apply (IH (j + 1) (eliminate A j jp) (vset1 indx j jp) A' indx'
             ltac:(lia) ltac:(lia)); [| exact Hrun].
    replace (j + 1 - 1) with j by lia.
    apply LU_partial_ext
      with (src := fun i => row_source indx (Z.to_nat (j - 1))
                              (transpose j jp i)).
    + intros i.
      replace (Z.to_nat j) with (S (Z.to_nat (j - 1))) by lia.
      cbn [row_source].
      replace (Z.of_nat (S (Z.to_nat (j - 1)))) with j by lia.
      rewrite vat1_vset1, Z.eqb_refl.
      apply row_source_ext. intros t Ht. rewrite vat1_vset1.
      destruct (Z.eqb_spec t j); [lia | reflexivity].
    + apply LU_partial_step; [exact Hinv | lia | exact Hjp | exact Hp].
Qed.

(** A factorisation that returns 0 has factored the matrix. *)
Lemma LU_factor_banded_partial (indx : Vector Z) (LUm : C_matrix Qc)
  (ix : Vector Z) :
  square_of A0 n -> 0 <= n ->
  LU_factor_banded A0 indx bands = (0, LUm, ix) ->
  LU_partial A0 n n LUm (row_source ix (Z.to_nat n)).
Proof.
  intros Hsq Hn Hrun. pose proof Hsq as [Hr Hc].
  unfold LU_factor_banded in Hrun. rewrite Hr, Hc in Hrun.
  destruct (Z.eqb_spec n 0) as [-> | Hn0]; cbn [orb] in Hrun.
  - injection Hrun as <- <-. now apply LU_partial_start.
  - rewrite Z.min_id in Hrun.
    apply (@LU_columns_partial (Z.to_nat n) 1 A0 _ LUm ix
             ltac:(lia) ltac:(lia)) in Hrun; [exact Hrun |].
    now apply LU_partial_start.
Qed.
End FactorisationRun.

(* ================================================================== *)
(** * 25. [LU_solve] solves the factored system *)
(* ================================================================== *)

Section SolveSteps.
Local Open Scope Qc_scope.

(** The row exchanges, applied to the right-hand side. *)
Lemma LU_solve_permute_at (ix : Vector Z) (b : Vector Qc) :
  (0 <= dim b)%Z ->
  dim (LU_solve_permute ix b) = dim b /\
  forall r, vat1 (LU_solve_permute ix b) r
            = vat1 b (row_source ix (Z.to_nat (dim b)) r).
Proof.
  intros Hn. unfold LU_solve_permute.
  assert (H : dim (for_Z 1 (dim b)
                     (fun i v =>
                        let ip := vat1 ix i in
                        let t := vat1 v i in
                        let v := vset1 v i (vat1 v ip) in vset1 v ip t) b)
              = dim b /\
              forall r,
                vat1 (for_Z 1 (dim b)
                        (fun i v =>
                           let ip := vat1 ix i in
                           let t := vat1 v i in
                           let v := vset1 v i (vat1 v ip) in vset1 v ip t) b) r
                = vat1 b (row_source ix (Z.to_nat (dim b + 1 - 1)) r)).
  { apply (@for_Z_inv _
             (fun i v =>
                dim v = dim b /\
                forall r, vat1 v r
                          = vat1 b (row_source ix (Z.to_nat (i - 1)) r)));
      [lia | |].
    - split; reflexivity.
    - intros i v Hi [Hdim Hv]. cbn zeta. split; [exact Hdim |].
      intros r. rewrite !vat1_vset1, !Hv.
      replace (Z.to_nat (i + 1 - 1)) with (S (Z.to_nat (i - 1))) by lia.
      cbn [row_source].
      replace (Z.of_nat (S (Z.to_nat (i - 1)))) with i by lia.
      unfold transpose.
      destruct (Z.eqb_spec r i) as [Hri | Hri];
        destruct (Z.eqb_spec r (vat1 ix i)) as [Hrp | Hrp];
        try reflexivity; congruence. }
  destruct H as [Hdim H]. split; [exact Hdim |].
  intros r. rewrite H. now replace (dim b + 1 - 1)%Z with (dim b) by lia.
Qed.

(** Forward substitution. *)
Lemma LU_solve_forward_at (A : C_matrix Qc) (b : Vector Qc) :
  (0 <= dim b)%Z ->
  dim (LU_solve_forward A b) = dim b /\
  forall r, (1 <= r <= dim b)%Z ->
    vat1 (LU_solve_forward A b) r
    = vat1 b r
      - sumZ 1 (r - 1)
          (fun t => at1 A r t * vat1 (LU_solve_forward A b) t).
Proof.
  intros Hn. unfold LU_solve_forward.
  match goal with
  | |- dim (for_Z ?lo ?hi ?body ?b0) = _ /\ _ =>
      assert (H : dim (for_Z lo hi body b0) = dim b /\
                forall r,
                  ((1 <= r < hi + 1)%Z ->
                   vat1 (for_Z lo hi body b0) r
                   = vat1 b r
                     - sumZ 1 (r - 1)
                         (fun t => at1 A r t * vat1 (for_Z lo hi body b0) t))
                  /\ ((hi + 1 <= r)%Z ->
                      vat1 (for_Z lo hi body b0) r = vat1 b r))
  end.
  { apply (@for_Z_inv _
             (fun i v =>
                dim v = dim b /\
                forall r,
                  ((1 <= r < i)%Z ->
                   vat1 v r
                   = vat1 b r - sumZ 1 (r - 1) (fun t => at1 A r t * vat1 v t))
                  /\ ((i <= r)%Z -> vat1 v r = vat1 b r))); [lia | |].
    - split; [reflexivity |]. intros r. split; [lia | reflexivity].
    - intros i v Hi [Hdim Hv]. split; [exact Hdim |].
      intros r. rewrite vat1_vset1. split.
      + intros Hr. destruct (Z.eqb_spec r i) as [-> | Hne].
        * rewrite (for_Z_minus_sum 1 (i - 1)
                     (fun j => at1 A i j * vat1 v j)).
          rewrite (proj2 (Hv i)) by lia. f_equal.
          apply sumZ_ext. intros t Ht. rewrite vat1_vset1.
          now replace (t =? i)%Z with false by (symmetry; apply Z.eqb_neq; lia).
        * rewrite (proj1 (Hv r)) by lia. f_equal.
          apply sumZ_ext. intros t Ht. rewrite vat1_vset1.
          now replace (t =? i)%Z with false by (symmetry; apply Z.eqb_neq; lia).
      + intros Hr.
        replace (r =? i)%Z with false by (symmetry; apply Z.eqb_neq; lia).
        apply Hv. lia. }
  destruct H as [Hdim H]. split; [exact Hdim |].
  intros r Hr. apply H. lia.
Qed.

(** Back substitution, with nonzero pivots. *)
Lemma LU_solve_back_at (A : C_matrix Qc) (y : Vector Qc) (n : Z) :
  (forall t, (1 <= t <= n)%Z -> at1 A t t <> 0) ->
  forall (cnt : nat) (i : Z) (v : Vector Qc),
    Z.of_nat cnt = i -> (i <= n)%Z -> dim v = n ->
    (forall r, (i < r <= n)%Z ->
       vat1 v r * at1 A r r
       = vat1 y r - sumZ (r + 1) n (fun t => at1 A r t * vat1 v t)) ->
    (forall r, (r <= i)%Z -> vat1 v r = vat1 y r) ->
    exists x,
      LU_solve_back cnt i A v = (0%Z, x) /\ dim x = n /\
      forall r, (1 <= r <= n)%Z ->
        vat1 x r * at1 A r r
        = vat1 y r - sumZ (r + 1) n (fun t => at1 A r t * vat1 x t).
Proof.
  intros Hdiag.
  induction cnt as [| cnt IH]; intros i v Hcnt Hin Hdim Hdone Hrest.
  - cbn [LU_solve_back]. exists v. split; [reflexivity |].
    split; [exact Hdim |]. intros r Hr. apply Hdone. lia.
  - cbn [LU_solve_back].
    assert (Hp : at1 A i i <> 0) by (apply Hdiag; lia).
    replace (feqb (at1 A i i) fzero) with false
      by (symmetry; qc_ops; now apply Qc_eq_bool_false).
    rewrite Hdim.
    rewrite (for_Z_minus_sum (i + 1) n (fun j => at1 A i j * vat1 v j)).
    apply IH; [lia | lia | exact Hdim | |].
    + intros r Hr. rewrite vat1_vset1.
      destruct (Z.eqb_spec r i) as [-> | Hne].
      * qc_ops. rewrite (Hrest i) by lia.
        replace (sumZ (i + 1) n
                   (fun t => at1 A i t
                             * vat1 (vset1 v i
                                       ((vat1 y i
                                         - sumZ (i + 1) n
                                             (fun j => at1 A i j * vat1 v j))
                                        / at1 A i i)) t))
          with (sumZ (i + 1) n (fun j => at1 A i j * vat1 v j)).
        -- field. exact Hp.
        -- apply sumZ_ext. intros t Ht. rewrite vat1_vset1.
           now replace (t =? i)%Z with false
             by (symmetry; apply Z.eqb_neq; lia).
      * rewrite (Hdone r) by lia. f_equal.
        apply sumZ_ext. intros t Ht. rewrite vat1_vset1.
        now replace (t =? i)%Z with false by (symmetry; apply Z.eqb_neq; lia).
    + intros r Hr. rewrite vat1_vset1.
      replace (r =? i - 0)%Z with false by (symmetry; apply Z.eqb_neq; lia).
      replace (r =? i)%Z with false by (symmetry; apply Z.eqb_neq; lia).
      apply Hrest. lia.
Qed.
End SolveSteps.

Section SolveCorrect.
Local Open Scope Qc_scope.

Variable A0 : C_matrix Qc.
Variable n : Z.
Variable LUm : C_matrix Qc.
Variable ix : Vector Z.
Hypothesis Hn : (0 <= n)%Z.
Hypothesis Hfact : LU_partial A0 n n LUm (row_source ix (Z.to_nat n)).

(** The upper factor applied to the solution gives back the vector of
    the forward substitution. *)
Lemma upper_row_sum (x y : Vector Qc) (t : Z) :
  (1 <= t <= n)%Z ->
  vat1 x t * at1 LUm t t
  = vat1 y t - sumZ (t + 1) n (fun c => at1 LUm t c * vat1 x c) ->
  sumZ 1 n (fun c => (if (t <=? c)%Z then at1 LUm t c else 0) * vat1 x c)
  = vat1 y t.
Proof.
  intros Ht Heq.
  rewrite (@sumZ_split 1 (t - 1) n) by lia.
  rewrite (@sumZ_zero 1 (t - 1)).
  2:{ intros c Hc.
      replace (t <=? c)%Z with false by (symmetry; apply Z.leb_gt; lia). ring. }
  replace (t - 1 + 1)%Z with t by lia.
  rewrite (@sumZ_first t n) by lia. rewrite Z.leb_refl.
  rewrite (@sumZ_ext (t + 1) n _ (fun c => at1 LUm t c * vat1 x c)).
  2:{ intros c Hc.
      now replace (t <=? c)%Z with true by (symmetry; apply Z.leb_le; lia). }
  rewrite Qcmult_comm, Heq. ring.
Qed.

(** Row [i] of the product of the two factors, applied to a vector. *)
Lemma product_row (x : Vector Qc) (i : Z) :
  (1 <= i <= n)%Z ->
  sumZ 1 n (fun c => at1 A0 (row_source ix (Z.to_nat n) i) c * vat1 x c)
  = sumZ 1 (i - 1)
      (fun t => at1 LUm i t
                * sumZ 1 n (fun c => (if (t <=? c)%Z then at1 LUm t c else 0)
                                     * vat1 x c))
    + sumZ 1 n (fun c => (if (i <=? c)%Z then at1 LUm i c else 0)
                         * vat1 x c).
Proof.
  intros Hi. destruct Hfact as (_ & _ & _ & _ & Heq).
  rewrite (@sumZ_ext 1 n _
             (fun c =>
                sumZ 1 (i - 1)
                  (fun t => at1 LUm i t
                            * ((if (t <=? c)%Z then at1 LUm t c else 0)
                               * vat1 x c))
                + (if (i <=? c)%Z then at1 LUm i c else 0) * vat1 x c)).
  2:{ intros c Hc. rewrite (Heq i c Hi Hc).
      replace (Z.min i (n + 1)) with i by lia.
      replace (Z.min n (Z.min (i - 1) c)) with (Z.min (i - 1) c) by lia.
      rewrite Qcmult_plus_distr_l. f_equal.
      rewrite Qcmult_comm, <- sumZ_scale.
      destruct (Z_le_gt_dec (i - 1) c) as [Hle | Hgt].
      - replace (Z.min (i - 1) c) with (i - 1)%Z by lia.
        apply sumZ_ext. intros t Ht.
        replace (t <=? c)%Z with true by (symmetry; apply Z.leb_le; lia). ring.
      - replace (Z.min (i - 1) c) with c by lia.
        rewrite (@sumZ_split 1 c (i - 1)) by lia.
        rewrite (@sumZ_zero (c + 1) (i - 1)).
        2:{ intros t Ht.
            replace (t <=? c)%Z with false by (symmetry; apply Z.leb_gt; lia).
            ring. }
        rewrite Qcplus_0_r. apply sumZ_ext. intros t Ht.
        replace (t <=? c)%Z with true by (symmetry; apply Z.leb_le; lia).
        ring. }
  rewrite sumZ_plus, sumZ_swap. f_equal.
  apply sumZ_ext. intros t Ht. now rewrite sumZ_scale.
Qed.

(** [LU_solve] returns 0 and its result solves the system of the matrix
    that was factored. *)
Lemma LU_solve_correct (b : Vector Qc) :
  dim b = n ->
  exists x,
    LU_solve LUm ix b = (0%Z, x) /\ dim x = n /\
    forall r, (1 <= r <= n)%Z ->
      sumZ 1 n (fun c => at1 A0 r c * vat1 x c) = vat1 b r.
Proof.
  intros Hdim.
  destruct Hfact as (Hsq & Hrange & Hsurj & Hdiag & Heq).
  unfold LU_solve.
  destruct (LU_solve_permute_at ix b ltac:(lia)) as [Hd1 Hb1].
  set (b1 := LU_solve_permute ix b) in *.
  destruct (LU_solve_forward_at LUm b1 ltac:(lia)) as [Hd2 Hy].
  set (y := LU_solve_forward LUm b1) in *.
  assert (Hdy : dim y = n) by congruence.
  destruct (@LU_solve_back_at LUm y n Hdiag (Z.to_nat n) n y
              ltac:(lia) ltac:(lia) Hdy) as (x & Hx & Hdx & Hback).
  { intros r Hr. lia. }
  { intros r Hr. reflexivity. }
  rewrite Hdy, Hx. exists x. split; [reflexivity |]. split; [exact Hdx |].
  intros r Hr.
  destruct (Hsurj r Hr) as (i & Hi & <-).
  rewrite (product_row x Hi).
  rewrite (@sumZ_ext 1 (i - 1) _ (fun t => at1 LUm i t * vat1 y t)).
  2:{ intros t Ht. f_equal.
      apply upper_row_sum; [lia |]. apply Hback. lia. }
  rewrite (upper_row_sum x y (t := i) Hi (Hback i Hi)).
  rewrite (Hy i) by lia. rewrite Hb1, Hdim. ring.
Qed.

(** The factored system has no solution of the zero right-hand side
    other than zero. *)
Lemma upper_zero (x : Vector Qc) :
  (forall r, (1 <= r <= n)%Z ->
     sumZ 1 n (fun c => at1 A0 r c * vat1 x c) = 0) ->
  forall i, (1 <= i <= n)%Z ->
    sumZ 1 n (fun c => (if (i <=? c)%Z then at1 LUm i c else 0) * vat1 x c)
    = 0.
Proof.
  intros Hsys i. pattern i.
  apply (well_founded_induction (Z.lt_wf 0)). clear i.
  intros i IH Hi.
  destruct Hfact as (_ & Hrange & _).
  pose proof (product_row x Hi) as Hrow.
  rewrite (Hsys _ (Hrange i Hi)) in Hrow.
  rewrite (@sumZ_zero 1 (i - 1)) in Hrow.
  2:{ intros t Ht. rewrite (IH t) by lia. ring. }
  rewrite Qcplus_0_l in Hrow. now symmetry.
Qed.

Lemma solution_zero (x : Vector Qc) :
  (forall r, (1 <= r <= n)%Z ->
     sumZ 1 n (fun c => at1 A0 r c * vat1 x c) = 0) ->
  forall t, (1 <= t <= n)%Z -> vat1 x t = 0.
Proof.
  intros Hsys.
  assert (H : forall (k : nat) t, (1 <= t <= n)%Z ->
                (n - t < Z.of_nat k)%Z -> vat1 x t = 0).
  { induction k as [| k IH]; intros t Ht Hk; [lia |].
    pose proof (upper_zero x Hsys Ht) as Hu.
    rewrite (@sumZ_split 1 (t - 1) n) in Hu by lia.
    rewrite (@sumZ_zero 1 (t - 1)) in Hu.
    2:{ intros c Hc.
        replace (t <=? c)%Z with false by (symmetry; apply Z.leb_gt; lia).
        ring. }
    replace (t - 1 + 1)%Z with t in Hu by lia.
    rewrite (@sumZ_first t n) in Hu by lia. rewrite Z.leb_refl in Hu.
    rewrite (@sumZ_zero (t + 1) n) in Hu.
    2:{ intros c Hc. rewrite (IH c) by lia. ring. }
    destruct Hfact as (_ & _ & _ & Hdiag & _).
    assert (Hprod : at1 LUm t t * vat1 x t = 0) by (rewrite <- Hu; ring).
    destruct (Qcmult_integral _ _ Hprod) as [Hd | Hx]; [| exact Hx].
    now destruct (Hdiag t Ht). }
  intros t Ht. apply (H (Z.to_nat (n - t + 1)) t Ht). lia.
Qed.
End SolveCorrect.

(* ================================================================== *)
(** * 26. The constructor of [BSpline]: the fit *)
(* ================================================================== *)

Lemma vec_at_nth {T : Type} (v : list T) (i : Z) (d : T) :
  0 <= i < Z.of_nat (length v) -> vec_at v i = Ok (nth (Z.to_nat i) v d).
Proof.
  intros H. unfold vec_at.
  replace (i <? 0) with false by (symmetry; apply Z.ltb_ge; lia).
  destruct (nth_error v (Z.to_nat i)) as [x |] eqn:Hx.
  - now rewrite (nth_error_nth _ _ d Hx).
  - apply nth_error_None in Hx. lia.
Qed.

Section SumShift.
Local Open Scope Qc_scope.

Lemma sumZ_shift1 (n : Z) (g : Z -> Qc) :
  sumZ 1 n (fun c => g (c - 1)%Z) = sumZ 0 (n - 1) g.
Proof.
  revert n. apply (@sumZ_range_ind
    (fun n => sumZ 1 n (fun c => g (c - 1)%Z) = sumZ 0 (n - 1) g) 1%Z).
  - intros n Hn. now rewrite !sumZ_empty by lia.
  - intros n Hn IH.
    rewrite (@sumZ_last 1 n), (@sumZ_last 0 (n - 1)) by lia.
    now rewrite IH.
Qed.

(** The loop [sum += y[j] * Basis (m, X[j])] adds a sum. *)
Lemma for_Z_plus_sum (lo hi : Z) (f : Z -> Qc) :
  forall init, for_Z lo hi (fun j sum => sum + f j) init = init + sumZ lo hi f.
Proof.
  intros init. revert hi. apply (@sumZ_range_ind
    (fun hi => for_Z lo hi (fun j sum => sum + f j) init
               = init + sumZ lo hi f) lo).
  - intros hi Hlt. rewrite for_Z_empty, sumZ_empty by assumption. ring.
  - intros hi Hle IH. rewrite for_Z_last, (@sumZ_last lo hi) by assumption.
    rewrite IH. ring.
Qed.
End SumShift.

(** The copy constructor gives back an object that the constructors of
    [BSplineBase] have initialised. *)
Lemma BSplineBase_copy_eq {F : Type} {AF : Arith F} (bb : BSplineBase F) :
  K bb = 1 -> BC bb = 2 ->
  0 < NX bb <= Z.of_nat (length (X (base bb))) ->
  BSplineBase_copy bb = Ok bb.
Proof.
  intros HK HBC HNX. unfold BSplineBase_copy, Copy.
  replace (NX bb =? 0) with false by (symmetry; apply Z.eqb_neq; lia).
  replace ((0 <? NX bb) && (NX bb <=? Z.of_nat (length (X (base bb)))))
    with true
    by (symmetry; apply andb_true_iff; split;
        [apply Z.ltb_lt | apply Z.leb_le]; lia).
  cbn. destruct bb as [k bc nx lo hi wl al dx m b]. cbn in *.
  now subst.
Qed.

Lemma factor_inv {F : Type} {AF : Arith F} (s0 d : BSplineBase F) :
  factor s0 = Ok d ->
  exists lu ix,
    LU_factor_banded (Q (base s0))
      (vnewsize (index (base s0)) (M s0 + 1)) 3 = (0, lu, ix) /\
    d = with_LU s0 lu ix.
Proof.
  unfold factor. intros H.
  destruct (LU_factor_banded _ _ 3) as [[ret lu] ix].
  destruct (Z.eqb_spec ret 0) as [-> | Hne]; [| discriminate].
  injection H as <-. now exists lu, ix.
Qed.

Section Fit.
Local Open Scope Qc_scope.
Variable d : BSplineBase Qc.
Hypothesis Hvalid : valid_domain d.
Variable y : list Qc.
Hypothesis Hy : (NX d <= Z.of_nat (length y))%Z.

(** Lines 705-716: the right-hand side. *)
Lemma BSpline_B_Ok (fuel : nat) :
  exists B,
    BSpline_B (S (S fuel)) d y = Ok B /\ dim B = (M d + 1)%Z /\
    forall m, (0 <= m <= M d)%Z ->
      elt B m
      = DX d * sumZ 0 (NX d - 1)
                 (fun j => nth (Z.to_nat j) y 0
                           * Basis_val d m (nth (Z.to_nat j) (X (base d)) 0)).
Proof.
  destruct Hvalid as (HBC & HM & HNX & HDX & Hin).
  unfold BSpline_B.
  match goal with
  | |- exists B, for_ZM ?lo ?hi ?body ?B0 = _ /\ _ =>
      destruct (@for_ZM_inv _
                  (fun m (B : Vector Qc) =>
                     dim B = (M d + 1)%Z /\
                     forall k, (0 <= k < m)%Z ->
                       elt B k
                       = DX d * sumZ 0 (NX d - 1)
                           (fun j => nth (Z.to_nat j) y 0
                              * Basis_val d k
                                  (nth (Z.to_nat j) (X (base d)) 0)))
                  lo hi body B0) as (B & HB & Hdim & Hcells)
  end.
  - split; [reflexivity |]. intros k Hk. lia.
  - intros m B Hm [Hdim HB]. cbv beta.
    match goal with
    | |- exists t', bind (for_ZM ?lo ?hi ?body ?z) _ = _ /\ _ =>
        destruct (@for_ZM_inv _
                    (fun i (sum : Qc) =>
                       sum = sumZ 0 (i - 1)
                               (fun j => nth (Z.to_nat j) y 0
                                  * Basis_val d m
                                      (nth (Z.to_nat j) (X (base d)) 0)))
                    lo hi body z) as (sum & Hsum & Hval)
    end.
    + now rewrite sumZ_empty by lia.
    + intros i sum Hi ->.
      rewrite (vec_at_nth y (Q2Qc 0)) by lia. cbn [bind].
      rewrite (vec_at_nth (X (base d)) (Q2Qc 0)) by lia. cbn [bind].
      rewrite (Basis_Ok d fuel _ HBC (m := m)) by lia. cbn [bind].
      eexists. split; [reflexivity |].
      replace (i + 1 - 1)%Z with i by lia.
      now rewrite (@sumZ_last 0 i) by lia.
    + rewrite Hsum. cbn [bind]. eexists. split; [reflexivity |].
      cbn [dim elt]. split; [exact Hdim |].
      intros k Hk. destruct (Z.eqb_spec k m) as [-> | Hne].
      * rewrite Hval.
        replace (Z.max 0 (NX d - 1 + 1) - 1)%Z with (NX d - 1)%Z by lia.
        qc_ops. ring.
      * apply HB. lia.
  - exists B. split; [exact HB |]. split; [exact Hdim |].
    intros m Hm. apply Hcells. lia.
Qed.
End Fit.

(** The constructor on a factored domain: the right-hand side, the
    solve, and the object built. *)
Lemma BSpline_new_solves
  (s0 d : BSplineBase Qc) (y : list Qc) (fuel : nat) :
  valid_domain d ->
  K d = 1 -> BC d = 2 -> 0 < NX d ->
  NX d <= Z.of_nat (length y) ->
  square_of (Q (base s0)) (M s0 + 1) ->
  factor s0 = Ok d ->
  exists B x,
    BSpline_B (S (S fuel)) d y = Ok B /\ dim B = M d + 1 /\
    LU_solve (LU (base d)) (index (base d)) B = (0, x) /\
    BSpline_new (S (S fuel)) d y = Ok (mkSpline d (mkSplineP [] x)) /\
    dim x = M d + 1 /\
    forall i, 0 <= i <= M d ->
      sumZ 0 (M d) (fun c => (cell (Q (base d)) i c * elt x c)%Qc)
      = elt B i.
Proof.
  intros Hvalid HK HBC HNX Hy Hsq Hfactor.
  pose proof Hvalid as (_ & HM & HNXl & _).
  destruct (factor_inv _ Hfactor) as (lu & ix & Hlu & Hd).
  assert (HMd : M d = M s0) by (subst d; reflexivity).
  assert (HQd : Q (base d) = Q (base s0)) by (subst d; reflexivity).
  assert (Hfact : LU_partial (Q (base s0)) (M d + 1) (M d + 1) lu
                    (row_source ix (Z.to_nat (M d + 1)))).
  { rewrite HMd.
    apply (@LU_factor_banded_partial (Q (base s0)) (M s0 + 1) 3 _ lu ix
             Hsq ltac:(lia) Hlu). }
  destruct (BSpline_B_Ok Hvalid y Hy fuel) as (B & HB & Hdim & _).
  destruct (@LU_solve_correct (Q (base s0)) (M d + 1) lu ix ltac:(lia) Hfact
              B Hdim) as (x & Hx & Hdx & Hsys).
  assert (HLU : LU (base d) = lu) by (subst d; reflexivity).
  assert (Hix : index (base d) = ix) by (subst d; reflexivity).
  exists B, x.
  split; [exact HB |]. split; [exact Hdim |].
  split; [now rewrite HLU, Hix |].
  split.
  { unfold BSpline_new.
    rewrite (BSplineBase_copy_eq d HK HBC ltac:(lia)). cbn [bind].
    rewrite HB. cbn [bind]. rewrite HLU, Hix, Hx. reflexivity. }
  split; [exact Hdx |].
  intros i Hi. rewrite HQd.
  specialize (Hsys (i + 1) ltac:(lia)).
  unfold vat1, at1 in Hsys.
  replace (i + 1 - 1) with i in Hsys by lia.
  rewrite <- Hsys.
  rewrite (sumZ_shift1 (M d + 1)
             (fun c => (cell (Q (base s0)) i c * elt x c)%Qc)).
  now replace (M d + 1 - 1) with (M d) by lia.
Qed.

(** C5.  On a valid domain that [factor] has factored, for [NX] data
    values [y], the constructor builds the right-hand side
    [B[m] = DX * sum over j of y[j] * basis (m, x[j])], [m] from 0 to [M],
    and [LU_solve] returns from it the coefficient vector [A] of length
    [M + 1] that solves the system of the assembled matrix,
    [sum over c of Q[i][c] * A[c] = B[i]]; and the constructor of every
    object ends in [exit (1)] when [LU_solve] returns nonzero. *)
Theorem fit_solves_system
  (s0 d : BSplineBase Qc) (y : list Qc) (fuel : nat) :
  valid_domain d ->
  K d = 1 -> BC d = 2 -> 0 < NX d ->
  NX d <= Z.of_nat (length y) ->
  square_of (Q (base s0)) (M s0 + 1) ->
  factor s0 = Ok d ->
  (exists B sp,
     BSpline_B (S (S fuel)) d y = Ok B /\ dim B = M d + 1 /\
     (forall m, 0 <= m <= M d ->
        elt B m
        = (DX d * sumZ 0 (NX d - 1)
                    (fun j => nth (Z.to_nat j) y (Q2Qc 0)
                              * Basis_val d m
                                  (nth (Z.to_nat j) (X (base d)) (Q2Qc 0))))%Qc) /\
     BSpline_new (S (S fuel)) d y = Ok sp /\
     domain sp = d /\ spline (s sp) = [] /\
     dim (A (s sp)) = M d + 1 /\
     forall i, 0 <= i <= M d ->
       sumZ 0 (M d) (fun c => (cell (Q (base d)) i c * elt (A (s sp)) c)%Qc)
       = elt B i) /\
  (forall (bb d' : BSplineBase Qc) (y' : list Qc) (fuel' : nat)
          (B' : Vector Qc),
      BSplineBase_copy bb = Ok d' ->
      BSpline_B fuel' d' y' = Ok B' ->
      fst (LU_solve (LU (base d')) (index (base d')) B') <> 0 ->
      BSpline_new fuel' bb y' = Err Exited).
Proof.
  intros Hvalid HK HBC HNX Hy Hsq Hfactor. split.
  - destruct (@BSpline_new_solves s0 d y fuel Hvalid HK HBC HNX Hy Hsq Hfactor)
      as (B & x & HB & Hdim & _ & Hnew & Hdx & Hsys).
    destruct (BSpline_B_Ok Hvalid y Hy fuel) as (B2 & HB2 & _ & Hcells).
    assert (B2 = B) by congruence. subst B2.
    exists B. eexists.
    split; [exact HB |]. split; [exact Hdim |]. split; [exact Hcells |].
    split; [exact Hnew |]. cbn [domain s A spline].
    split; [reflexivity |]. split; [reflexivity |]. split; [exact Hdx |].
    exact Hsys.
  - intros bb d' y' fuel' B' Hcopy HB' Hret. unfold BSpline_new.
    rewrite Hcopy. cbn [bind]. rewrite HB'. cbn [bind].
    destruct (LU_solve _ _ B') as [ret a]. cbn [fst] in Hret.
    now replace (ret =? 0) with false by (symmetry; apply Z.eqb_neq; lia).
Qed.

(* ================================================================== *)
(** * 27. Fitting data that are all zero *)
(* ================================================================== *)

Section ZeroData.
Local Open Scope Qc_scope.

Lemma LU_solve_permute_zero (ix : Vector Z) (b : Vector Qc) :
  (forall k, elt b k = 0) -> forall k, elt (LU_solve_permute ix b) k = 0.
Proof.
  intros Hb. unfold LU_solve_permute.
  apply (@for_Z_pres _ (fun v : Vector Qc => forall k, elt v k = 0));
    [| exact Hb].
  intros i v Hv k. unfold vset1, vat1. cbn [elt dim].
  repeat match goal with
         | |- context [if ?c then _ else _] => destruct c
         end; apply Hv.
Qed.

Lemma LU_solve_forward_zero (A : C_matrix Qc) (b : Vector Qc) :
  (forall k, elt b k = 0) -> forall k, elt (LU_solve_forward A b) k = 0.
Proof.
  intros Hb. unfold LU_solve_forward.
  apply (@for_Z_pres _ (fun v : Vector Qc => forall k, elt v k = 0));
    [| exact Hb].
  intros i v Hv k. unfold vset1. cbn [elt dim].
  destruct (k =? i - 1)%Z; [| apply Hv].
  apply (@for_Z_pres _ (fun sum : Qc => sum = 0)); [| apply Hv].
  intros j sum ->. unfold vat1. rewrite Hv. qc_ops. ring.
Qed.

Lemma LU_solve_back_zero (A : C_matrix Qc) :
  forall (n : nat) (i : Z) (b : Vector Qc),
    (forall k, elt b k = 0) ->
    forall k, elt (snd (LU_solve_back n i A b)) k = 0.
Proof.
  induction n as [| n IH]; intros i b Hb; [exact Hb |].
  cbn [LU_solve_back].
  destruct (feqb (at1 A i i) fzero); [exact Hb |].
  apply IH. intros k. unfold vset1. cbn [elt dim].
  destruct (k =? i - 1)%Z; [| apply Hb].
  assert (Hsum : for_Z (i + 1) (dim b)
                   (fun j sum => fsub sum (fmul (at1 A i j) (vat1 b j)))
                   (vat1 b i) = 0).
  { apply (@for_Z_pres _ (fun sum : Qc => sum = 0)); [| apply Hb].
    intros j sum ->. unfold vat1. rewrite Hb. qc_ops. ring. }
  rewrite Hsum. qc_ops. unfold Qcdiv. ring.
Qed.

(** [LU_solve] maps the zero vector to the zero vector. *)
Lemma LU_solve_zero (A : C_matrix Qc) (ix : Vector Z) (b : Vector Qc) :
  (forall k, elt b k = 0) -> forall k, elt (snd (LU_solve A ix b)) k = 0.
Proof.
  intros Hb. unfold LU_solve.
  apply LU_solve_back_zero, LU_solve_forward_zero, LU_solve_permute_zero, Hb.
Qed.

Lemma vec_at_In {T : Type} (v : list T) (i : Z) (x : T) :
  vec_at v i = Ok x -> In x v.
Proof.
  intros H. destruct (vec_at_nth_error _ _ H) as [_ Hn].
  exact (nth_error_In _ _ Hn).
Qed.

(** The right-hand side of zero data is the zero vector. *)
Lemma BSpline_B_zero (fuel : nat) (d : BSplineBase Qc) (y : list Qc)
  (B : Vector Qc) :
  (forall v, In v y -> v = 0) ->
  BSpline_B fuel d y = Ok B -> forall k, elt B k = 0.
Proof.
  intros Hy HB. unfold BSpline_B in HB.
  apply (@for_ZM_Ok_inv _ (fun _ (v : Vector Qc) => forall k, elt v k = 0)
           _ _ _ _ _ HB).
  - reflexivity.
  - intros m v v' Hm Hv Hstep k.
    apply bind_Ok_inv in Hstep. destruct Hstep as (sum & Hsum & Hv').
    injection Hv' as <-. cbn [elt].
    destruct (k =? m)%Z; [| apply Hv].
    assert (Hz : sum = 0).
    { apply (@for_ZM_Ok_inv _ (fun _ (t : Qc) => t = 0) _ _ _ _ _ Hsum).
      - reflexivity.
      - intros j t t' Hj -> Ht.
        apply bind_Ok_inv in Ht. destruct Ht as (yj & Hyj & Ht).
        apply bind_Ok_inv in Ht. destruct Ht as (xj & Hxj & Ht).
        apply bind_Ok_inv in Ht. destruct Ht as (bv & Hbv & Ht).
        injection Ht as <-. rewrite (Hy yj (vec_at_In _ _ Hyj)).
        qc_ops. ring. }
    rewrite Hz. qc_ops. ring.
Qed.

(** The weighted sum of zero coefficients is zero. *)
Lemma weighted_sum_zero (sp : BSpline Qc) (x : Qc) :
  (forall k, (0 <= k <= M (domain sp))%Z -> elt (A (s sp)) k = 0) ->
  weighted_sum sp x = 0.
Proof.
  intros HA. unfold weighted_sum.
  assert (Hin : forall i,
             In i (map Z.of_nat (seq 0 (Z.to_nat (M (domain sp) + 1)))) ->
             (0 <= i <= M (domain sp))%Z).
  { intros i Hi. apply in_map_iff in Hi. destruct Hi as (k & <- & Hk).
    apply in_seq in Hk. lia. }
  revert Hin.
  generalize (map Z.of_nat (seq 0 (Z.to_nat (M (domain sp) + 1)))).
  intros l. assert (H0 : (fzero : Qc) = 0) by reflexivity.
  revert H0. generalize (fzero : Qc) as acc.
  induction l as [| i l IH]; intros acc Hacc Hin; [exact Hacc |].
  cbn [fold_left]. apply IH.
  - rewrite HA, Hacc by (apply Hin; now left). qc_ops. ring.
  - intros k Hk. apply Hin. now right.
Qed.
End ZeroData.

(** The system that [factor] has factored has one solution only of the
    zero right-hand side: zero. *)
Lemma fit_system_unique (s0 d : BSplineBase Qc) (a : Vector Qc) :
  square_of (Q (base s0)) (M s0 + 1) -> 0 <= M s0 + 1 ->
  factor s0 = Ok d ->
  (forall i, 0 <= i <= M d ->
     sumZ 0 (M d) (fun c => (cell (Q (base d)) i c * elt a c)%Qc) = Q2Qc 0) ->
  forall c, 0 <= c <= M d -> elt a c = Q2Qc 0.
Proof.
  intros Hsq Hn Hfactor Hsys c Hc.
  destruct (factor_inv _ Hfactor) as (lu & ix & Hlu & Hd).
  assert (HMd : M d = M s0) by (subst d; reflexivity).
  assert (HQd : Q (base d) = Q (base s0)) by (subst d; reflexivity).
  pose proof (@LU_factor_banded_partial (Q (base s0)) (M s0 + 1) 3 _ lu ix
                Hsq Hn Hlu) as Hfact.
  rewrite HMd, HQd in *.
  pose proof (@solution_zero (Q (base s0)) (M s0 + 1) lu ix Hfact a)
    as Hzero.
  replace c with (c + 1 - 1) by lia. apply Hzero; [| lia].
  intros r Hr. specialize (Hsys (r - 1) ltac:(lia)).
  rewrite <- Hsys. unfold at1, vat1.
  rewrite (sumZ_shift1 (M s0 + 1)
             (fun c => (cell (Q (base s0)) (r - 1) c * elt a c)%Qc)).
  now replace (M s0 + 1 - 1) with (M s0) by lia.
Qed.

(** With [LU_solve] as modelled, the constructor on zero data returns a
    spline whose coefficients are all zero. *)
Lemma BSpline_new_zero_data
  (s0 d : BSplineBase Qc) (y : list Qc) (fuel : nat) :
  valid_domain d ->
  K d = 1 -> BC d = 2 -> 0 < NX d ->
  NX d <= Z.of_nat (length y) ->
  (forall v, In v y -> v = Q2Qc 0) ->
  square_of (Q (base s0)) (M s0 + 1) ->
  factor s0 = Ok d ->
  exists sp,
    BSpline_new (S (S fuel)) d y = Ok sp /\
    domain sp = d /\ dim (A (s sp)) = M d + 1 /\
    forall k, elt (A (s sp)) k = Q2Qc 0.
Proof.
  intros Hvalid HK HBC HNX Hy Hzero Hsq Hfactor.
  destruct (@BSpline_new_solves s0 d y fuel Hvalid HK HBC HNX Hy Hsq Hfactor)
    as (B & x & HB & _ & Hx & Hnew & Hdx & _).
  eexists. split; [exact Hnew |]. cbn [domain s A].
  split; [reflexivity |]. split; [exact Hdx |].
  intros k.
  pose proof (@LU_solve_zero (LU (base d)) (index (base d)) B
                (BSpline_B_zero _ _ _ Hzero HB) k) as Hk.
  now rewrite Hx in Hk.
Qed.

(* ================================================================== *)
(** * 28. The example domain, assembled and factored *)
(* ================================================================== *)

(** [valid_domain] reads the grid and the samples only. *)
Lemma valid_domain_same_grid (d d' : BSplineBase Qc) :
  BC d' = BC d -> M d' = M d -> NX d' = NX d ->
  X (base d') = X (base d) -> DX d' = DX d -> xmin d' = xmin d ->
  valid_domain d -> valid_domain d'.
Proof.
  intros HBC HM HNX HX HDX Hmin (H1 & H2 & H3 & H4 & H5).
  unfold valid_domain, node. rewrite HBC, HM, HNX, HX, HDX, Hmin.
  repeat (split; [assumption |]). exact H5.
Qed.

Lemma example_domain_K : K example_domain = 1.
Proof. vm_compute. reflexivity. Qed.

Lemma example_domain_BC : BC example_domain = 2.
Proof. vm_compute. reflexivity. Qed.

Lemma example_domain_M : M example_domain = 10.
Proof. vm_compute. reflexivity. Qed.

Lemma example_domain_NX : NX example_domain = 11.
Proof. vm_compute. reflexivity. Qed.

Lemma example_domain_length : length (X (base example_domain)) = 11%nat.
Proof. vm_compute. reflexivity. Qed.

(** [calculateQ] and [addP] on the example return, and change [Q] only. *)
Lemma example_assembled_eq :
  exists Qm,
    (s1 <- calculateQ example_qdelta example_Beta_sub
             (with_alpha example_domain
                (Alpha example_domain (waveLength example_domain))) ;;
     addP 2 s1)
    = Ok example_assembled /\
    example_assembled
    = with_Q (with_alpha example_domain
                (Alpha example_domain (waveLength example_domain))) Qm /\
    square_of Qm 11.
Proof.
  destruct (@calculateQ_addP_Ok Qc Qc_Arith example_qdelta example_Beta_sub
              0 (with_alpha example_domain
                   (Alpha example_domain (waveLength example_domain))))
    as (Qm & H & Hsq).
  - cbn [BC with_alpha]. rewrite example_domain_BC. lia.
  - cbn [M with_alpha]. rewrite example_domain_M. lia.
  - cbn [NX X base with_alpha].
    rewrite example_domain_NX, example_domain_length. lia.
  - cbn [M with_alpha] in Hsq. rewrite example_domain_M in Hsq.
    exists Qm. unfold example_assembled. rewrite H.
    split; [reflexivity |]. split; [reflexivity | exact Hsq].
Qed.

(** The factorisation of the assembled example meets no zero pivot. *)
Lemma example_factored_check :
  match factor example_assembled with Ok _ => true | Err _ => false end
  = true.
Proof. vm_cast_no_check (@eq_refl bool true). Qed.

Lemma example_factored_factor :
  factor example_assembled = Ok example_factored.
Proof.
  pose proof example_factored_check as H. unfold example_factored.
  destruct (factor example_assembled); [reflexivity | discriminate].
Qed.

(** The grid of the factored example is the grid of the example
    domain. *)
Lemma example_factored_grid :
  K example_factored = K example_domain /\
  BC example_factored = BC example_domain /\
  M example_factored = M example_domain /\
  NX example_factored = NX example_domain /\
  X (base example_factored) = X (base example_domain) /\
  DX example_factored = DX example_domain /\
  xmin example_factored = xmin example_domain.
Proof.
  destruct (factor_inv _ example_factored_factor) as (lu & ix & _ & ->).
  destruct example_assembled_eq as (Qm & _ & -> & _).
  repeat split; reflexivity.
Qed.

Lemma example_factored_K : K example_factored = 1.
Proof.
  destruct example_factored_grid as (-> & _). exact example_domain_K.
Qed.

Lemma example_factored_BC : BC example_factored = 2.
Proof.
  destruct example_factored_grid as (_ & -> & _). exact example_domain_BC.
Qed.

Lemma example_factored_M : M example_factored = 10.
Proof.
  destruct example_factored_grid as (_ & _ & -> & _). exact example_domain_M.
Qed.

Lemma example_factored_NX : NX example_factored = 11.
Proof.
  destruct example_factored_grid as (_ & _ & _ & -> & _).
  exact example_domain_NX.
Qed.

Lemma example_factored_valid : valid_domain example_factored.
Proof.
  destruct example_factored_grid as (_ & H1 & H2 & H3 & H4 & H5 & H6).
  exact (@valid_domain_same_grid example_domain example_factored
           H1 H2 H3 H4 H5 H6 example_domain_valid).
Qed.

Lemma example_assembled_square :
  square_of (Q (base example_assembled)) (M example_assembled + 1).
Proof.
  destruct example_assembled_eq as (Qm & _ & -> & Hsq).
  cbn [Q base M with_Q with_alpha]. now rewrite example_domain_M.
Qed.

(** The factored example is what [setDomain] builds from the eleven
    samples. *)
Lemma example_factored_setDomain :
  setDomain example_qdelta example_Beta_sub 2 (samples 11) 11 (Q2Qc 4) blank
  = Ok example_factored.
Proof.
  unfold setDomain.
  change (Copy (samples 11) 11 (Q2Qc 4) (Reset blank))
    with (Ok (loaded (samples 11) 4 blank)).
  cbn [bind]. rewrite example_domain_Setup. cbn [bind].
  destruct example_assembled_eq as (Qm & H & _).
  destruct (calculateQ example_qdelta example_Beta_sub _) as [sq | e];
    cbn [bind] in *; [| discriminate].
  rewrite H. cbn [bind]. exact example_factored_factor.
Qed.

Lemma fit_solves_system_witness :
  valid_domain example_factored /\
  K example_factored = 1 /\ BC example_factored = 2 /\
  0 < NX example_factored /\
  NX example_factored <= Z.of_nat (length example_data) /\
  square_of (Q (base example_assembled)) (M example_assembled + 1) /\
  factor example_assembled = Ok example_factored /\
  exists sp,
    BSpline_new 2 example_factored example_data = Ok sp /\
    dim (A (s sp)) = 11.
Proof.
  assert (HNX : 0 < NX example_factored)
    by (rewrite example_factored_NX; lia).
  assert (Hy : NX example_factored <= Z.of_nat (length example_data))
    by (rewrite example_factored_NX; vm_compute; discriminate).
  split; [exact example_factored_valid |].
  split; [exact example_factored_K |]. split; [exact example_factored_BC |].
  split; [exact HNX |].
  split; [exact Hy |]. split; [exact example_assembled_square |].
  split; [exact example_factored_factor |].
  destruct (@fit_solves_system example_assembled example_factored
              example_data 0 example_factored_valid example_factored_K
              example_factored_BC HNX Hy
              example_assembled_square example_factored_factor)
    as [(B & sp & _ & _ & _ & Hnew & _ & _ & Hdim & _) _].
  exists sp. split; [exact Hnew |].
  rewrite example_factored_M in Hdim. exact Hdim.
Defined.

(* ================================================================== *)
(** * 29. The ten samples, the eleven samples, and zero data *)
(* ================================================================== *)

Lemma Setup_ten_samples :
  exists s', Setup 1 (loaded (samples 10) 4 blank) = Ok (0, s').
Proof. eexists. vm_compute. reflexivity. Qed.

Lemma Setup_ten_samples_fuel (fuel : nat) (ret : Z) (s' : BSplineBase Qc) :
  Setup fuel (loaded (samples 10) 4 blank) = Ok (ret, s') -> ret = 0.
Proof.
  intros H. destruct Setup_ten_samples as (s1 & H1).
  apply Setup_fuel with (fuel' := Nat.max fuel 1) in H; [| lia].
  apply Setup_fuel with (fuel' := Nat.max fuel 1) in H1; [| lia].
  congruence.
Qed.

(** C9, as stated, fails: for the ten samples 0, 1, ..., 9 and the
    wavelength 4 [Setup] returns 0, whatever the fuel: the first candidate
    grid has 11 nodes, more than there are data points. *)
Lemma Setup_fails_on_ten_samples :
  Z.of_nat (length (samples 10)) = 10 /\
  (exists s', Setup 1 (loaded (samples 10) 4 blank) = Ok (0, s')) /\
  ~ (exists fuel ret s',
       Setup fuel (loaded (samples 10) 4 blank) = Ok (ret, s') /\
       ret <> 0 /\ 9 <= M s').
Proof.
  split; [reflexivity |]. split; [exact Setup_ten_samples |].
  intros (fuel & ret & s' & H & Hret & _).
  apply Hret. exact (Setup_ten_samples_fuel _ H).
Qed.

(** What [setDomain] has done when it returns for the eleven samples
    0, ..., 10 and the wavelength 4, whatever the undeclared [qdelta] and
    subscripted [Beta] are. *)
(** [setDomain] on samples that [Copy] accepts and for which [Setup]
    returns: what follows [Setup] changes the matrices only. *)
Lemma setDomain_grid
  (qdelta Beta_sub : Z -> Qc) (fuel : nat) (x : list Qc) (nx : Z) (wl : Qc)
  (s0 s1 s d : BSplineBase Qc) (r : Z) :
  Copy x nx wl (Reset s0) = Ok s1 ->
  Setup (S (S fuel)) s1 = Ok (r, s) ->
  0 <= BC s <= 2 -> 4 <= M s ->
  NX s <= Z.of_nat (length (X (base s))) ->
  setDomain qdelta Beta_sub (S (S fuel)) x nx wl s0 = Ok d ->
  exists sq,
    square_of (Q (base sq)) (M sq + 1) /\ factor sq = Ok d /\
    K d = K s /\ BC d = BC s /\ M d = M s /\ NX d = NX s /\
    X (base d) = X (base s) /\ DX d = DX s /\ xmin d = xmin s.
Proof.
  intros HC HS HBC HM HNX. unfold setDomain.
  rewrite HC. cbn [bind]. rewrite HS. cbn [bind]. intros H.
  destruct (@calculateQ_addP_Ok Qc Qc_Arith qdelta Beta_sub fuel
              (with_alpha s (Alpha s (waveLength s))) HBC HM HNX)
    as (Qm & Hasm & Hsq).
  destruct (calculateQ qdelta Beta_sub _) as [sc | e];
    cbn [bind] in *; [| discriminate].
  rewrite Hasm in H. cbn [bind] in H.
  exists (with_Q (with_alpha s (Alpha s (waveLength s))) Qm).
  split; [exact Hsq |]. split; [exact H |].
  destruct (factor_inv _ H) as (lu & ix & _ & ->).
  repeat split; reflexivity.
Qed.

Lemma Copy_eleven_samples :
  Copy (samples 11) 11 (Q2Qc 4) (Reset blank)
  = Ok (loaded (samples 11) 4 blank).
Proof. reflexivity. Qed.

Unset Implicit Arguments.

Lemma setDomain_eleven_samples
  (qdelta Beta_sub : Z -> Qc) (fuel : nat) (d : BSplineBase Qc) :
  setDomain qdelta Beta_sub (S (S fuel)) (samples 11) 11 (Q2Qc 4) blank
  = Ok d ->
  exists s0,
    square_of (Q (base s0)) (M s0 + 1) /\ factor s0 = Ok d /\
    valid_domain d /\ K d = 1 /\ BC d = 2 /\ NX d = 11 /\ M d = 10.
Proof.
  intros H.
  pose proof (@Setup_fuel _ _ _ _ _ example_domain_Setup (S (S fuel))
                ltac:(lia)) as HS.
  pose proof example_domain_K as HK.
  pose proof example_domain_BC as HBC.
  pose proof example_domain_M as HM.
  pose proof example_domain_NX as HNX.
  pose proof example_domain_length as HX.
  pose proof example_domain_valid as Hvalid.
  revert HS HK HBC HM HNX HX Hvalid.
  generalize example_domain. intros s HS HK HBC HM HNX HX Hvalid.
  destruct (@setDomain_grid qdelta Beta_sub fuel _ _ _ _ _ s d 1
              Copy_eleven_samples HS
              ltac:(lia) ltac:(lia) ltac:(lia) H)
    as (s0 & Hsq & Hfac & EK & EBC & EM & ENX & EX & EDX & Emin).
  exists s0. split; [exact Hsq |]. split; [exact Hfac |].
  split; [exact (@valid_domain_same_grid s d EBC EM ENX EX EDX Emin Hvalid) |].
  repeat split; congruence.
Qed.

Set Implicit Arguments.

(** C9, amended.  For the eleven samples 0, 1, ..., 10 (the ten samples
    of the claim make [Setup] return 0) and the wavelength 4, [Setup]
    returns nonzero and stores [M = 10], and [setDomain] returns; on the
    domain that [setDomain] returns for them, whatever the undeclared
    [qdelta] and subscripted [Beta] are, the constructor fitted to data
    that are all zero returns a spline whose coefficients are all zero,
    and [evaluate] returns zero for every [x]. *)
Theorem zero_data_zero_spline :
  (forall fuel,
     exists s', Setup (S (S fuel)) (loaded (samples 11) 4 blank) = Ok (1, s')
                /\ M s' = 10) /\
  (exists d,
     setDomain example_qdelta example_Beta_sub 2 (samples 11) 11 (Q2Qc 4)
       blank = Ok d) /\
  forall (qdelta Beta_sub : Z -> Qc) (fuel : nat) (d : BSplineBase Qc)
         (y : list Qc),
    setDomain qdelta Beta_sub (S (S fuel)) (samples 11) 11 (Q2Qc 4) blank
    = Ok d ->
    11 <= Z.of_nat (length y) ->
    (forall v, In v y -> v = Q2Qc 0) ->
    M d = 10 /\
    exists sp,
      BSpline_new (S (S fuel)) d y = Ok sp /\
      domain sp = d /\ dim (A (s sp)) = M d + 1 /\
      (forall k, elt (A (s sp)) k = Q2Qc 0) /\
      (forall i, coefficient sp i = Ok (Q2Qc 0)) /\
      (forall x, evaluate (S (S fuel)) sp x = Ok (Q2Qc 0)).
Proof.
  split.
  { intros fuel. exists example_domain. split; [| exact example_domain_M].
    apply (@Setup_fuel _ _ _ _ _ example_domain_Setup); lia. }
  split.
  { exists example_factored. exact example_factored_setDomain. }
  intros qdelta Beta_sub fuel d y Hd Hy Hzero.
  destruct (setDomain_eleven_samples qdelta Beta_sub fuel d Hd)
    as (s0 & Hsq & Hfactor & Hvalid & HK & HBC & HNX & HM).
  split; [exact HM |].
  destruct (@BSpline_new_zero_data s0 d y fuel Hvalid HK HBC
              ltac:(lia) ltac:(lia) Hzero Hsq Hfactor)
    as (sp & Hnew & Hdom & Hdim & HA).
  pose proof Hvalid as (HBCr & HMr & _).
  exists sp. split; [exact Hnew |]. split; [exact Hdom |].
  split; [exact Hdim |]. split; [exact HA |]. split.
  - intros i. unfold coefficient, vget. rewrite Hdom.
    destruct ((0 <=? i) && (i <=? M d)) eqn:Hi; [| reflexivity].
    apply andb_true_iff in Hi. destruct Hi as [Hi1 Hi2].
    apply Z.leb_le in Hi1, Hi2.
    replace ((0 <=? i) && (i <? dim (A (s sp)))) with true
      by (symmetry; apply andb_true_iff; split;
          [apply Z.leb_le | apply Z.ltb_lt]; lia).
    now rewrite HA.
  - intros x.
    rewrite evaluate_Ok by (rewrite ?Hdom; lia).
    f_equal. apply weighted_sum_zero. intros k _. apply HA.
Qed.

Lemma zero_data_zero_spline_witness :
  setDomain example_qdelta example_Beta_sub 2 (samples 11) 11 (Q2Qc 4) blank
  = Ok example_factored /\
  11 <= Z.of_nat (length (zero_data 11)) /\
  (forall v, In v (zero_data 11) -> v = Q2Qc 0) /\
  exists sp,
    BSpline_new 2 example_factored (zero_data 11) = Ok sp /\
    coefficient sp 4 = Ok (Q2Qc 0) /\
    evaluate 2 sp (Q2Qc (7 # 2)) = Ok (Q2Qc 0).
Proof.
  assert (Hy : 11 <= Z.of_nat (length (zero_data 11)))
    by (vm_compute; discriminate).
  assert (Hzero : forall v, In v (zero_data 11) -> v = Q2Qc 0)
    by (intros v Hv; exact (repeat_spec _ _ _ Hv)).
  split; [exact example_factored_setDomain |].
  split; [exact Hy |]. split; [exact Hzero |].
  destruct zero_data_zero_spline as (_ & _ & Hfit).
  destruct (Hfit example_qdelta example_Beta_sub 0%nat example_factored
              (zero_data 11) example_factored_setDomain Hy Hzero)
    as (_ & sp & Hnew & _ & _ & _ & Hcoef & Heval).
  exists sp. split; [exact Hnew |]. split; [apply Hcoef | apply Heval].
Defined.

(* ================================================================== *)
(** * 30. The curve of the example spline *)
(* ================================================================== *)

Lemma example_spline_M : M (domain example_spline) = 10.
Proof. exact example_factored_M. Qed.

Lemma curve_samples_evaluate_witness :
  0 <= BC (domain example_spline) <= 2 /\
  3 <= M (domain example_spline) /\
  M (domain example_spline) + 1 <= dim (A (s example_spline)) /\
  spline (s example_spline) = [] /\
  exists data sp1,
    curve 2 example_spline = Ok (data, 11, sp1) /\
    Z.of_nat (length data) = 11 /\
    nth_error data 4
    = Some (weighted_sum example_spline (node (domain example_spline) 4)) /\
    curve 0 sp1 = Ok (data, 11, sp1).
Proof.
  assert (HBC : 0 <= BC (domain example_spline) <= 2)
    by (change (domain example_spline) with example_factored;
        rewrite example_factored_BC; lia).
  assert (HM : 3 <= M (domain example_spline))
    by (rewrite example_spline_M; lia).
  assert (Hdim : M (domain example_spline) + 1 <= dim (A (s example_spline)))
    by (rewrite example_spline_M; cbn; lia).
  assert (Hfresh : spline (s example_spline) = []) by reflexivity.
  split; [exact HBC |]. split; [exact HM |]. split; [exact Hdim |].
  split; [exact Hfresh |].
  destruct (@curve_samples_evaluate Qc Qc_Arith 0 example_spline
              HBC HM Hdim Hfresh)
    as (data & sp1 & Hcurve & Hlen & Hnth & _ & _ & _ & Hagain).
  rewrite example_spline_M in Hcurve, Hlen, Hnth, Hagain.
  exists data, sp1. split; [exact Hcurve |]. split; [exact Hlen |].
  split; [| exact (Hagain 0%nat)].
  destruct (Hnth 4 ltac:(lia)) as (e & _ & -> & He). exact He.
Defined.

(* ================================================================== *)
(** * 31. [setDomain] when [Setup] returns zero *)
(* ================================================================== *)

Section SetupIgnored.
Context {F : Type} {AF : Arith F}.
Implicit Types s : BSplineBase F.
Variables qdelta Beta_sub : Z -> F.

(** [Copy] of [nx > 0] samples. *)
Lemma Copy_inv (x : list F) (nx : Z) (wl : F) s s0 :
  Copy x nx wl s = Ok s0 -> 0 < nx ->
  s0 = with_waveLength (with_NX (with_X s (firstn (Z.to_nat nx) x)) nx) wl /\
  nx <= Z.of_nat (length x).
Proof.
  unfold Copy. intros H Hnx.
  replace (nx =? 0) with false in H by (symmetry; apply Z.eqb_neq; lia).
  destruct ((0 <? nx) && (nx <=? Z.of_nat (length x))) eqn:Hr;
    cbn [bind] in H; [| discriminate].
  apply andb_true_iff in Hr. destruct Hr as [_ Hr]. apply Z.leb_le in Hr.
  injection H as <-. split; [reflexivity | exact Hr].
Qed.

(** Lines 625-628: a wavelength greater than [xmax - xmin] returns 0
    before either loop, with [xmin] and [xmax] stored. *)
Lemma Setup_too_long (fuel : nat) s (lo hi : F) :
  Setup_bounds s = Ok (lo, hi) ->
  fltb (fsub hi lo) (waveLength s) = true ->
  Setup fuel s = Ok (0, with_bounds s lo hi).
Proof.
  intros Hb Hwl. rewrite (Setup_unfold fuel s Hb). cbv zeta.
  now rewrite Hwl.
Qed.

(** C1.  The source diverges from the claim.  For [nx > 0] samples and
    a wavelength greater than [xmax - xmin], [Setup] returns 0 and leaves
    [M] and [DX] as they were before the call; [setDomain] does not read
    that value: on an object whose [M] is at least 4 it goes on to
    [calculateQ] and [addP], which build a matrix [Q] of order [M + 1] on
    the grid left from before, and to [factor], so that it either leaves
    through [exit (1)] or returns with that matrix factored. *)
Theorem setDomain_ignores_Setup_failure
  (fuel : nat) (x : list F) (nx : Z) (wl : F) s s0 (lo hi : F) :
  0 < nx ->
  Copy x nx wl (Reset s) = Ok s0 ->
  Setup_bounds s0 = Ok (lo, hi) ->
  fltb (fsub hi lo) wl = true ->
  0 <= BC s <= 2 -> 4 <= M s ->
  let s1 := with_bounds s0 lo hi in
  (forall fuel', Setup fuel' s0 = Ok (0, s1)) /\
  M s1 = M s /\ DX s1 = DX s /\
  exists s2,
    (sq <- calculateQ qdelta Beta_sub
             (with_alpha s1 (Alpha s1 (waveLength s1))) ;;
     addP (S (S fuel)) sq) = Ok s2 /\
    M s2 = M s /\ DX s2 = DX s /\
    square_of (Q (base s2)) (M s + 1) /\
    setDomain qdelta Beta_sub (S (S fuel)) x nx wl s = factor s2 /\
    (factor s2 = Err Exited \/
     exists lu ix,
       LU_factor_banded (Q (base s2))
         (vnewsize (index (base s2)) (M s + 1)) 3 = (0, lu, ix) /\
       factor s2 = Ok (with_LU s2 lu ix)).
Proof.
  intros Hnx Hcopy Hb Hwl HBC HM s1.
  destruct (Copy_inv _ _ _ Hcopy Hnx) as [Hs0 Hlen].
  assert (Hw0 : waveLength s0 = wl) by (subst s0; reflexivity).
  assert (HM0 : M s0 = M s) by (subst s0; reflexivity).
  assert (HD0 : DX s0 = DX s) by (subst s0; reflexivity).
  assert (HBC0 : BC s0 = BC s) by (subst s0; reflexivity).
  assert (HNX0 : NX s0 <= Z.of_nat (length (X (base s0)))).
  { subst s0. cbn. rewrite length_firstn. lia. }
  assert (Hsetup : forall fuel', Setup fuel' s0 = Ok (0, s1)).
  { intros fuel'. apply Setup_too_long; [exact Hb |]. now rewrite Hw0. }
  split; [exact Hsetup |]. split; [exact HM0 |]. split; [exact HD0 |].
  set (sa := with_alpha s1 (Alpha s1 (waveLength s1))).
  destruct (@calculateQ_addP_Ok F AF qdelta Beta_sub fuel sa)
    as (Qm & Hasm & Hsq).
  { cbn. lia. }
  { cbn. lia. }
  { exact HNX0. }
  exists (with_Q sa Qm).
  split; [exact Hasm |]. split; [exact HM0 |]. split; [exact HD0 |].
  split; [cbn [with_Q Q base]; cbn [M sa with_alpha] in Hsq; cbn in Hsq;
          now rewrite <- HM0 |].
  split.
  - unfold setDomain. rewrite Hcopy. cbn [bind].
    rewrite Hsetup. cbn [bind]. fold s1. fold sa.
    destruct (calculateQ qdelta Beta_sub sa) as [sq | e];
      cbn [bind] in *; [| discriminate].
    now rewrite Hasm.
  - unfold factor. cbn [with_Q M Q base index].
    change (M sa) with (M s0). rewrite HM0.
    destruct (LU_factor_banded Qm _ 3) as [[ret lu] ix].
    destruct (Z.eqb_spec ret 0) as [-> | Hne].
    + right. exists lu, ix. split; reflexivity.
    + now left.
Qed.
End SetupIgnored.

(** The second call of [setDomain] on the example returns, with the grid
    of the first call and a matrix and a factorisation of order 11. *)
Lemma example_refit_check :
  match example_refit with
  | Ok d =>
      (M d =? 10) && (NX d =? 2) && Qeq_bool (this (DX d)) 1
      && (num_rows (Q (base d)) =? 11) && (num_rows (LU (base d)) =? 11)
  | Err _ => false
  end = true.
Proof. vm_cast_no_check (@eq_refl bool true). Qed.

Lemma example_refit_Ok :
  exists d,
    example_refit = Ok d /\ M d = 10 /\ NX d = 2 /\
    num_rows (Q (base d)) = 11 /\ num_rows (LU (base d)) = 11.
Proof.
  pose proof example_refit_check as H.
  destruct example_refit as [d | e]; [| discriminate].
  repeat (apply andb_true_iff in H; destruct H as [H ?]).
  exists d. split; [reflexivity |].
  repeat split; now apply Z.eqb_eq.
Qed.

Lemma setDomain_ignores_Setup_failure_witness :
  0 < 2 /\
  Copy [Q2Qc 0; Q2Qc 1] 2 (Q2Qc 5) (Reset example_factored)
  = Ok (loaded [Q2Qc 0; Q2Qc 1] 5 example_factored) /\
  Setup_bounds (loaded [Q2Qc 0; Q2Qc 1] 5 example_factored)
  = Ok (Q2Qc 0, Q2Qc 1) /\
  fltb (fsub (Q2Qc 1) (Q2Qc 0)) (Q2Qc 5) = true /\
  0 <= BC example_factored <= 2 /\ 4 <= M example_factored /\
  exists s1 d,
    Setup 0 (loaded [Q2Qc 0; Q2Qc 1] 5 example_factored) = Ok (0, s1) /\
    M s1 = 10 /\
    example_refit = Ok d /\ M d = 10 /\
    num_rows (Q (base d)) = 11 /\ num_rows (LU (base d)) = 11.
Proof.
  assert (Hnx : 0 < 2) by lia.
  assert (Hcopy : Copy [Q2Qc 0; Q2Qc 1] 2 (Q2Qc 5) (Reset example_factored)
                  = Ok (loaded [Q2Qc 0; Q2Qc 1] 5 example_factored))
    by reflexivity.
  assert (Hb : Setup_bounds (loaded [Q2Qc 0; Q2Qc 1] 5 example_factored)
               = Ok (Q2Qc 0, Q2Qc 1)) by (vm_compute; reflexivity).
  assert (Hwl : fltb (fsub (Q2Qc 1) (Q2Qc 0)) (Q2Qc 5) = true)
    by (vm_compute; reflexivity).
  assert (HBC : 0 <= BC example_factored <= 2)
    by (rewrite example_factored_BC; lia).
  assert (HM : 4 <= M example_factored)
    by (rewrite example_factored_M; lia).
  split; [exact Hnx |]. split; [exact Hcopy |]. split; [exact Hb |].
  split; [exact Hwl |]. split; [exact HBC |]. split; [exact HM |].
  destruct (@setDomain_ignores_Setup_failure Qc Qc_Arith
              example_qdelta example_Beta_sub 0 [Q2Qc 0; Q2Qc 1] 2 (Q2Qc 5)
              example_factored _ (Q2Qc 0) (Q2Qc 1) Hnx Hcopy Hb Hwl HBC HM)
    as (Hsetup & HM1 & _).
  destruct example_refit_Ok as (d & Hd & HMd & _ & HQ & HLU).
  eexists. exists d. split; [exact (Hsetup 0%nat) |].
  split; [rewrite HM1; exact example_factored_M |].
  split; [exact Hd |]. split; [exact HMd |]. split; [exact HQ | exact HLU].
Defined.

(* ================================================================== *)
(** * 32. [nodes]: the node array and its cache *)
(* ================================================================== *)

Section NodesFacts.
Context {F : Type} {AF : Arith F}.
Implicit Types s : BSplineBase F.

(** The loop of [nodes] appends the abscissas [xmin + i * DX]. *)
Lemma nodes_loop s (hi : Z) (v0 : list F) :
  -1 <= hi ->
  let v := for_Z 0 hi (fun i v => v ++ [node s i]) v0 in
  Z.of_nat (length v) = Z.of_nat (length v0) + (hi + 1) /\
  (forall i, 0 <= i <= hi ->
     nth_error v (length v0 + Z.to_nat i) = Some (node s i)).
Proof.
  intros Hhi. cbv zeta.
  destruct (@for_Z_inv _
              (fun k (v : list F) =>
                 Z.of_nat (length v) = Z.of_nat (length v0) + k /\
                 forall i, 0 <= i < k ->
                   nth_error v (length v0 + Z.to_nat i) = Some (node s i))
              0 hi (fun i v => v ++ [node s i]) v0) as [Hlen Hnth].
  - lia.
  - split; [lia |]. intros i Hi. lia.
  - intros k v Hk [Hlen Hnth]. split.
    + rewrite length_app. cbn [length]. lia.
    + intros i Hi. destruct (Z.eq_dec i k) as [-> | Hne].
      * rewrite nth_error_app2 by lia.
        replace (length v0 + Z.to_nat k - length v)%nat with O by lia.
        reflexivity.
      * rewrite nth_error_app1 by lia. apply Hnth. lia.
  - split; [exact Hlen |]. intros i Hi. apply Hnth. lia.
Qed.

(** What [nodes] does with an array that is already there. *)
Lemma nodes_cached s :
  Nodes (base s) <> [] ->
  nodes s
  = if Z.of_nat (length (Nodes (base s))) =? M s + 1
    then Ok (Nodes (base s), M s + 1, s)
    else Err AssertFailed.
Proof.
  intros Hne. unfold nodes.
  replace (Z.of_nat (length (Nodes (base s))) =? 0) with false.
  2:{ symmetry. apply Z.eqb_neq. destruct (Nodes (base s)); [congruence |].
      cbn [length]. lia. }
  destruct (Z.eqb_spec (Z.of_nat (length (Nodes (base s)))) (M s + 1))
    as [-> | _]; reflexivity.
Qed.

(** X1.  On an object whose node array is empty and whose [M] is not
    negative, [nodes] returns [M + 1] abscissas, the one at place [i]
    being [xmin + i * DX]; it stores the array, and a second call returns
    the stored array and changes nothing. *)
Theorem nodes_first_call s :
  Nodes (base s) = [] -> 0 <= M s ->
  exists v s',
    nodes s = Ok (v, M s + 1, s') /\
    Z.of_nat (length v) = M s + 1 /\
    (forall i, 0 <= i <= M s -> nth_error v (Z.to_nat i) = Some (node s i)) /\
    s' = with_Nodes s v /\
    nodes s' = Ok (v, M s + 1, s').
Proof.
  intros Hempty HM. unfold nodes at 1. rewrite Hempty.
  cbn [length Z.of_nat Z.eqb with_Nodes Nodes base M].
  destruct (@nodes_loop s (M s) [] ltac:(lia)) as [Hlen Hnth].
  cbn [length Z.of_nat] in Hlen, Hnth.
  change (fun (i : Z) (v : list F) =>
            v ++ [fadd (xmin s) (fmul (fofZ i) (DX s))])
    with (fun (i : Z) (v : list F) => v ++ [node s i]).
  set (v := for_Z 0 (M s) (fun i v => v ++ [node s i]) []) in *.
  assert (Hv : Z.of_nat (length v) = M s + 1) by lia.
  exists v, (with_Nodes s v). rewrite Hv, Z.eqb_refl.
  split; [reflexivity |].
  split; [reflexivity |]. split; [exact Hnth |]. split; [reflexivity |].
  rewrite nodes_cached.
  - change (Nodes (base (with_Nodes s v))) with v.
    change (M (with_Nodes s v)) with (M s).
    now rewrite Hv, Z.eqb_refl.
  - change (Nodes (base (with_Nodes s v))) with v.
    intros ->. cbn [length Z.of_nat] in Hv. lia.
Qed.

Lemma Copy_Nodes (x : list F) (nx : Z) (wl : F) s s0 :
  Copy x nx wl s = Ok s0 ->
  Nodes (base s0) = Nodes (base s) /\ M s0 = M s.
Proof.
  unfold Copy. intros H.
  destruct (nx =? 0); cbn [bind] in H.
  - injection H as <-. split; reflexivity.
  - destruct ((0 <? nx) && (nx <=? Z.of_nat (length x)));
      cbn [bind] in H; [| discriminate].
    injection H as <-. split; reflexivity.
Qed.

Variables qdelta Beta_sub : Z -> F.

Lemma calculateQ_inv s s' :
  calculateQ qdelta Beta_sub s = Ok s' -> exists Q3, s' = with_Q s Q3.
Proof.
  unfold calculateQ. intros H.
  apply bind_Ok_inv in H. destruct H as (Q1 & _ & H).
  apply bind_Ok_inv in H. destruct H as (Q2 & _ & H).
  apply bind_Ok_inv in H. destruct H as (Q3 & _ & H).
  injection H as <-. now exists Q3.
Qed.

Lemma addP_inv (fuel : nat) s s' :
  addP fuel s = Ok s' -> exists Qm, s' = with_Q s Qm.
Proof.
  unfold addP. intros H.
  apply bind_Ok_inv in H. destruct H as (P & _ & H).
  apply bind_Ok_inv in H. destruct H as (Qm & _ & H).
  injection H as <-. now exists Qm.
Qed.

(** The members that a call of [setDomain] that returns has left alone
    or set. *)
Lemma setDomain_inv (fuel : nat) (x : list F) (nx : Z) (wl : F) s d :
  setDomain qdelta Beta_sub fuel x nx wl s = Ok d ->
  exists s0 ret s1,
    Copy x nx wl (Reset s) = Ok s0 /\
    Setup fuel s0 = Ok (ret, s1) /\
    Nodes (base d) = Nodes (base s) /\
    M d = M s1 /\ DX d = DX s1 /\ xmin d = xmin s1 /\ xmax d = xmax s1 /\
    K d = K s /\ BC d = BC s.
Proof.
  unfold setDomain. intros H.
  apply bind_Ok_inv in H. destruct H as (s0 & Hcopy & H).
  apply bind_Ok_inv in H. destruct H as ([ret s1] & Hsetup & H).
  apply bind_Ok_inv in H. destruct H as (s2 & HQ & H).
  apply bind_Ok_inv in H. destruct H as (s3 & HP & H).
  destruct (@calculateQ_inv _ _ HQ) as (Q3 & ->).
  destruct (@addP_inv _ _ _ HP) as (Qm & ->).
  destruct (factor_inv _ H) as (lu & ix & _ & ->).
  exists s0, ret, s1. split; [exact Hcopy |]. split; [exact Hsetup |].
  cbn [with_LU with_Q with_alpha Nodes base M DX xmin xmax K BC].
  destruct (Copy_Nodes _ _ _ _ Hcopy) as [HN _].
  change (Nodes (base (Reset s))) with (Nodes (base s)) in HN.
  assert (Hkeep : Nodes (base s1) = Nodes (base s0) /\ K s1 = K s0
                  /\ BC s1 = BC s0).
  { destruct (Setup_inv _ _ Hsetup)
      as (lo & hi & _ & [(_ & -> & _) | (_ & _ & n1 & m & _ & _ & ->)]);
      repeat split; reflexivity. }
  destruct Hkeep as (HN1 & HK1 & HBC1).
  assert (HK0 : K s0 = K s /\ BC s0 = BC s).
  { unfold Copy in Hcopy. destruct (nx =? 0); cbn [bind] in Hcopy.
    - injection Hcopy as <-. split; reflexivity.
    - destruct ((0 <? nx) && (nx <=? Z.of_nat (length x)));
        cbn [bind] in Hcopy; [| discriminate].
      injection Hcopy as <-. split; reflexivity. }
  destruct HK0 as [HK0 HBC0].
  repeat split; try reflexivity; congruence.
Qed.

(** X2.  [setDomain] never clears the node array: when it returns, the
    array that an earlier call of [nodes] stored is still there, and
    [nodes] returns it as it is if its length is the new [M + 1],
    whatever [xmin] and [DX] are now, and fails its assertion if not. *)
Theorem setDomain_keeps_Nodes
  (fuel : nat) (x : list F) (nx : Z) (wl : F) s d :
  setDomain qdelta Beta_sub fuel x nx wl s = Ok d ->
  Nodes (base s) <> [] ->
  Nodes (base d) = Nodes (base s) /\
  nodes d
  = if Z.of_nat (length (Nodes (base s))) =? M d + 1
    then Ok (Nodes (base s), M d + 1, d)
    else Err AssertFailed.
Proof.
  intros H Hne.
  destruct (setDomain_inv _ _ _ _ _ H) as (_ & _ & _ & _ & _ & HN & _).
  split; [exact HN |].
  rewrite nodes_cached by (rewrite HN; exact Hne). now rewrite HN.
Qed.

(** X3.  [setDomain] with [nx = 0] copies nothing and leaves [NX] as it
    was; [Setup] then reads [X[0]] of the emptied sample vector, out of
    range. *)
Theorem setDomain_no_samples (fuel : nat) (x : list F) (wl : F) s :
  Copy x 0 wl (Reset s) = Ok (with_waveLength (Reset s) wl) /\
  NX (with_waveLength (Reset s) wl) = NX s /\
  X (base (with_waveLength (Reset s) wl)) = [] /\
  setDomain qdelta Beta_sub fuel x 0 wl s = Err OutOfRange.
Proof. repeat split; reflexivity. Qed.
End NodesFacts.

(* ================================================================== *)
(** * 33. [Ratio] and [Setup] on exact arithmetic *)
(* ================================================================== *)

Section SetupExact.
Local Open Scope Z_scope.
Implicit Types s : BSplineBase Qc.

(** [Ratio] accepts the candidate [ni] when there is a data point for
    each of its [ni + 1] nodes. *)
Lemma Ratio_ok_Qc s (ni : Z) :
  0 <= ni -> (Ratio_ok s ni = true <-> ni + 1 <= NX s).
Proof.
  intros Hni. unfold Ratio_ok, Ratio. cbn [fst]. qc_ops.
  rewrite Qc_leb_le.
  assert (Hpos : (Q2Qc 0 < Q2Qc (inject_Z (ni + 1)))%Qc).
  { unfold Qclt. rewrite !this_Q2Qc. change 0%Q with (inject_Z 0).
    rewrite <- Zlt_Qlt. lia. }
  rewrite (Qc_div_ge _ _ Hpos).
  unfold Qcle. rewrite this_mult, !this_Q2Qc, Qmult_1_l.
  now rewrite <- Zle_Qle.
Qed.

(** X4.  [Ratio] returns true exactly when the [NX] data points are at
    least as many as the [ni + 1] nodes of the candidate. *)
Theorem Ratio_accepts_iff s (ni : Z) :
  0 <= ni ->
  (fst (fst (fst (Ratio s ni))) = true <-> ni + 1 <= NX s).
Proof. exact (@Ratio_ok_Qc s ni). Qed.

(** The candidate that a successful [Setup] stores has passed [Ratio]. *)
Lemma tweaks_to_ok s (n1 m : Z) :
  Ratio_ok s n1 = true -> tweaks_to s n1 m -> Ratio_ok s m = true.
Proof.
  intros Hn1 (n2 & Hlt & Hbefore & Hlast).
  assert (Hok : forall k, n1 < k < n2 -> Ratio_ok s k = true).
  { intros k Hk. destruct (Hbefore k Hk) as [Hoff _].
    unfold tweak_backs_off in Hoff. apply orb_false_iff in Hoff.
    destruct Hoff as [Hoff _]. now apply negb_false_iff in Hoff. }
  destruct Hlast as [[_ ->] | (Hoff & _ & ->)].
  - destruct (Z.eq_dec (n2 - 1) n1) as [-> | Hne]; [exact Hn1 |].
    apply Hok. lia.
  - unfold tweak_backs_off in Hoff. apply orb_false_iff in Hoff.
    destruct Hoff as [Hoff _]. now apply negb_false_iff in Hoff.
Qed.

Lemma Setup_success_inv (fuel : nat) s (ret : Z) s' :
  Setup fuel s = Ok (ret, s') -> ret <> 0 ->
  exists lo hi n1 m,
    Setup_bounds s = Ok (lo, hi) /\
    fltb (fsub hi lo) (waveLength s) = false /\
    grows_to (with_bounds s lo hi) 9 n1 /\
    tweaks_to (with_bounds s lo hi) n1 m /\ 10 <= n1 <= m /\
    Ratio_ok (with_bounds s lo hi) m = true /\
    s' = with_grid (with_bounds s lo hi) m
           (Ratio_deltax (with_bounds s lo hi) m).
Proof.
  intros H Hret.
  destruct (Setup_inv _ _ H)
    as (lo & hi & Hb & [(H0 & _) | (_ & Hspan & n1 & m & Hg & Ht & ->)]);
    [contradiction |].
  exists lo, hi, n1, m. split; [exact Hb |]. split; [exact Hspan |].
  split; [exact Hg |]. split; [exact Ht |].
  pose proof (tweaks_to_lower Ht) as Hm.
  pose proof Hg as (Hlt & _ & Hok & _).
  split; [lia |]. split; [| reflexivity].
  now apply (tweaks_to_ok Hok).
Qed.

(** X5.  A call of [Setup] that returns nonzero has chosen no more
    nodes than there are data points: [M + 1 <= NX]. *)
Theorem Setup_nodes_at_most_samples (fuel : nat) s (ret : Z) s' :
  Setup fuel s = Ok (ret, s') -> ret <> 0 ->
  M s' + 1 <= NX s /\ NX s' = NX s.
Proof.
  intros H Hret.
  destruct (@Setup_success_inv fuel s ret s' H Hret)
    as (lo & hi & n1 & m & _ & _ & _ & _ & Hm & Hok & ->).
  cbn [M NX with_grid with_bounds]. split; [| reflexivity].
  apply (@Ratio_ok_Qc (with_bounds s lo hi) m) in Hok; [| lia].
  exact Hok.
Qed.

(** X6.  A call of [Setup] that returns nonzero stores the bounds of the
    samples in [xmin] and [xmax] and a grid that spans them exactly:
    [DX = (xmax - xmin) / M], node 0 is [xmin], node [M] is [xmax], and
    each of the [NX] samples lies between the two. *)
Theorem Setup_grid_spans_samples (fuel : nat) s (ret : Z) s' :
  Setup fuel s = Ok (ret, s') -> ret <> 0 ->
  Setup_bounds s = Ok (xmin s', xmax s') /\
  DX s' = ((xmax s' - xmin s') / Q2Qc (inject_Z (M s')))%Qc /\
  node s' 0 = xmin s' /\
  node s' (M s') = xmax s' /\
  forall x, In x (firstn (Z.to_nat (NX s)) (X (base s))) ->
            (node s' 0 <= x)%Qc /\ (x <= node s' (M s'))%Qc.
Proof.
  intros H Hret.
  destruct (@Setup_success_inv fuel s ret s' H Hret)
    as (lo & hi & n1 & m & Hb & _ & _ & _ & Hm & _ & ->).
  cbn [M DX xmin xmax with_grid with_bounds].
  change (Ratio_deltax (with_bounds s lo hi) m)
    with ((hi - lo) / Q2Qc (inject_Z m))%Qc.
  assert (Hmpos : (0 < inject_Z m)%Q).
  { change 0%Q with (inject_Z 0). rewrite <- Zlt_Qlt. lia. }
  assert (H0 : node (with_grid (with_bounds s lo hi) m
                       ((hi - lo) / Q2Qc (inject_Z m))%Qc) 0 = lo).
  { unfold node. cbn [xmin DX with_grid with_bounds]. qc_ops.
    qc_all. change (inject_Z 0) with 0%Q. ring. }
  assert (HM : node (with_grid (with_bounds s lo hi) m
                       ((hi - lo) / Q2Qc (inject_Z m))%Qc) m = hi).
  { unfold node. cbn [xmin DX with_grid with_bounds]. qc_ops.
    qc_all. field. lra. }
  split; [exact Hb |]. split; [reflexivity |].
  split; [exact H0 |]. split; [exact HM |].
  rewrite H0, HM. apply (Setup_bounds_Qc s Hb).
Qed.

(** X7.  After a call of [Setup] that returns nonzero for a positive
    wavelength, the wavelength is at most [xmax - xmin], the spacing is
    positive and at most twice the wavelength. *)
Theorem Setup_spacing_bound (fuel : nat) s (ret : Z) s' :
  Setup fuel s = Ok (ret, s') -> ret <> 0 ->
  (Q2Qc 0 < waveLength s)%Qc ->
  (waveLength s <= xmax s' - xmin s')%Qc /\
  (Q2Qc 0 < DX s')%Qc /\
  (DX s' <= Q2Qc 2 * waveLength s)%Qc.
Proof.
  intros H Hret Hwl.
  destruct (@Setup_success_inv fuel s ret s' H Hret)
    as (lo & hi & n1 & m & Hb & Hspan & Hg & _ & Hm & _ & ->).
  destruct Hg as (_ & _ & _ & Hrf).
  cbn [M DX xmin xmax with_grid with_bounds].
  change (Ratio_deltax (with_bounds s lo hi) m)
    with ((hi - lo) / Q2Qc (inject_Z m))%Qc.
  unfold Ratio_ratiof, Ratio, fmin in Hrf.
  cbn [fst snd xmax xmin waveLength with_bounds] in Hrf.
  qc_ops. qc_tests.
  assert (Hmpos : (0 < inject_Z m)%Q).
  { change 0%Q with (inject_Z 0). rewrite <- Zlt_Qlt. lia. }
  assert (Hn1pos : (0 < inject_Z n1)%Q).
  { change 0%Q with (inject_Z 0). rewrite <- Zlt_Qlt. lia. }
  assert (Hn1m : (inject_Z n1 <= inject_Z m)%Q)
    by (rewrite <- Zle_Qle; lia).
  split; [exact Hspan |].
  assert (Hpos : (0 < this hi - this lo)%Q).
  { unfold Qclt, Qcle in *. qc_all. lra. }
  apply (Qc_div_le _ _ Hwl) in Hrf.
  assert (Hn1c : (Q2Qc 0 < Q2Qc (inject_Z n1))%Qc)
    by (unfold Qclt; rewrite !this_Q2Qc; exact Hn1pos).
  apply (Qc_div_le _ _ Hn1c) in Hrf.
  assert (Hmc : (Q2Qc 0 < Q2Qc (inject_Z m))%Qc)
    by (unfold Qclt; rewrite !this_Q2Qc; exact Hmpos).
  split.
  - unfold Qclt. rewrite this_div, this_minus, !this_Q2Qc.
    apply Qlt_shift_div_l; [exact Hmpos | lra].
  - apply (Qc_div_le _ _ Hmc).
    unfold Qclt, Qcle in *. qc_all.
    assert (H2 : (0 < 2 * this (waveLength s))%Q) by lra.
    nra.
Qed.
End SetupExact.

(* ================================================================== *)
(** * 33a. [Setup] with the ratio of [Ratio] as the source computes it *)
(* ================================================================== *)

Section RatioInverted.
Local Open Scope Z_scope.
Implicit Types s : BSplineBase Qc.

(** [ratiof] is [deltax / waveLength]: it does not grow with the
    candidate count.  Once it is at most 2 it stays so. *)
Lemma Ratio_ratiof_stays_low s (lo hi : Qc) (n k : Z) :
  (lo <= hi)%Qc -> (Q2Qc 0 < waveLength s)%Qc ->
  0 < n <= k ->
  fltb fmin (Ratio_ratiof (with_bounds s lo hi) n) = false ->
  (Ratio_ratiof (with_bounds s lo hi) k <= Q2Qc 2)%Qc.
Proof.
  intros Hle Hwl Hnk Hn.
  unfold Ratio_ratiof, Ratio, fmin in *.
  cbn [fst snd xmax xmin waveLength with_bounds] in *.
  qc_ops. qc_tests.
  assert (Hnpos : (Q2Qc 0 < Q2Qc (inject_Z n))%Qc).
  { unfold Qclt. rewrite !this_Q2Qc. change 0%Q with (inject_Z 0).
    rewrite <- Zlt_Qlt. lia. }
  assert (Hkpos : (Q2Qc 0 < Q2Qc (inject_Z k))%Qc).
  { unfold Qclt. rewrite !this_Q2Qc. change 0%Q with (inject_Z 0).
    rewrite <- Zlt_Qlt. lia. }
  assert (Hnk' : (inject_Z n <= inject_Z k)%Q) by (rewrite <- Zle_Qle; lia).
  apply (Qc_div_le _ _ Hwl) in Hn. apply (Qc_div_le _ _ Hnpos) in Hn.
  apply (Qc_div_le _ _ Hwl). apply (Qc_div_le _ _ Hkpos).
  unfold Qclt, Qcle in *. qc_all.
  assert (H2 : (0 <= 2 * this (waveLength s) * (inject_Z k - inject_Z n))%Q).
  { apply Qmult_le_0_compat; lra. }
  lra.
Qed.

(** C4.  The source diverges from the claim.  [Ratio] computes
    [ratiof = deltax / waveLength], the inverse of the "nodes per
    wavelength" that the comments of [Setup] name.  On exact arithmetic,
    for a positive wavelength, the first loop leaves at a count [n1]
    from which on [ratiof] is at most 2: the test [ratiof < 4] of the
    second loop then holds for every candidate and the test
    [ratiof > 15.0] for none, so that the second loop runs until [Ratio]
    finds fewer data points than nodes, and every call of [Setup] that
    returns nonzero stores [M = NX - 1].  The second half of the claim
    holds: a second run on the same samples and wavelength returns the
    same value and stores the same [M] and [DX]. *)
Theorem Setup_stores_NX_minus_1 (fuel : nat) s (ret : Z) s' :
  Setup fuel s = Ok (ret, s') -> ret <> 0 ->
  (Q2Qc 0 < waveLength s)%Qc ->
  M s' = NX s - 1 /\
  (exists n1, 10 <= n1 <= M s' /\
     forall k, n1 <= k ->
       fltb (Ratio_ratiof s' k) (fofZ 4) = true /\
       fltb (flit 15) (Ratio_ratiof s' k) = false) /\
  (forall s2 (fuel2 : nat) (r2 : Z) s2',
      same_input s s2 ->
      Setup fuel2 s2 = Ok (r2, s2') ->
      r2 = ret /\ M s2' = M s' /\ DX s2' = DX s').
Proof.
  intros H Hret Hwl.
  destruct (@Setup_success_inv fuel s ret s' H Hret)
    as (lo & hi & n1 & m & Hb & _ & Hg & Ht & Hm & Hok & ->).
  destruct (Setup_bounds_Qc s Hb) as [Hle _].
  pose proof Hg as (_ & _ & _ & Hrf).
  assert (Hlow : forall k, n1 <= k ->
            (Ratio_ratiof (with_bounds s lo hi) k <= Q2Qc 2)%Qc).
  { intros k Hk.
    apply (@Ratio_ratiof_stays_low s lo hi n1 k Hle Hwl); [lia | exact Hrf]. }
  assert (Hdead : forall k, n1 <= k ->
            fltb (Ratio_ratiof (with_bounds s lo hi) k) (fofZ 4) = true /\
            fltb (flit 15) (Ratio_ratiof (with_bounds s lo hi) k) = false).
  { intros k Hk. specialize (Hlow k Hk). qc_ops. split.
    - apply Qc_ltb_lt. eapply Qcle_lt_trans; [exact Hlow |]. reflexivity.
    - apply Qc_ltb_ge. eapply Qcle_trans; [exact Hlow |]. discriminate. }
  cbn [M NX with_grid with_bounds].
  split; [| split].
  - destruct Ht as (n2 & Hlt & _ & [[Hoff ->] | (_ & Hon & _)]).
    + unfold tweak_backs_off in Hoff.
      destruct (Hdead n2 ltac:(lia)) as [_ H15]. rewrite H15 in Hoff.
      rewrite orb_false_r in Hoff. apply negb_true_iff in Hoff.
      assert (Hn2 : ~ n2 + 1 <= NX s).
      { intros Hc.
        apply (@Ratio_ok_Qc (with_bounds s lo hi) n2) in Hc; [| lia].
        congruence. }
      apply (@Ratio_ok_Qc (with_bounds s lo hi) (n2 - 1)) in Hok; [| lia].
      cbn [NX with_bounds] in Hok, Hn2. lia.
    + unfold tweak_goes_on in Hon.
      destruct (Hdead n2 ltac:(lia)) as [H4 _]. rewrite H4 in Hon.
      discriminate.
  - exists n1. split; [lia |]. exact Hdead.
  - intros s2 fuel2 r2 s2' Hin H2.
    pose proof (@Setup_fuel _ _ _ _ _ H (Nat.max fuel fuel2) ltac:(lia))
      as H1'.
    pose proof (@Setup_fuel _ _ _ _ _ H2 (Nat.max fuel fuel2) ltac:(lia))
      as H2'.
    destruct (@Setup_same_input Qc Qc_Arith _ _ _ _ _ _ _ Hin H1' H2')
      as (Hr & _ & _ & Hgrid).
    destruct (Hgrid Hret) as [HM HD].
    cbn [M DX with_grid with_bounds] in HM, HD.
    split; [now symmetry |]. split; now symmetry.
Qed.
End RatioInverted.

(** On the 100 samples 0, 1, ..., 99 with wavelength 20 [Setup] stores
    [M = 99], the step sequence as the spec words it [M = 20]. *)
Lemma Setup_hundred_samples :
  match Setup 100 (loaded (samples 100) 20 blank),
        Setup_as_claimed 100 (loaded (samples 100) 20 blank) with
  | Ok (r1, s1), Ok (r2, s2) =>
      (r1 =? 1) && (M s1 =? 99) && (r2 =? 1) && (M s2 =? 20)
  | _, _ => false
  end = true.
Proof. vm_cast_no_check (@eq_refl bool true). Qed.

Lemma Setup_stores_NX_minus_1_witness :
  Setup 2 (loaded (samples 11) 4 blank) = Ok (1, example_domain) /\
  1 <> 0 /\
  (Q2Qc 0 < waveLength (loaded (samples 11) 4 blank))%Qc /\
  M example_domain = NX (loaded (samples 11) 4 blank) - 1.
Proof.
  assert (H1 : 1 <> 0) by discriminate.
  assert (Hwl : (Q2Qc 0 < waveLength (loaded (samples 11) 4 blank))%Qc)
    by (vm_compute; reflexivity).
  split; [exact example_domain_Setup |]. split; [exact H1 |].
  split; [exact Hwl |].
  exact (proj1 (@Setup_stores_NX_minus_1 2 _ 1 example_domain
                  example_domain_Setup H1 Hwl)).
Defined.

(* ================================================================== *)
(** * 34. [Setup]: the bounds of the samples, and termination *)
(* ================================================================== *)

Section SetupBounds.
Local Open Scope Z_scope.
Implicit Types s : BSplineBase Qc.

(** Lines 613-623: the scan of the samples returns, with the least and
    the greatest of them. *)
Lemma Setup_bounds_attained s :
  0 < NX s <= Z.of_nat (length (X (base s))) ->
  exists lo hi,
    Setup_bounds s = Ok (lo, hi) /\
    In lo (firstn (Z.to_nat (NX s)) (X (base s))) /\
    In hi (firstn (Z.to_nat (NX s)) (X (base s))) /\
    forall x, In x (firstn (Z.to_nat (NX s)) (X (base s))) ->
              (lo <= x)%Qc /\ (x <= hi)%Qc.
Proof.
  intros HNX. unfold Setup_bounds.
  destruct (vec_at_Ok (X (base s)) (i := 0)) as [x0 Hx0]; [lia |].
  rewrite Hx0. cbn [bind].
  pose proof (firstn_vec_at _ _ Hx0) as H1. cbn [Z.add Z.to_nat] in H1.
  change (Z.to_nat 0) with O in H1. cbn [firstn app] in H1.
  destruct (@for_ZM_inv _
              (fun i (p : Qc * Qc) =>
                 In (fst p) (firstn (Z.to_nat i) (X (base s))) /\
                 In (snd p) (firstn (Z.to_nat i) (X (base s))) /\
                 forall x, In x (firstn (Z.to_nat i) (X (base s))) ->
                           (fst p <= x)%Qc /\ (x <= snd p)%Qc)
              1 (NX s - 1)
              (fun i '(lo, hi) =>
                 xi <- vec_at (X (base s)) i ;;
                 Ok (if fltb xi lo then (xi, hi)
                     else if fltb hi xi then (lo, xi)
                     else (lo, hi)))
              (x0, x0)) as ([lo hi] & Hrun & Hlo & Hhi & Hall).
  - change (Z.to_nat 1) with (Pos.to_nat 1). rewrite H1. cbn [fst snd].
    split; [now left |]. split; [now left |].
    intros x [<- | []]. split; apply Qcle_refl.
  - intros i [lo hi] Hi (Hlo & Hhi & Hall). cbn [fst snd] in *.
    destruct (vec_at_Ok (X (base s)) (i := i)) as [xi Hxi]; [lia |].
    rewrite Hxi. cbn [bind]. rewrite (firstn_vec_at _ _ Hxi).
    assert (Hle : (lo <= hi)%Qc).
    { destruct (Hall lo Hlo) as [_ H]. exact H. }
    eexists. split; [reflexivity |]. qc_ops.
    destruct (Qc_ltb xi lo) eqn:Hc1; [| destruct (Qc_ltb hi xi) eqn:Hc2];
      qc_tests; cbn [fst snd].
    + split; [apply in_or_app; right; now left |].
      split; [apply in_or_app; now left |].
      intros x Hx. apply in_app_or in Hx. destruct Hx as [Hx | [<- | []]].
      * destruct (Hall x Hx) as [Hl Hh]. split; [| exact Hh].
        eapply Qcle_trans; [apply Qclt_le_weak; exact Hc1 | exact Hl].
      * split; [apply Qcle_refl |].
        eapply Qcle_trans; [apply Qclt_le_weak; exact Hc1 | exact Hle].
    + split; [apply in_or_app; now left |].
      split; [apply in_or_app; right; now left |].
      intros x Hx. apply in_app_or in Hx. destruct Hx as [Hx | [<- | []]].
      * destruct (Hall x Hx) as [Hl Hh]. split; [exact Hl |].
        eapply Qcle_trans; [exact Hh | apply Qclt_le_weak; exact Hc2].
      * split; [| apply Qcle_refl]. exact Hc1.
    + split; [apply in_or_app; now left |].
      split; [apply in_or_app; now left |].
      intros x Hx. apply in_app_or in Hx. destruct Hx as [Hx | [<- | []]].
      * now apply Hall.
      * now split.
  - replace (Z.max 1 (NX s - 1 + 1)) with (NX s) in * by lia.
    exists lo, hi. cbn [fst snd] in *.
    split; [exact Hrun |]. split; [exact Hlo |]. split; [exact Hhi |].
    exact Hall.
Qed.

(** X8.  For [NX > 0] samples the first loop of [Setup] returns the least
    and the greatest of them: both are samples, and every sample lies
    between them. *)
Theorem Setup_bounds_min_max s :
  0 < NX s <= Z.of_nat (length (X (base s))) ->
  exists lo hi,
    Setup_bounds s = Ok (lo, hi) /\
    In lo (firstn (Z.to_nat (NX s)) (X (base s))) /\
    In hi (firstn (Z.to_nat (NX s)) (X (base s))) /\
    forall x, In x (firstn (Z.to_nat (NX s)) (X (base s))) ->
              (lo <= x)%Qc /\ (x <= hi)%Qc.
Proof. exact (@Setup_bounds_attained s). Qed.

(** The first loop stops at the latest when the candidate has more nodes
    than there are data points. *)
Lemma Setup_grow_terminates s :
  forall (fuel : nat) (ni : Z),
    0 <= ni -> NX s - ni <= Z.of_nat fuel -> (0 < fuel)%nat ->
    exists r, Setup_grow fuel s ni = Ok r.
Proof.
  induction fuel as [| fuel IH]; intros ni Hni Hfuel Hpos; [lia |].
  rewrite Setup_grow_unfold.
  destruct (Ratio_ok s (ni + 1)) eqn:Hok; cbn [negb]; [| now eexists].
  apply (@Ratio_ok_Qc s (ni + 1)) in Hok; [| lia].
  destruct (fltb fmin (Ratio_ratiof s (ni + 1))); [| now eexists].
  apply IH; lia.
Qed.

Lemma Setup_tweak_terminates s :
  forall (fuel : nat) (ni : Z),
    0 <= ni -> NX s - ni <= Z.of_nat fuel -> (0 < fuel)%nat ->
    exists r, Setup_tweak fuel s ni = Ok r.
Proof.
  induction fuel as [| fuel IH]; intros ni Hni Hfuel Hpos; [lia |].
  rewrite Setup_tweak_unfold.
  destruct (tweak_backs_off s (ni + 1)) eqn:Hoff; [now eexists |].
  unfold tweak_backs_off in Hoff. apply orb_false_iff in Hoff.
  destruct Hoff as [Hok _]. apply negb_false_iff in Hok.
  apply (@Ratio_ok_Qc s (ni + 1)) in Hok; [| lia].
  destruct (tweak_goes_on s (ni + 1)); [| now eexists].
  apply IH; lia.
Qed.

Lemma Setup_returns s (lo hi : Qc) :
  Setup_bounds s = Ok (lo, hi) ->
  exists ret s', Setup (S (Z.to_nat (NX s))) s = Ok (ret, s').
Proof.
  intros Hb. rewrite (Setup_unfold _ s Hb). cbv zeta.
  destruct (fltb (fsub hi lo) (waveLength s)); [now eexists; eexists |].
  destruct (@Setup_grow_terminates (with_bounds s lo hi)
              (S (Z.to_nat (NX s))) 9) as [g Hg];
    [lia | cbn [NX with_bounds]; lia | lia |].
  rewrite Hg. cbn [bind].
  destruct g as [[[n1 dx] rf] |]; [| now eexists; eexists].
  destruct (Setup_grow_sound _ _ _ Hg) as ((Hlt & _) & _).
  destruct (@Setup_tweak_terminates (with_bounds s lo hi)
              (S (Z.to_nat (NX s))) n1) as [[[m dx'] rf'] Ht];
    [lia | cbn [NX with_bounds]; lia | lia |].
  rewrite Ht. cbn [bind]. now eexists; eexists.
Qed.

(** X9.  [Setup] terminates: for [NX > 0] samples both loops stop at
    the latest when the candidate has more nodes than there are data
    points, and [NX + 1] turns of each loop are enough for [Setup] to
    return. *)
Theorem Setup_terminates s :
  0 < NX s <= Z.of_nat (length (X (base s))) ->
  exists ret s',
    forall fuel, (Z.to_nat (NX s) < fuel)%nat ->
                 Setup fuel s = Ok (ret, s').
Proof.
  intros HNX.
  destruct (Setup_bounds_attained s HNX) as (lo & hi & Hb & _).
  destruct (Setup_returns s Hb) as (ret & s' & H).
  exists ret, s'. intros fuel Hfuel.
  apply (@Setup_fuel _ _ _ _ _ H). lia.
Qed.

Lemma Ratio_ext_bounds s1 s2 (lo hi : Qc) :
  NX s1 = NX s2 -> waveLength s1 = waveLength s2 ->
  forall k, Ratio (with_bounds s1 lo hi) k = Ratio (with_bounds s2 lo hi) k.
Proof.
  intros HN Hwl k. unfold Ratio.
  cbn [with_bounds xmax xmin NX waveLength]. now rewrite HN, Hwl.
Qed.

(** X10.  What [Setup] returns does not depend on the order of the
    samples, nor on their multiplicity: on two objects with the same
    [NX] and wavelength whose samples are the same numbers, it returns
    the same value, stores the same [xmin] and [xmax] and, when the value
    is nonzero, the same [M] and [DX]. *)
Theorem Setup_order_independent (fuel : nat) s1 s2 (ret : Z) s1' :
  NX s1 = NX s2 -> waveLength s1 = waveLength s2 ->
  0 < NX s2 <= Z.of_nat (length (X (base s2))) ->
  (forall x, In x (firstn (Z.to_nat (NX s1)) (X (base s1))) <->
             In x (firstn (Z.to_nat (NX s2)) (X (base s2)))) ->
  Setup fuel s1 = Ok (ret, s1') ->
  exists s2',
    Setup fuel s2 = Ok (ret, s2') /\
    xmin s2' = xmin s1' /\ xmax s2' = xmax s1' /\
    (ret <> 0 -> M s2' = M s1' /\ DX s2' = DX s1').
Proof.
  intros HN Hwl HNX2 Hsame H1.
  destruct (Setup_bounds_attained s2 HNX2)
    as (lo2 & hi2 & Hb2 & Hlo2 & Hhi2 & Hall2).
  assert (Hb1 : exists lo hi, Setup_bounds s1 = Ok (lo, hi)).
  { destruct (Setup_inv _ _ H1) as (lo & hi & Hb & _). now exists lo, hi. }
  destruct Hb1 as (lo1 & hi1 & Hb1).
  assert (Hin1 : In lo1 (firstn (Z.to_nat (NX s1)) (X (base s1))) /\
                 In hi1 (firstn (Z.to_nat (NX s1)) (X (base s1))) /\
                 forall x, In x (firstn (Z.to_nat (NX s1)) (X (base s1))) ->
                           (lo1 <= x)%Qc /\ (x <= hi1)%Qc).
  { assert (HNX1 : 0 < NX s1 <= Z.of_nat (length (X (base s1)))).
    { split; [lia |]. unfold Setup_bounds in Hb1.
      destruct (vec_at (X (base s1)) 0) as [x0 | e] eqn:Hx0;
        [| discriminate].
      cbn [bind] in Hb1.
      destruct (vec_at_nth_error _ _ Hx0) as [_ Hn0].
      assert (H0 : (0 < length (X (base s1)))%nat)
        by (apply nth_error_Some; cbn [Z.to_nat] in Hn0; congruence).
      pose proof (@for_ZM_Ok_inv _
                    (fun i (_ : Qc * Qc) =>
                       i <= Z.of_nat (length (X (base s1))))
                    _ _ _ _ _ Hb1) as Hinv.
      cbv beta in Hinv.
      assert (Hfin : Z.max 1 (NX s1 - 1 + 1)
                     <= Z.of_nat (length (X (base s1)))).
      { apply Hinv; [lia |].
        intros k [lo hi] t' Hk Hle Hstep.
        apply bind_Ok_inv in Hstep. destruct Hstep as (xi & Hxi & _).
        destruct (vec_at_nth_error _ _ Hxi) as [_ Hn].
        assert (Hlt : (Z.to_nat k < length (X (base s1)))%nat)
          by (apply nth_error_Some; congruence).
        lia. }
      lia. }
    destruct (Setup_bounds_attained s1 HNX1)
      as (lo & hi & Hb & Hlo & Hhi & Hall).
    rewrite Hb in Hb1. injection Hb1 as <- <-.
    split; [exact Hlo |]. split; [exact Hhi | exact Hall]. }
  destruct Hin1 as (Hlo1 & Hhi1 & Hall1).
  assert (Hlo : lo2 = lo1).
  { apply Qcle_antisym.
    - apply Hall2. now apply Hsame.
    - apply Hall1. now apply Hsame. }
  assert (Hhi : hi2 = hi1).
  { apply Qcle_antisym.
    - apply Hall1. now apply Hsame.
    - apply Hall2. now apply Hsame. }
  subst lo2 hi2.
  rewrite (Setup_unfold fuel s1 Hb1) in H1.
  rewrite (Setup_unfold fuel s2 Hb2). cbv zeta in *.
  rewrite <- Hwl.
  destruct (fltb (fsub hi1 lo1) (waveLength s1)).
  { injection H1 as <- <-. eexists. split; [reflexivity |].
    do 2 (split; [reflexivity |]). intros Hne; contradiction. }
  rewrite <- (Setup_grow_ext (Ratio_ext_bounds s1 s2 lo1 hi1 HN Hwl)).
  destruct (Setup_grow fuel (with_bounds s1 lo1 hi1) 9) as [g | e];
    cbn [bind] in *; [| discriminate].
  destruct g as [[[n1 dx] rf] |].
  2:{ injection H1 as <- <-. eexists. split; [reflexivity |].
      do 2 (split; [reflexivity |]). intros Hne; contradiction. }
  rewrite <- (Setup_tweak_ext (Ratio_ext_bounds s1 s2 lo1 hi1 HN Hwl)).
  destruct (Setup_tweak fuel (with_bounds s1 lo1 hi1) n1)
    as [[[m dx'] rf'] | e]; cbn [bind] in *; [| discriminate].
  injection H1 as <- <-. eexists. split; [reflexivity |].
  do 2 (split; [reflexivity |]). intros _. split; reflexivity.
Qed.
End SetupBounds.

(* ================================================================== *)
(** * 35. [Beta] and [Basis]: symmetry, values at the nodes, bounds *)
(* ================================================================== *)

Section BetaFacts.
Context {F : Type} {AF : Arith F}.
Implicit Types s : BSplineBase F.

(** Each row of [BoundaryConditions] reads the same in both
    directions. *)
Lemma BoundaryConditions_mirror (bc k : Z) :
  0 <= bc <= 2 -> 0 <= k <= 3 ->
  BoundaryConditions (F := F) bc (3 - k) = BoundaryConditions bc k /\
  exists b, BoundaryConditions (F := F) bc k = Ok b.
Proof.
  intros Hbc Hk.
  assert (Hb : bc = 0 \/ bc = 1 \/ bc = 2) by lia.
  assert (Hk' : k = 0 \/ k = 1 \/ k = 2 \/ k = 3) by lia.
  destruct Hb as [-> | [-> | ->]];
    destruct Hk' as [-> | [-> | [-> | ->]]];
    (split; [reflexivity | eexists; reflexivity]).
Qed.

(** [Beta], by the place of the node. *)
Lemma Beta_cases s (m : Z) :
  0 <= BC s <= 2 -> 3 <= M s ->
  Beta s m
  = if (1 <? m) && (m <? M s - 1) then Ok fzero
    else if (m <? 0) || (M s <? m) then Err AssertFailed
         else BoundaryConditions (BC s)
                (if m <=? 1 then m else m - (M s - 3)).
Proof.
  intros HBC HM. unfold Beta.
  rewrite Z.gtb_ltb, Z.geb_leb.
  replace ((0 <=? BC s) && (BC s <=? 2)) with true
    by (symmetry; apply andb_true_iff; split; apply Z.leb_le; lia).
  cbn [negb].
  destruct (Z.ltb_spec 1 m), (Z.ltb_spec m (M s - 1)),
    (Z.leb_spec (M s - 1) m), (Z.ltb_spec m 0), (Z.ltb_spec (M s) m),
    (Z.leb_spec m 1); cbn [andb orb]; try lia; try reflexivity;
    bool_cases; try reflexivity; lia.
Qed.

(** The node [M - m] has the value of the node [m]. *)
Lemma Beta_nodes s (m : Z) :
  0 <= BC s <= 2 -> 3 <= M s -> 0 <= m <= M s ->
  (exists b, Beta s m = Ok b) /\ Beta s (M s - m) = Beta s m.
Proof.
  intros HBC HM.
  intros Hm. rewrite !(fun k => @Beta_cases s k HBC HM).
  destruct (Z.ltb_spec 1 m), (Z.ltb_spec m (M s - 1)),
    (Z.ltb_spec 1 (M s - m)), (Z.ltb_spec (M s - m) (M s - 1));
    cbn [andb]; try lia;
    try (split; [eexists; reflexivity | reflexivity]).
  + replace (m <? 0) with false by (symmetry; apply Z.ltb_ge; lia).
    replace (M s <? m) with false by (symmetry; apply Z.ltb_ge; lia).
    replace (M s - m <? 0) with false by (symmetry; apply Z.ltb_ge; lia).
    replace (M s <? M s - m) with false
      by (symmetry; apply Z.ltb_ge; lia).
    cbn [orb].
    replace (m <=? 1) with false by (symmetry; apply Z.leb_gt; lia).
    replace (M s - m <=? 1) with true by (symmetry; apply Z.leb_le; lia).
    replace (M s - m) with (3 - (m - (M s - 3))) by lia.
    destruct (@BoundaryConditions_mirror (BC s) (m - (M s - 3)) HBC
                ltac:(lia)) as [Hmir Hex].
    split; [exact Hex | exact Hmir].
  + replace (m <? 0) with false by (symmetry; apply Z.ltb_ge; lia).
    replace (M s <? m) with false by (symmetry; apply Z.ltb_ge; lia).
    replace (M s - m <? 0) with false by (symmetry; apply Z.ltb_ge; lia).
    replace (M s <? M s - m) with false
      by (symmetry; apply Z.ltb_ge; lia).
    cbn [orb].
    replace (m <=? 1) with true by (symmetry; apply Z.leb_le; lia).
    replace (M s - m <=? 1) with false by (symmetry; apply Z.leb_gt; lia).
    replace (M s - m - (M s - 3)) with (3 - m) by lia.
    destruct (@BoundaryConditions_mirror (BC s) m HBC ltac:(lia))
      as [Hmir Hex].
    split; [exact Hex | exact Hmir].
Qed.

Lemma Beta_outside s (m : Z) :
  0 <= BC s <= 2 -> 3 <= M s -> m < 0 \/ M s < m ->
  Beta s m = Err AssertFailed.
Proof.
  intros HBC HM.
  intros Hm. rewrite (@Beta_cases s m HBC HM).
  replace ((1 <? m) && (m <? M s - 1)) with false
    by (symmetry; apply andb_false_iff;
        destruct Hm; [left; apply Z.ltb_ge | right; apply Z.ltb_ge]; lia).
  replace ((m <? 0) || (M s <? m)) with true
    by (symmetry; apply orb_true_iff;
        destruct Hm; [left | right]; apply Z.ltb_lt; lia).
  reflexivity.
Qed.

(** X11.  On a grid of at least three intervals [Beta] returns for the
    nodes 0, ..., [M] and fails its assertion for every other index; it
    is zero for the nodes strictly between 1 and [M - 1]; and the node
    [M - m] has the value of the node [m]. *)
Theorem Beta_mirror s (m : Z) :
  0 <= BC s <= 2 -> 3 <= M s ->
  (0 <= m <= M s ->
   (exists b, Beta s m = Ok b) /\ Beta s (M s - m) = Beta s m) /\
  (1 < m < M s - 1 -> Beta s m = Ok fzero) /\
  (m < 0 \/ M s < m -> Beta s m = Err AssertFailed).
Proof.
  intros HBC HM. split; [| split].
  - now apply Beta_nodes.
  - apply Beta_interior.
  - now apply Beta_outside.
Qed.
End BetaFacts.

(* ================================================================== *)
(** * 36. The kernel at the nodes, and its bounds *)
(* ================================================================== *)

Section KernelValues.
Local Open Scope Z_scope.
Variable s : BSplineBase Qc.

(** The distance between two nodes, counted in node intervals. *)
Lemma node_distance (k m : Z) :
  (Q2Qc 0 < DX s)%Qc ->
  ((node s k - node s m) / DX s)%Qc = Q2Qc (inject_Z (k - m)).
Proof.
  intros HDX. rewrite !node_Qc. unfold Qclt in HDX. qc_all.
  unfold Zminus. rewrite inject_Z_plus, inject_Z_opp. field. lra.
Qed.

Lemma fabs_inject_Z (d : Z) :
  fabs (Q2Qc (inject_Z d)) = Q2Qc (inject_Z (Z.abs d)).
Proof.
  unfold fabs. qc_ops.
  destruct (Qc_ltb (Q2Qc (inject_Z d)) (Q2Qc 0)) eqn:Hd; qc_tests.
  - unfold Qclt in Hd. rewrite !this_Q2Qc in Hd.
    change 0%Q with (inject_Z 0) in Hd. rewrite <- Zlt_Qlt in Hd.
    rewrite Z.abs_neq by lia. qc_all. now rewrite inject_Z_opp.
  - unfold Qcle in Hd. rewrite !this_Q2Qc in Hd.
    change 0%Q with (inject_Z 0) in Hd. rewrite <- Zle_Qle in Hd.
    now rewrite Z.abs_eq by lia.
Qed.

Lemma Basis_kernel_node (m k : Z) :
  (Q2Qc 0 < DX s)%Qc ->
  Basis_kernel s m (node s k)
  = if k =? m then Q2Qc 1
    else if Z.abs (k - m) =? 1 then Q2Qc (1 # 4)
         else Q2Qc 0.
Proof.
  intros HDX. rewrite Basis_kernel_Qc. cbv zeta.
  rewrite (node_distance k m HDX), fabs_inject_Z.
  destruct (Z.eqb_spec k m) as [-> | Hne].
  - rewrite Z.sub_diag. apply Qc_is_canon. reflexivity.
  - destruct (Z.eqb_spec (Z.abs (k - m)) 1) as [-> | Hfar].
    + apply Qc_is_canon. reflexivity.
    + replace (Qc_ltb (Q2Qc (inject_Z (Z.abs (k - m)))) (Q2Qc 2))
        with false; [reflexivity |].
      symmetry. apply Qc_ltb_ge. unfold Qcle. rewrite !this_Q2Qc.
      change 2%Q with (inject_Z 2). rewrite <- Zle_Qle. lia.
Qed.

(** X12.  On a grid of positive spacing the kernel of node [m] is 1 at
    node [m], 1/4 at the two nodes next to it and 0 at every other
    node. *)
Theorem Basis_kernel_at_nodes (m k : Z) :
  (Q2Qc 0 < DX s)%Qc ->
  Basis_kernel s m (node s k)
  = if k =? m then Q2Qc 1
    else if Z.abs (k - m) =? 1 then Q2Qc (1 # 4)
         else Q2Qc 0.
Proof. exact (@Basis_kernel_node m k). Qed.

Lemma Basis_kernel_range (m : Z) (x : Qc) :
  (Q2Qc 0 <= Basis_kernel s m x)%Qc /\ (Basis_kernel s m x <= Q2Qc 1)%Qc.
Proof.
  rewrite Basis_kernel_Qc. cbv zeta.
  destruct (fabs_Qc ((x - node s m) / DX s)%Qc) as [Hz _].
  set (z := fabs ((x - node s m) / DX s)%Qc) in *.
  destruct (Qc_ltb z (Q2Qc 2)) eqn:H2;
    [destruct (Qc_ltb (Q2Qc 0) (Q2Qc 2 - z - Q2Qc 1)%Qc) eqn:H1 |];
    qc_tests.
  - unfold Qclt, Qcle in *. qc_all.
    set (u := this z) in *.
    assert (Hu1 : (0 <= u)%Q) by lra. assert (Hu2 : (u < 1)%Q) by lra.
    assert (Hp : (0 <= (1 - u) * (1 - u) * u)%Q).
    { apply Qmult_le_0_compat; [apply Qmult_le_0_compat |]; lra. }
    assert (Hq : (0 <= u * u * (2 - u))%Q).
    { apply Qmult_le_0_compat; [apply Qmult_le_0_compat |]; lra. }
    assert (E1 : ((1 # 4) * ((2 - u) * (2 - u) * (2 - u))
                  - (2 - u - 1) * (2 - u - 1) * (2 - u - 1)
                  == (1 # 4) * (1 + 3 * (1 - u)
                                + 3 * ((1 - u) * (1 - u) * u)))%Q) by ring.
    assert (E2 : ((1 # 4) * ((2 - u) * (2 - u) * (2 - u))
                  - (2 - u - 1) * (2 - u - 1) * (2 - u - 1)
                  == 1 - (3 # 4) * (u * u * (2 - u)))%Q) by ring.
    split; [rewrite E1 | rewrite E2]; lra.
  - unfold Qclt, Qcle in *. qc_all.
    set (u := this z) in *.
    assert (Hu1 : (1 <= u)%Q) by lra. assert (Hu2 : (u < 2)%Q) by lra.
    assert (Ht : (0 <= (2 - u) * (2 - u))%Q)
      by (apply Qmult_le_0_compat; lra).
    assert (Ht3 : (0 <= (2 - u) * (2 - u) * (2 - u))%Q)
      by (apply Qmult_le_0_compat; lra).
    split; [nra | nra].
  - split; [apply Qcle_refl |]. unfold Qcle. rewrite !this_Q2Qc. lra.
Qed.

(** X13.  On a grid of positive spacing the kernel lies between 0 and 1
    for every [x], and is 1 at its node. *)
Theorem Basis_kernel_bounds (m : Z) (x : Qc) :
  (Q2Qc 0 < DX s)%Qc ->
  (Q2Qc 0 <= Basis_kernel s m x)%Qc /\
  (Basis_kernel s m x <= Q2Qc 1)%Qc /\
  Basis_kernel s m (node s m) = Q2Qc 1.
Proof.
  intros HDX.
  destruct (Basis_kernel_range m x) as [H0 H1].
  split; [exact H0 |]. split; [exact H1 |].
  rewrite (Basis_kernel_node m m HDX). now rewrite Z.eqb_refl.
Qed.
End KernelValues.

(* ================================================================== *)
(** * 37. [evaluate]: nodes, support, linearity *)
(* ================================================================== *)

Section EvaluateFacts.
Local Open Scope Z_scope.

Lemma fold_left_iter_up (g : Qc -> Z -> Qc) :
  forall (n i : nat) (acc : Qc),
    fold_left g (map Z.of_nat (seq i n)) acc
    = iter_up n (Z.of_nat i) (fun t a => g a t) acc.
Proof.
  induction n as [| n IH]; intros i acc; [reflexivity |].
  cbn [seq map fold_left iter_up]. rewrite IH.
  now rewrite Nat2Z.inj_succ, <- Z.add_1_r.
Qed.

(** The weighted sum of [evaluate] is a sum over the nodes. *)
Lemma weighted_sum_sumZ (sp : BSpline Qc) (x : Qc) :
  weighted_sum sp x
  = sumZ 0 (M (domain sp))
      (fun i => (elt (A (s sp)) i * Basis_val (domain sp) i x)%Qc).
Proof.
  unfold weighted_sum, sumZ, for_Z. rewrite fold_left_iter_up.
  now replace (M (domain sp) + 1 - 0) with (M (domain sp) + 1) by lia.
Qed.

Variable d : BSplineBase Qc.
Hypothesis HDX : (Q2Qc 0 < DX d)%Qc.
Hypothesis HBC : 0 <= BC d <= 2.
Hypothesis HM : 3 <= M d.

(** Where the kernels of the two exterior nodes vanish, [Basis] is the
    kernel of its node. *)
Lemma Basis_val_kernel (i : Z) (x : Qc) :
  0 <= i <= M d ->
  Basis_kernel d (-1) x = Q2Qc 0 ->
  Basis_kernel d (M d + 1) x = Q2Qc 0 ->
  Basis_val d i x = Basis_kernel d i x.
Proof.
  intros Hi Hlow Hhigh.
  assert (Hval : Basis 2 d i x = Ok (Basis_val d i x))
    by (apply (Basis_Ok d 0 x HBC HM); lia).
  destruct (Beta_Ok d (m := i) HBC Hi) as [b Hb].
  destruct (Z_le_gt_dec i 1) as [Hl | Hg].
  - rewrite (@Basis_low Qc Qc_Arith d 0 i x b) in Hval;
      [| lia | lia | exact Hb].
    injection Hval as <-. rewrite Hlow. qc_ops. ring.
  - destruct (Z_lt_le_dec i (M d - 1)) as [Hin | Hh].
    + rewrite (@Basis_interior Qc Qc_Arith d 1 i x) in Hval by lia.
      now injection Hval as <-.
    + rewrite (@Basis_high Qc Qc_Arith d 0 i x b) in Hval;
        [| lia | lia | exact Hb].
      injection Hval as <-. rewrite Hhigh. qc_ops. ring.
Qed.

Lemma Basis_val_node (i k : Z) :
  0 <= i <= M d -> 1 <= k <= M d - 1 ->
  Basis_val d i (node d k)
  = if k =? i then Q2Qc 1
    else if Z.abs (k - i) =? 1 then Q2Qc (1 # 4)
         else Q2Qc 0.
Proof.
  intros Hi Hk. rewrite Basis_val_kernel; [apply Basis_kernel_node | | |];
    try assumption.
  - rewrite (Basis_kernel_node d (-1) k HDX).
    replace (k =? -1) with false by (symmetry; apply Z.eqb_neq; lia).
    now replace (Z.abs (k - -1) =? 1) with false
      by (symmetry; apply Z.eqb_neq; lia).
  - rewrite (Basis_kernel_node d (M d + 1) k HDX).
    replace (k =? M d + 1) with false by (symmetry; apply Z.eqb_neq; lia).
    now replace (Z.abs (k - (M d + 1)) =? 1) with false
      by (symmetry; apply Z.eqb_neq; lia).
Qed.

Lemma weighted_sum_node (sp : BSpline Qc) (k : Z) :
  domain sp = d -> 1 <= k <= M d - 1 ->
  weighted_sum sp (node d k)
  = (Q2Qc (1 # 4) * elt (A (s sp)) (k - 1) + elt (A (s sp)) k
     + Q2Qc (1 # 4) * elt (A (s sp)) (k + 1))%Qc.
Proof.
  intros Hd Hk. rewrite weighted_sum_sumZ, Hd.
  rewrite (@sumZ_ext 0 (M d) _
             (fun i => (elt (A (s sp)) i
                        * (if k =? i then Q2Qc 1
                           else if Z.abs (k - i) =? 1 then Q2Qc (1 # 4)
                                else Q2Qc 0))%Qc)).
  2:{ intros i Hi. now rewrite Basis_val_node. }
  rewrite (@sumZ_split 0 (k - 2) (M d)) by lia.
  rewrite (@sumZ_zero 0 (k - 2)).
  2:{ intros i Hi.
      replace (k =? i) with false by (symmetry; apply Z.eqb_neq; lia).
      replace (Z.abs (k - i) =? 1) with false
        by (symmetry; apply Z.eqb_neq; lia).
      ring. }
  replace (k - 2 + 1) with (k - 1) by lia.
  rewrite (@sumZ_first (k - 1) (M d)) by lia.
  replace (k - 1 + 1) with k by lia.
  rewrite (@sumZ_first k (M d)) by lia.
  rewrite (@sumZ_first (k + 1) (M d)) by lia.
  rewrite (@sumZ_zero (k + 1 + 1) (M d)).
  2:{ intros i Hi.
      replace (k =? i) with false by (symmetry; apply Z.eqb_neq; lia).
      replace (Z.abs (k - i) =? 1) with false
        by (symmetry; apply Z.eqb_neq; lia).
      ring. }
  rewrite Z.eqb_refl.
  replace (k =? k - 1) with false by (symmetry; apply Z.eqb_neq; lia).
  replace (k =? k + 1) with false by (symmetry; apply Z.eqb_neq; lia).
  replace (Z.abs (k - (k - 1)) =? 1) with true
    by (symmetry; apply Z.eqb_eq; lia).
  replace (Z.abs (k - (k + 1)) =? 1) with true
    by (symmetry; apply Z.eqb_eq; lia).
  ring.
Qed.

(** X14.  At a node [k] between 1 and [M - 1] the spline takes the value
    [A[k - 1] / 4 + A[k] + A[k + 1] / 4]: only the basis functions of the
    node and of its two neighbours are not zero there. *)
Theorem evaluate_at_inner_node (fuel : nat) (sp : BSpline Qc) (k : Z) :
  domain sp = d ->
  M d + 1 <= dim (A (s sp)) ->
  1 <= k <= M d - 1 ->
  evaluate (S (S fuel)) sp (node d k)
  = Ok (Q2Qc (1 # 4) * elt (A (s sp)) (k - 1) + elt (A (s sp)) k
        + Q2Qc (1 # 4) * elt (A (s sp)) (k + 1))%Qc.
Proof.
  intros Hd Hdim Hk.
  rewrite evaluate_Ok by (rewrite ?Hd; assumption).
  f_equal. now apply weighted_sum_node.
Qed.

Lemma kernels_vanish (x : Qc) :
  (x <= node d (-3))%Qc \/ (node d (M d + 3) <= x)%Qc ->
  forall a, -1 <= a <= M d + 1 -> Basis_kernel d a x = Q2Qc 0.
Proof.
  intros [Hl | Hr] a Ha.
  - apply (@Basis_kernel_left d HDX).
    eapply Qcle_trans; [exact Hl |]. apply (@node_mono d HDX); lia.
  - apply (@Basis_kernel_right d HDX).
    eapply Qcle_trans; [| exact Hr]. apply (@node_mono d HDX); lia.
Qed.

(** X15.  The spline has compact support: [evaluate] returns zero for
    every [x] three intervals or more before node 0 and for every [x]
    three intervals or more after node [M], whatever the
    coefficients. *)
Theorem evaluate_outside_support (fuel : nat) (sp : BSpline Qc) (x : Qc) :
  domain sp = d ->
  M d + 1 <= dim (A (s sp)) ->
  (x <= node d (-3))%Qc \/ (node d (M d + 3) <= x)%Qc ->
  evaluate (S (S fuel)) sp x = Ok (Q2Qc 0).
Proof.
  intros Hd Hdim Hx.
  rewrite evaluate_Ok by (rewrite ?Hd; assumption).
  f_equal. rewrite weighted_sum_sumZ, Hd.
  apply sumZ_zero. intros i Hi.
  rewrite Basis_val_kernel by (try apply kernels_vanish; assumption || lia).
  rewrite (kernels_vanish Hx) by lia. ring.
Qed.

(** X16.  [evaluate] is linear in the coefficients: on one domain, the
    spline whose coefficients are [c1 * A1[i] + c2 * A2[i]] takes the
    value [c1 * e1 + c2 * e2] where the splines of [A1] and [A2] take
    [e1] and [e2]. *)
Theorem evaluate_linear
  (fuel : nat) (sp1 sp2 sp3 : BSpline Qc) (c1 c2 x : Qc) :
  domain sp1 = d -> domain sp2 = d -> domain sp3 = d ->
  M d + 1 <= dim (A (s sp1)) ->
  M d + 1 <= dim (A (s sp2)) ->
  M d + 1 <= dim (A (s sp3)) ->
  (forall i, 0 <= i <= M d ->
     elt (A (s sp3)) i
     = (c1 * elt (A (s sp1)) i + c2 * elt (A (s sp2)) i)%Qc) ->
  exists e1 e2,
    evaluate (S (S fuel)) sp1 x = Ok e1 /\
    evaluate (S (S fuel)) sp2 x = Ok e2 /\
    evaluate (S (S fuel)) sp3 x = Ok (c1 * e1 + c2 * e2)%Qc.
Proof.
  intros H1 H2 H3 Hd1 Hd2 Hd3 HA.
  exists (weighted_sum sp1 x), (weighted_sum sp2 x).
  rewrite !evaluate_Ok by (rewrite ?H1, ?H2, ?H3; assumption).
  split; [reflexivity |]. split; [reflexivity |]. f_equal.
  rewrite !weighted_sum_sumZ, H1, H2, H3.
  rewrite <- !sumZ_scale, <- sumZ_plus.
  apply sumZ_ext. intros i Hi. rewrite (HA i Hi). ring.
Qed.
End EvaluateFacts.

(* ================================================================== *)
(** * 38. [qDelta], [operator +=] and the factorisation *)
(* ================================================================== *)

Section QDeltaFacts.
Context {F : Type} {AF : Arith F}.
Implicit Types s : BSplineBase F.

(** X17.  [qDelta] returns for every pair of indices: no subscript of
    [qparts] leaves the table, whatever [M] is.  It does not depend on
    the order of its two arguments, and it is zero for two nodes more
    than 3 apart. *)
Theorem qDelta_symmetric_banded s (m1 m2 : Z) :
  (exists v, qDelta s m1 m2 = Ok v) /\
  qDelta s m2 m1 = qDelta s m1 m2 /\
  (3 < Z.abs (m1 - m2) -> qDelta s m1 m2 = Ok fzero).
Proof.
  split; [apply qDelta_Ok |]. split.
  - unfold qDelta.
    destruct (Z.gtb_spec m2 m1), (Z.gtb_spec m1 m2); try lia;
      try reflexivity.
    now replace m2 with m1 by lia.
  - intros Hfar. unfold qDelta.
    destruct (Z.gtb_spec m1 m2);
      (replace (_ - _ >? 3) with true by (symmetry; apply Z.gtb_lt; lia));
      reflexivity.
Qed.

(** X18.  [A += B] fails its assertion when the dimensions differ;
    when they agree it returns, keeps the dimensions, and adds the cell
    of [B] to each cell of [A]. *)
Theorem matrix_add_assign_spec (A B : C_matrix F) :
  (num_rows A <> num_rows B \/ num_cols A <> num_cols B ->
   matrix_add_assign A B = Err AssertFailed) /\
  (num_rows A = num_rows B /\ num_cols A = num_cols B ->
   exists A',
     matrix_add_assign A B = Ok A' /\
     num_rows A' = num_rows A /\ num_cols A' = num_cols A /\
     forall r c, 0 <= r < num_rows A -> 0 <= c < num_cols A ->
       cell A' r c = fadd (cell A r c) (cell B r c)).
Proof.
  split.
  - intros Hne. unfold matrix_add_assign.
    replace ((num_rows A =? num_rows B) && (num_cols A =? num_cols B))
      with false; [reflexivity |].
    symmetry. apply andb_false_iff.
    destruct Hne; [left | right]; now apply Z.eqb_neq.
  - intros [Hr Hc].
    destruct (@matrix_add_assign_cells F AF A B)
      as (A' & HA' & [Hr' Hc'] & Hcells).
    { split; congruence. }
    exists A'. split; [exact HA' |]. split; [exact Hr' |].
    split; [exact Hc' |].
    intros r c Hrr Hcc. rewrite Hcells.
    now replace ((0 <=? r) && (r <? num_rows A) && (0 <=? c)
                 && (c <? num_cols A)) with true
      by (symmetry; repeat (apply andb_true_iff; split);
          first [apply Z.leb_le | apply Z.ltb_lt]; lia).
Qed.
End QDeltaFacts.

Section QDeltaInterior.
Local Open Scope Z_scope.

(** X19.  For a node [m1] with two intervals on either side, the four
    parts that [qDelta] adds up are a whole row of [qparts], and the
    value is the entry of the table [qinterior] of the source, times
    [DX] and [alpha]: 1.5, -0.28125, -0.45 and -0.01875 for the distances
    0, 1, 2 and 3. *)
Theorem qDelta_interior (s : BSplineBase Qc) (m1 k : Z) :
  2 <= m1 -> m1 + 2 <= M s -> 0 <= k <= 3 ->
  qDelta s m1 (m1 + k) = Ok (example_qdelta k * DX s * alpha s)%Qc.
Proof.
  intros Hlo Hhi Hk. unfold qDelta.
  replace (m1 >? m1 + k) with false
    by (symmetry; rewrite Z.gtb_ltb; apply Z.ltb_ge; lia).
  replace (m1 + k - m1) with k by lia.
  replace (k >? 3) with false
    by (symmetry; rewrite Z.gtb_ltb; apply Z.ltb_ge; lia).
  replace (Z.max (m1 - 2) 0) with (m1 - 2) by lia.
  replace (Z.min (m1 + 2) (M s) - 1) with (m1 - 2 + 3) by lia.
  unfold for_ZM.
  replace (Z.to_nat (m1 - 2 + 3 + 1 - (m1 - 2))) with 4%nat by lia.
  cbn [iter_upM].
  replace (m1 - 2 - m1 + 2) with 0 by lia.
  replace (m1 - 2 + 1 - m1 + 2) with 1 by lia.
  replace (m1 - 2 + 1 + 1 - m1 + 2) with 2 by lia.
  replace (m1 - 2 + 1 + 1 + 1 - m1 + 2) with 3 by lia.
  assert (Hc : k = 0 \/ k = 1 \/ k = 2 \/ k = 3) by lia.
  destruct Hc as [-> | [-> | [-> | ->]]];
    match goal with
    | |- bind ?loop _ = _ =>
        let r := eval vm_compute in loop in change loop with r
    end;
    cbn [bind]; qc_ops; f_equal; f_equal; f_equal;
    apply Qc_is_canon; reflexivity.
Qed.
End QDeltaInterior.

Section Factorisation.
Local Open Scope Z_scope.

(** X20.  When [LU_factor_banded] returns 0 on a square matrix of order
    [n], whatever [bands] is, the matrix it leaves holds a factorisation
    of the rows of the matrix it was given, in the order that the
    exchanges recorded in [indx] give: the row that ends in place [i] is
    the sum over [t < i] of [L(i,t) * U(t,c)] plus [U(i,c)], with the
    multipliers [L] below the diagonal, [U] on and above it, and no zero
    on the diagonal of [U]. *)
Theorem LU_factor_banded_factorises
  (A0 : C_matrix Qc) (n bands : Z) (indx : Vector Z)
  (LUm : C_matrix Qc) (ix : Vector Z) :
  square_of A0 n -> 0 <= n ->
  LU_factor_banded A0 indx bands = (0, LUm, ix) ->
  let src := row_source ix (Z.to_nat n) in
  square_of LUm n /\
  (forall i, 1 <= i <= n -> 1 <= src i <= n) /\
  (forall r, 1 <= r <= n -> exists i, 1 <= i <= n /\ src i = r) /\
  (forall t, 1 <= t <= n -> at1 LUm t t <> Q2Qc 0) /\
  forall i c, 1 <= i <= n -> 1 <= c <= n ->
    at1 A0 (src i) c
    = (sumZ 1 (Z.min (i - 1) c) (fun t => at1 LUm i t * at1 LUm t c)
       + (if i <=? c then at1 LUm i c else Q2Qc 0))%Qc.
Proof.
  intros Hsq Hn H. cbv zeta.
  destruct (@LU_factor_banded_partial A0 n bands indx LUm ix Hsq Hn H)
    as (H1 & H2 & H3 & H4 & H5).
  split; [exact H1 |]. split; [exact H2 |]. split; [exact H3 |].
  split; [exact H4 |].
  intros i c Hi Hc. rewrite (H5 i c Hi Hc).
  replace (Z.min n (Z.min (i - 1) c)) with (Z.min (i - 1) c) by lia.
  now replace (Z.min i (n + 1)) with i by lia.
Qed.
End Factorisation.

(* ================================================================== *)
(** * 39. The basis is symmetric about the middle of the grid *)
(* ================================================================== *)

Section BasisMirror.
Local Open Scope Z_scope.
Variable d : BSplineBase Qc.

Lemma fabs_opp (z : Qc) : fabs (- z)%Qc = fabs z.
Proof.
  unfold fabs. qc_ops.
  destruct (Qc_ltb (- z) (Q2Qc 0)) eqn:H1;
    destruct (Qc_ltb z (Q2Qc 0)) eqn:H2; qc_tests;
    unfold Qclt, Qcle in *; qc_all; lra.
Qed.

(** The kernel of node [M - a] at the mirror image of [x] is the kernel
    of node [a] at [x]. *)
Lemma Basis_kernel_mirror (a : Z) (x : Qc) :
  Basis_kernel d (M d - a) (xmin d + node d (M d) - x)%Qc
  = Basis_kernel d a x.
Proof.
  rewrite !Basis_kernel_Qc. cbv zeta.
  replace ((xmin d + node d (M d) - x - node d (M d - a)) / DX d)%Qc
    with (- ((x - node d a) / DX d))%Qc.
  - now rewrite fabs_opp.
  - rewrite !node_Qc. qc_all.
    unfold Zminus. rewrite inject_Z_plus, inject_Z_opp.
    unfold Qdiv. ring.
Qed.

Hypothesis HBC : 0 <= BC d <= 2.
Hypothesis HM : 3 <= M d.

(** X21.  The basis functions are mirror images of one another: the
    basis function of node [M - m] at the point [xmin + x_M - x] has the
    value of the basis function of node [m] at [x], boundary terms
    included. *)
Theorem Basis_mirror (fuel : nat) (m : Z) (x : Qc) :
  0 <= m <= M d ->
  Basis (S (S fuel)) d (M d - m) (xmin d + node d (M d) - x)%Qc
  = Basis (S (S fuel)) d m x.
Proof.
  intros Hm.
  destruct (@Beta_nodes Qc Qc_Arith d m HBC HM Hm) as [[b Hb] Hmir].
  rewrite Hb in Hmir.
  destruct (Z_le_gt_dec m 1) as [Hl | Hg].
  - rewrite (@Basis_low Qc Qc_Arith d fuel m x b); [| lia | lia | exact Hb].
    rewrite (@Basis_high Qc Qc_Arith d fuel (M d - m) _ b);
      [| lia | lia | exact Hmir].
    rewrite Basis_kernel_mirror.
    replace (M d + 1) with (M d - (-1)) by lia.
    now rewrite Basis_kernel_mirror.
  - destruct (Z_lt_le_dec m (M d - 1)) as [Hi | Hh].
    + rewrite !(@Basis_interior Qc Qc_Arith d (S fuel)) by lia.
      now rewrite Basis_kernel_mirror.
    + rewrite (@Basis_high Qc Qc_Arith d fuel m x b);
        [| lia | lia | exact Hb].
      rewrite (@Basis_low Qc Qc_Arith d fuel (M d - m) _ b);
        [| lia | lia | exact Hmir].
      rewrite Basis_kernel_mirror.
      replace (-1) with (M d - (M d + 1)) at 1 by lia.
      now rewrite Basis_kernel_mirror.
Qed.
End BasisMirror.

(* ================================================================== *)
(** * 40. The examples again *)
(* ================================================================== *)

Lemma example_domain_DX : (Q2Qc 0 < DX example_domain)%Qc.
Proof. vm_compute. reflexivity. Qed.

Lemma example_domain_Nodes : Nodes (base example_domain) = [].
Proof. vm_compute. reflexivity. Qed.

Lemma loaded_NX (l : list Qc) (wl : QArith_base.Q) :
  l <> [] ->
  NX (loaded l wl blank) = Z.of_nat (length l) /\
  X (base (loaded l wl blank)) = l /\
  waveLength (loaded l wl blank) = Q2Qc wl.
Proof.
  intros Hne. unfold loaded, Copy.
  assert (Hlen : 0 < Z.of_nat (length l)).
  { destruct l; [congruence | cbn [length]; lia]. }
  replace (Z.of_nat (length l) =? 0) with false
    by (symmetry; apply Z.eqb_neq; lia).
  replace ((0 <? Z.of_nat (length l))
           && (Z.of_nat (length l) <=? Z.of_nat (length l))) with true
    by (symmetry; apply andb_true_iff; split;
        [apply Z.ltb_lt | apply Z.leb_le]; lia).
  cbn [bind NX X base waveLength with_waveLength with_NX with_X].
  split; [reflexivity |]. split; [| reflexivity].
  rewrite Nat2Z.id. apply firstn_all.
Qed.

Lemma samples_length (n : nat) : length (samples n) = n.
Proof. unfold samples. now rewrite length_map, length_seq. Qed.

Lemma loaded_samples_range (l : list Qc) (wl : QArith_base.Q) :
  l <> [] ->
  0 < NX (loaded l wl blank)
  <= Z.of_nat (length (X (base (loaded l wl blank)))).
Proof.
  intros Hne. destruct (loaded_NX wl Hne) as (-> & -> & _).
  destruct l; [congruence | cbn [length]; lia].
Qed.

Lemma samples_11_ne : samples 11 <> [].
Proof. discriminate. Qed.

Lemma nodes_first_call_witness :
  Nodes (base example_domain) = [] /\ 0 <= M example_domain /\
  exists v s',
    nodes example_domain = Ok (v, 11, s') /\
    nth_error v 3 = Some (node example_domain 3).
Proof.
  assert (HM : 0 <= M example_domain) by (rewrite example_domain_M; lia).
  split; [exact example_domain_Nodes |]. split; [exact HM |].
  destruct (@nodes_first_call Qc Qc_Arith example_domain
              example_domain_Nodes HM)
    as (v & s' & Hrun & _ & Hnth & _).
  rewrite example_domain_M in Hrun, Hnth.
  exists v, s'. split; [exact Hrun |]. apply (Hnth 3). lia.
Defined.

Lemma stale_refit_check :
  match stale_refit with
  | Ok d => M d =? 4
  | Err _ => false
  end = true.
Proof. vm_cast_no_check (@eq_refl bool true). Qed.

Lemma setDomain_keeps_Nodes_witness :
  Nodes (base stale_domain) <> [] /\
  exists d,
    setDomain example_qdelta example_Beta_sub 2 [Q2Qc 0; Q2Qc 1] 2 (Q2Qc 5)
      stale_domain = Ok d /\
    Nodes (base d) = [Q2Qc 7] /\
    nodes d = Err AssertFailed.
Proof.
  assert (Hne : Nodes (base stale_domain) <> []) by discriminate.
  split; [exact Hne |].
  pose proof stale_refit_check as Hc. unfold stale_refit in Hc.
  destruct (setDomain example_qdelta example_Beta_sub 2
              [Q2Qc 0; Q2Qc 1] 2 (Q2Qc 5) stale_domain) as [d | e] eqn:Hd;
    [| discriminate].
  apply Z.eqb_eq in Hc.
  destruct (@setDomain_keeps_Nodes Qc Qc_Arith example_qdelta
              example_Beta_sub 2 [Q2Qc 0; Q2Qc 1] 2 (Q2Qc 5)
              stale_domain d Hd Hne) as [HN Hnodes].
  exists d. split; [reflexivity |]. split; [exact HN |].
  rewrite Hnodes, Hc. reflexivity.
Defined.

Lemma Ratio_accepts_iff_witness :
  0 <= 10 /\
  (fst (fst (fst (Ratio example_domain 10))) = true
   <-> 10 + 1 <= NX example_domain).
Proof.
  assert (H : 0 <= 10) by lia.
  split; [exact H |]. exact (@Ratio_accepts_iff example_domain 10 H).
Defined.

Lemma Setup_nodes_at_most_samples_witness :
  Setup 2 (loaded (samples 11) 4 blank) = Ok (1, example_domain) /\
  1 <> 0 /\
  M example_domain + 1 <= NX (loaded (samples 11) 4 blank).
Proof.
  assert (H1 : 1 <> 0) by discriminate.
  split; [exact example_domain_Setup |]. split; [exact H1 |].
  exact (proj1 (@Setup_nodes_at_most_samples 2 _ 1 example_domain
                  example_domain_Setup H1)).
Defined.

Lemma Setup_grid_spans_samples_witness :
  Setup 2 (loaded (samples 11) 4 blank) = Ok (1, example_domain) /\
  1 <> 0 /\
  node example_domain (M example_domain) = xmax example_domain.
Proof.
  assert (H1 : 1 <> 0) by discriminate.
  split; [exact example_domain_Setup |]. split; [exact H1 |].
  destruct (@Setup_grid_spans_samples 2 _ 1 example_domain
              example_domain_Setup H1) as (_ & _ & _ & H & _).
  exact H.
Defined.

Lemma loaded_wl_pos :
  (Q2Qc 0 < waveLength (loaded (samples 11) 4 blank))%Qc.
Proof.
  destruct (loaded_NX 4 samples_11_ne) as (_ & _ & ->). reflexivity.
Qed.

Lemma Setup_spacing_bound_witness :
  Setup 2 (loaded (samples 11) 4 blank) = Ok (1, example_domain) /\
  1 <> 0 /\
  (Q2Qc 0 < waveLength (loaded (samples 11) 4 blank))%Qc /\
  (DX example_domain
   <= Q2Qc 2 * waveLength (loaded (samples 11) 4 blank))%Qc.
Proof.
  assert (H1 : 1 <> 0) by discriminate.
  split; [exact example_domain_Setup |]. split; [exact H1 |].
  split; [exact loaded_wl_pos |].
  destruct (@Setup_spacing_bound 2 _ 1 example_domain
              example_domain_Setup H1 loaded_wl_pos) as (_ & _ & H).
  exact H.
Defined.

Lemma Setup_bounds_min_max_witness :
  0 < NX (loaded (samples 11) 4 blank)
  <= Z.of_nat (length (X (base (loaded (samples 11) 4 blank)))) /\
  exists lo hi,
    Setup_bounds (loaded (samples 11) 4 blank) = Ok (lo, hi) /\
    In lo (firstn (Z.to_nat (NX (loaded (samples 11) 4 blank)))
             (X (base (loaded (samples 11) 4 blank)))).
Proof.
  pose proof (loaded_samples_range 4 samples_11_ne) as Hr.
  split; [exact Hr |].
  destruct (@Setup_bounds_min_max (loaded (samples 11) 4 blank) Hr)
    as (lo & hi & Hb & Hlo & _).
  exists lo, hi. split; [exact Hb | exact Hlo].
Defined.

Lemma Setup_terminates_witness :
  0 < NX (loaded (samples 11) 4 blank)
  <= Z.of_nat (length (X (base (loaded (samples 11) 4 blank)))) /\
  exists ret s', Setup 12 (loaded (samples 11) 4 blank) = Ok (ret, s').
Proof.
  pose proof (loaded_samples_range 4 samples_11_ne) as Hr.
  split; [exact Hr |].
  destruct (@Setup_terminates (loaded (samples 11) 4 blank) Hr)
    as (ret & s' & H).
  exists ret, s'. apply H.
  destruct (loaded_NX 4 samples_11_ne) as (-> & _).
  rewrite samples_length. lia.
Defined.

Lemma rev_samples_ne : rev (samples 11) <> [].
Proof. discriminate. Qed.

Lemma Setup_order_independent_witness :
  NX (loaded (samples 11) 4 blank) = NX (loaded (rev (samples 11)) 4 blank) /\
  waveLength (loaded (samples 11) 4 blank)
  = waveLength (loaded (rev (samples 11)) 4 blank) /\
  Setup 2 (loaded (samples 11) 4 blank) = Ok (1, example_domain) /\
  exists s2',
    Setup 2 (loaded (rev (samples 11)) 4 blank) = Ok (1, s2') /\
    (1 <> 0 -> M s2' = M example_domain /\ DX s2' = DX example_domain).
Proof.
  destruct (loaded_NX 4 samples_11_ne) as (HN1 & HX1 & Hw1).
  destruct (loaded_NX 4 rev_samples_ne) as (HN2 & HX2 & Hw2).
  assert (HN : NX (loaded (samples 11) 4 blank)
               = NX (loaded (rev (samples 11)) 4 blank))
    by (rewrite HN1, HN2, length_rev; reflexivity).
  assert (Hw : waveLength (loaded (samples 11) 4 blank)
               = waveLength (loaded (rev (samples 11)) 4 blank))
    by (rewrite Hw1, Hw2; reflexivity).
  assert (Hsame : forall x,
             In x (firstn (Z.to_nat (NX (loaded (samples 11) 4 blank)))
                     (X (base (loaded (samples 11) 4 blank)))) <->
             In x (firstn
                     (Z.to_nat (NX (loaded (rev (samples 11)) 4 blank)))
                     (X (base (loaded (rev (samples 11)) 4 blank))))).
  { intros x. rewrite HN1, HN2, HX1, HX2, !Nat2Z.id, !firstn_all.
    apply in_rev. }
  split; [exact HN |]. split; [exact Hw |].
  split; [exact example_domain_Setup |].
  destruct (@Setup_order_independent 2 _ _ 1 example_domain HN Hw
              (loaded_samples_range 4 rev_samples_ne) Hsame
              example_domain_Setup) as (s2' & H2 & _ & _ & Hgrid).
  exists s2'. split; [exact H2 | exact Hgrid].
Defined.

Lemma example_domain_HBC : 0 <= BC example_domain <= 2.
Proof. rewrite example_domain_BC. lia. Qed.

Lemma example_domain_HM : 3 <= M example_domain.
Proof. rewrite example_domain_M. lia. Qed.

Lemma Beta_mirror_witness :
  0 <= BC example_domain <= 2 /\ 3 <= M example_domain /\
  Beta example_domain (M example_domain - 0) = Beta example_domain 0.
Proof.
  split; [exact example_domain_HBC |]. split; [exact example_domain_HM |].
  destruct (@Beta_mirror Qc Qc_Arith example_domain 0
              example_domain_HBC example_domain_HM) as (Hin & _).
  apply Hin. rewrite example_domain_M. lia.
Defined.

Lemma Basis_kernel_at_nodes_witness :
  (Q2Qc 0 < DX example_domain)%Qc /\
  Basis_kernel example_domain 3 (node example_domain 4) = Q2Qc (1 # 4).
Proof.
  split; [exact example_domain_DX |].
  exact (@Basis_kernel_at_nodes example_domain 3 4 example_domain_DX).
Defined.

Lemma Basis_kernel_bounds_witness :
  (Q2Qc 0 < DX example_domain)%Qc /\
  (Q2Qc 0 <= Basis_kernel example_domain 3 (Q2Qc (7 # 2)))%Qc /\
  (Basis_kernel example_domain 3 (Q2Qc (7 # 2)) <= Q2Qc 1)%Qc.
Proof.
  split; [exact example_domain_DX |].
  destruct (@Basis_kernel_bounds example_domain 3 (Q2Qc (7 # 2))
              example_domain_DX) as (H0 & H1 & _).
  split; [exact H0 | exact H1].
Defined.

Lemma example_curve_dim :
  M example_domain + 1 <= dim (A (s example_curve)).
Proof. rewrite example_domain_M. cbn. lia. Qed.

Lemma evaluate_at_inner_node_witness :
  (Q2Qc 0 < DX example_domain)%Qc /\
  0 <= BC example_domain <= 2 /\ 3 <= M example_domain /\
  domain example_curve = example_domain /\
  M example_domain + 1 <= dim (A (s example_curve)) /\
  1 <= 4 <= M example_domain - 1 /\
  evaluate 2 example_curve (node example_domain 4)
  = Ok (Q2Qc (1 # 4) * Q2Qc (inject_Z 3) + Q2Qc (inject_Z 4)
        + Q2Qc (1 # 4) * Q2Qc (inject_Z 5))%Qc.
Proof.
  assert (Hk : 1 <= 4 <= M example_domain - 1)
    by (rewrite example_domain_M; lia).
  split; [exact example_domain_DX |].
  split; [exact example_domain_HBC |]. split; [exact example_domain_HM |].
  split; [reflexivity |]. split; [exact example_curve_dim |].
  split; [exact Hk |].
  exact (@evaluate_at_inner_node example_domain example_domain_DX
           example_domain_HBC example_domain_HM 0 example_curve 4
           eq_refl example_curve_dim Hk).
Defined.

Lemma example_far_right :
  (node example_domain (M example_domain + 3) <= Q2Qc 20)%Qc.
Proof. rewrite example_domain_M. vm_compute. discriminate. Qed.

Lemma evaluate_outside_support_witness :
  (Q2Qc 0 < DX example_domain)%Qc /\
  0 <= BC example_domain <= 2 /\ 3 <= M example_domain /\
  domain example_curve = example_domain /\
  M example_domain + 1 <= dim (A (s example_curve)) /\
  (node example_domain (M example_domain + 3) <= Q2Qc 20)%Qc /\
  evaluate 2 example_curve (Q2Qc 20) = Ok (Q2Qc 0).
Proof.
  split; [exact example_domain_DX |].
  split; [exact example_domain_HBC |]. split; [exact example_domain_HM |].
  split; [reflexivity |]. split; [exact example_curve_dim |].
  split; [exact example_far_right |].
  exact (@evaluate_outside_support example_domain example_domain_DX
           example_domain_HBC example_domain_HM 0 example_curve (Q2Qc 20)
           eq_refl example_curve_dim (or_intror example_far_right)).
Defined.

Lemma evaluate_linear_witness :
  0 <= BC example_domain <= 2 /\ 3 <= M example_domain /\
  domain example_curve = example_domain /\
  M example_domain + 1 <= dim (A (s example_curve)) /\
  (forall i, 0 <= i <= M example_domain ->
     elt (A (s example_curve)) i
     = (Q2Qc (1 # 2) * elt (A (s example_curve)) i
        + Q2Qc (1 # 2) * elt (A (s example_curve)) i)%Qc) /\
  exists e1 e2,
    evaluate 2 example_curve (Q2Qc 3) = Ok e1 /\
    evaluate 2 example_curve (Q2Qc 3) = Ok e2 /\
    evaluate 2 example_curve (Q2Qc 3)
    = Ok (Q2Qc (1 # 2) * e1 + Q2Qc (1 # 2) * e2)%Qc.
Proof.
  assert (Hhalf : forall i, 0 <= i <= M example_domain ->
             elt (A (s example_curve)) i
             = (Q2Qc (1 # 2) * elt (A (s example_curve)) i
                + Q2Qc (1 # 2) * elt (A (s example_curve)) i)%Qc).
  { intros i _. apply Qc_is_canon.
    rewrite this_plus, !this_mult, this_Q2Qc. ring. }
  split; [exact example_domain_HBC |]. split; [exact example_domain_HM |].
  split; [reflexivity |]. split; [exact example_curve_dim |].
  split; [exact Hhalf |].
  exact (@evaluate_linear example_domain
           example_domain_HBC example_domain_HM 0
           example_curve example_curve example_curve
           (Q2Qc (1 # 2)) (Q2Qc (1 # 2)) (Q2Qc 3)
           eq_refl eq_refl eq_refl
           example_curve_dim example_curve_dim example_curve_dim Hhalf).
Defined.

Lemma matrix_add_assign_spec_witness :
  num_rows example_matrix = num_rows example_matrix /\
  num_cols example_matrix = num_cols example_matrix /\
  exists A',
    matrix_add_assign example_matrix example_matrix = Ok A' /\
    cell A' 1 0 = fadd (cell example_matrix 1 0) (cell example_matrix 1 0).
Proof.
  split; [reflexivity |]. split; [reflexivity |].
  destruct (@matrix_add_assign_spec Qc Qc_Arith example_matrix
              example_matrix) as [_ Hok].
  destruct (Hok (conj eq_refl eq_refl)) as (A' & HA' & _ & _ & Hcells).
  exists A'. split; [exact HA' |]. apply Hcells; cbn; lia.
Defined.

Lemma qDelta_interior_witness :
  2 <= 5 /\ 5 + 2 <= M example_domain /\ 0 <= 1 <= 3 /\
  qDelta example_domain 5 (5 + 1)
  = Ok (example_qdelta 1 * DX example_domain * alpha example_domain)%Qc.
Proof.
  assert (H1 : 2 <= 5) by lia.
  assert (H2 : 5 + 2 <= M example_domain)
    by (rewrite example_domain_M; lia).
  assert (H3 : 0 <= 1 <= 3) by lia.
  split; [exact H1 |]. split; [exact H2 |]. split; [exact H3 |].
  exact (@qDelta_interior example_domain 5 1 H1 H2 H3).
Defined.

Lemma example_matrix_factor :
  fst (fst (LU_factor_banded example_matrix example_index 1)) = 0.
Proof. vm_compute. reflexivity. Qed.

Lemma LU_factor_banded_factorises_witness :
  square_of example_matrix 3 /\ 0 <= 3 /\
  exists LUm ix,
    LU_factor_banded example_matrix example_index 1 = (0, LUm, ix) /\
    at1 LUm 2 2 <> Q2Qc 0.
Proof.
  assert (Hsq : square_of example_matrix 3) by (split; reflexivity).
  assert (Hn : 0 <= 3) by lia.
  split; [exact Hsq |]. split; [exact Hn |].
  pose proof example_matrix_factor as Hret.
  destruct (LU_factor_banded example_matrix example_index 1)
    as [[ret lu] ix] eqn:E.
  cbn [fst] in Hret. subst ret.
  exists lu, ix. split; [reflexivity |].
  destruct (@LU_factor_banded_factorises example_matrix 3 1 example_index
              lu ix Hsq Hn E) as (_ & _ & _ & Hdiag & _).
  apply Hdiag. lia.
Defined.

Lemma Basis_mirror_witness :
  0 <= BC example_domain <= 2 /\ 3 <= M example_domain /\
  0 <= 2 <= M example_domain /\
  Basis 2 example_domain (M example_domain - 2)
    (xmin example_domain + node example_domain (M example_domain)
     - Q2Qc (5 # 2))%Qc
  = Basis 2 example_domain 2 (Q2Qc (5 # 2)).
Proof.
  assert (Hm : 0 <= 2 <= M example_domain)
    by (rewrite example_domain_M; lia).
  split; [exact example_domain_HBC |]. split; [exact example_domain_HM |].
  split; [exact Hm |].
  exact (@Basis_mirror example_domain example_domain_HBC
           example_domain_HM 0 2 (Q2Qc (5 # 2)) Hm).
Defined.
